(** * Leviathan: the one-pass tree-shaped tableau for LTL (src/solver.cpp)

    A shallow embedding of [LTL::detail::Solver]: the closure builder
    ([Solver::_initialize], with its structural comparator), the rule engine
    ([Solver::solution]), the rollback ([Solver::_rollback_to_latest_choice])
    and the model extraction ([Solver::model]).

    Conventions of the embedding.
    - [FormulaID] and [FrameID] are unsigned 64-bit wrappers; they are numbers
      in [N], the sentinel [FormulaID::max()] is [FormulaID_max].
    - A [boost::dynamic_bitset] of width [n] is a number in [N] read through
      [N.testbit]; [find_first]/[find_next] only look at positions below [n].
      Indexing a bitset or a vector out of range is undefined in the source
      (an assertion in debug builds); the embedding then sets the bit, or
      reads the default of the vector, and every statement below is about
      positions in range.
    - The stack is a list with the top first.  A [chain] pointer is the
      position of the frame it points to counted from the bottom of the
      stack: frames never move while they are on the stack.
    - The outer loop of [solution] is iterated by [run] under a bound on the
      number of rounds; the statements about returned values hold for every
      bound, or exhibit one that suffices. *)

From Stdlib Require Import List Bool Arith NArith Lia String Ascii.
From Stdlib Require Import Sorting.Sorted.
Import ListNotations.

Local Open Scope N_scope.
Local Open Scope list_scope.

(** ** Formulas *)

Inductive Formula : Type :=
| True_
| False_
| Atom (name : string)
| Negation (f : Formula)
| Tomorrow (f : Formula)
| Always (f : Formula)
| Eventually (f : Formula)
| Conjunction (l r : Formula)
| Disjunction (l r : Formula)
| Then (l r : Formula)
| Iff (l r : Formula)
| Until (l r : Formula).

(** The tags of [Formula::Type], as the switch of
    [_add_formula_for_position] names them. *)
Inductive FormulaType : Type :=
| TTrue | TFalse | TAtom | TNegation | TTomorrow | TAlways | TEventually
| TConjunction | TDisjunction | TThen | TIff | TUntil.

Definition type_of (f : Formula) : FormulaType :=
  match f with
  | True_ => TTrue
  | False_ => TFalse
  | Atom _ => TAtom
  | Negation _ => TNegation
  | Tomorrow _ => TTomorrow
  | Always _ => TAlways
  | Eventually _ => TEventually
  | Conjunction _ _ => TConjunction
  | Disjunction _ _ => TDisjunction
  | Then _ _ => TThen
  | Iff _ _ => TIff
  | Until _ _ => TUntil
  end.

Definition FormulaType_eqb (s t : FormulaType) : bool :=
  match s, t with
  | TTrue, TTrue | TFalse, TFalse | TAtom, TAtom | TNegation, TNegation
  | TTomorrow, TTomorrow | TAlways, TAlways | TEventually, TEventually
  | TConjunction, TConjunction | TDisjunction, TDisjunction
  | TThen, TThen | TIff, TIff | TUntil, TUntil => true
  | _, _ => false
  end.

(** Modelled from the spec: the numeric order of the tags of [Formula::Type]
    (the enum is declared in formula.hpp, which is not part of the sources).
    The data model lists the variants as True, False, Atom, Not, X, G, F,
    conjunction, disjunction, U; the two eliminated connectives sit before U.
    The order theorems below hold for every injective ranking. *)
Definition declared_rank (t : FormulaType) : N :=
  match t with
  | TTrue => 0 | TFalse => 1 | TAtom => 2 | TNegation => 3 | TTomorrow => 4
  | TAlways => 5 | TEventually => 6 | TConjunction => 7 | TDisjunction => 8
  | TThen => 9 | TIff => 10 | TUntil => 11
  end.

(** [operator==] on formula pointers compares the trees. *)
Fixpoint Formula_eqb (a b : Formula) : bool :=
  match a, b with
  | True_, True_ | False_, False_ => true
  | Atom x, Atom y => String.eqb x y
  | Negation a', Negation b' | Tomorrow a', Tomorrow b'
  | Always a', Always b' | Eventually a', Eventually b' => Formula_eqb a' b'
  | Conjunction l1 r1, Conjunction l2 r2
  | Disjunction l1 r1, Disjunction l2 r2
  | Then l1 r1, Then l2 r2
  | Iff l1 r1, Iff l2 r2
  | Until l1 r1, Until l2 r2 => Formula_eqb l1 l2 && Formula_eqb r1 r2
  | _, _ => false
  end.

Definition isa (t : FormulaType) (f : Formula) : bool :=
  FormulaType_eqb (type_of f) t.

Fixpoint size (f : Formula) : nat :=
  match f with
  | True_ | False_ | Atom _ => 1
  | Negation g | Tomorrow g | Always g | Eventually g => S (size g)
  | Conjunction l r | Disjunction l r | Then l r | Iff l r | Until l r =>
      S (size l + size r)
  end.

(** The formulas the simplifier hands to the core: implications and
    biconditionals are gone, at every depth. *)
Fixpoint core_syntax (f : Formula) : bool :=
  match f with
  | True_ | False_ | Atom _ => true
  | Negation g | Tomorrow g | Always g | Eventually g => core_syntax g
  | Conjunction l r | Disjunction l r | Until l r =>
      core_syntax l && core_syntax r
  | Then _ _ | Iff _ _ => false
  end.

(** ** The structural comparator *)

(** [std::lexicographical_compare] on the characters of two names, each
    character read as its code. *)
Fixpoint lexicographical_compare (x y : string) : bool :=
  match x, y with
  | _, EmptyString => false
  | EmptyString, String _ _ => true
  | String c x', String d y' =>
      if N.ltb (N_of_ascii c) (N_of_ascii d) then true
      else if N.ltb (N_of_ascii d) (N_of_ascii c) then false
      else lexicographical_compare x' y'
  end.

Section Comparator.

Variable type_rank : FormulaType -> N.

(** [compareFunc] of [_initialize], test by test.  The recursion goes down
    in the first argument or, with the first argument fixed, in the second. *)
Fixpoint compareFunc (a : Formula) : Formula -> bool :=
  fix compare_a (b : Formula) : bool :=
    match a, b with
    | Atom x, Atom y => lexicographical_compare x y
    | Negation a', Negation b' => compareFunc a' b'
    | Negation a', _ => if Formula_eqb a' b then false else compareFunc a' b
    | _, Negation b' => if Formula_eqb b' a then true else compare_a b'
    | Tomorrow a', Tomorrow b' => compareFunc a' b'
    | Tomorrow a', _ => if Formula_eqb a' b then false else compareFunc a' b
    | _, Tomorrow b' => if Formula_eqb b' a then true else compare_a b'
    | Always a', Always b' => compareFunc a' b'
    | Eventually a', Eventually b' => compareFunc a' b'
    | Conjunction l1 r1, Conjunction l2 r2
    | Disjunction l1 r1, Disjunction l2 r2
    | Until l1 r1, Until l2 r2 =>
        if negb (Formula_eqb l1 l2) then compareFunc l1 l2
        else compareFunc r1 r2
    | _, _ => N.ltb (type_rank (type_of a)) (type_rank (type_of b))
    end.

(** [std::sort] with the comparator: the sorted arrangement of the
    elements, built by inserting each element before the first greater one.
    On the formulas of a closure the comparator is a strict total order
    ([compare_trans], [compare_total] below), so the sorted arrangement is
    the same whatever the sorting algorithm. *)
Fixpoint sort_insert (x : Formula) (l : list Formula) : list Formula :=
  match l with
  | [] => [x]
  | h :: t => if compareFunc x h then x :: h :: t else h :: sort_insert x t
  end.

Fixpoint sort (l : list Formula) : list Formula :=
  match l with
  | [] => []
  | x :: t => sort_insert x (sort t)
  end.

(** [std::unique] followed by [erase]: each run of equal neighbours shrinks
    to one element. *)
Fixpoint unique (l : list Formula) : list Formula :=
  match l with
  | [] => []
  | x :: t =>
      match t with
      | [] => [x]
      | y :: _ => if Formula_eqb x y then unique t else x :: unique t
      end
  end.

(** [std::lower_bound(first, last, value, comp) - first]: the position of
    the first element that does not compare below the value, that is, on a
    sorted range, the number of leading elements that compare below it. *)
Fixpoint lower_bound (l : list Formula) (value : Formula) : N :=
  match l with
  | [] => 0
  | h :: t => if compareFunc h value then N.succ (lower_bound t value) else 0
  end.

End Comparator.

(** ** Identifiers, bitsets and vectors *)

Definition FormulaID := N.
Definition FrameID := N.
Definition FormulaID_max : FormulaID := 18446744073709551615.

(** [x - 1] on an unsigned 64-bit position. *)
Definition pred64 (x : N) : N :=
  if N.eqb x 0 then FormulaID_max else N.pred x.

Definition Bitset := N.

(** The positions [0 .. n-1] of a bitset of width [n], in increasing order. *)
Definition positions (n : N) : list N :=
  map N.of_nat (seq 0 (N.to_nat n)).

Definition find_first (n : N) (b : Bitset) : option N :=
  find (N.testbit b) (positions n).

(** The positions visited by [find_first] and then [find_next] until
    [npos]. *)
Definition set_bits (n : N) (b : Bitset) : list N :=
  filter (N.testbit b) (positions n).

Definition any (b : Bitset) : bool := negb (N.eqb b 0).
Definition none (b : Bitset) : bool := N.eqb b 0.
Definition is_subset_of (a b : Bitset) : bool := N.eqb (N.ldiff a b) 0.
Definition set_all (n : N) : Bitset := N.ones n.

(** [b << 1] on a bitset of width [n]: the bit shifted out is lost. *)
Definition shiftl1 (n : N) (b : Bitset) : Bitset :=
  N.land (N.shiftl b 1) (N.ones n).

(** [v[i]] and [v[i] = x] on a vector. *)
Definition vget {A : Type} (d : A) (v : list A) (i : N) : A :=
  nth (N.to_nat i) v d.

Fixpoint vset_nat {A : Type} (v : list A) (i : nat) (x : A) : list A :=
  match v, i with
  | [], _ => []
  | _ :: t, O => x :: t
  | h :: t, S j => h :: vset_nat t j x
  end.

Definition vset {A : Type} (v : list A) (i : N) (x : A) : list A :=
  vset_nat v (N.to_nat i) x.

Definition vlength {A : Type} (v : list A) : N := N.of_nat (List.length v).

(** ** Eventualities, literals, frames *)

(** Modelled from the spec: the promise record [Eventuality] (declared in
    solver.hpp, which is not part of the sources): a tri-state with the
    frame id of the last satisfaction. *)
Inductive Eventuality : Type :=
| Unrequested
| NotSatisfied
| Satisfied (at_id : FrameID).

Definition is_not_requested (ev : Eventuality) : bool :=
  match ev with Unrequested => true | _ => false end.

Definition is_satisfied (ev : Eventuality) : bool :=
  match ev with Satisfied _ => true | _ => false end.

Definition set_not_satisfied (ev : Eventuality) : Eventuality := NotSatisfied.

Definition set_satisfied (k : FrameID) (ev : Eventuality) : Eventuality :=
  Satisfied k.

(** [ev.is_satisfied() && ev.id() >= k]. *)
Definition satisfied_since (ev : Eventuality) (k : FrameID) : bool :=
  match ev with
  | Satisfied j => N.leb k j
  | _ => false
  end.

(** [Minisat::Lit(var, sign)] and a clause of them. *)
Record Lit : Type := mkLit { var : N; sign : bool }.
Definition Clause := list Lit.

Inductive FrameType : Type := UNKNOWN | SAT | STEP | CHOICE.

Definition FrameType_eqb (s t : FrameType) : bool :=
  match s, t with
  | UNKNOWN, UNKNOWN | SAT, SAT | STEP, STEP | CHOICE, CHOICE => true
  | _, _ => false
  end.

(** Modelled from the spec: the layout of [Frame] (declared in solver.hpp,
    which is not part of the sources).  [solver] is the clause database of
    the frame's own propositional solver, absent unless the frame is a SAT
    frame. *)
Record Frame : Type := mkFrame {
  formulas : Bitset;
  to_process : Bitset;
  eventualities : list Eventuality;
  id : FrameID;
  choosenFormula : FormulaID;
  type : FrameType;
  chain : option N;
  solver : option (list Clause);
  literals : list N
}.

(** Modelled from the spec: the three constructors of [Frame] (solver.hpp).
    The first frame asserts the start formula, a STEP successor starts empty
    and takes the promises of its parent, and a copy inherits [formulas],
    [to_process], [eventualities], the time step and the chain; it is a new
    node of the search, so it has no kind, no chosen formula and no solver
    yet ([_should_use_sat_solver] asserts that the top of the stack is SAT or
    UNKNOWN, and the SAT bridge asserts that its literals are empty). *)
Definition Frame_first (i : FrameID) (start n nev : N) : Frame :=
  mkFrame (N.setbit 0 start) (set_all n)
          (repeat Unrequested (N.to_nat nev))
          i FormulaID_max UNKNOWN None None [].

Definition Frame_step (i : FrameID) (n : N) (evs : list Eventuality)
    (parent : N) : Frame :=
  mkFrame 0 (set_all n) evs i FormulaID_max UNKNOWN (Some parent) None [].

Definition Frame_copy (f : Frame) : Frame :=
  mkFrame (formulas f) (to_process f) (eventualities f) (id f)
          FormulaID_max UNKNOWN (chain f) None [].

Definition set_formula (f : Frame) (i : N) : Frame :=
  mkFrame (N.setbit (formulas f) i) (to_process f) (eventualities f) (id f)
          (choosenFormula f) (type f) (chain f) (solver f) (literals f).

Definition clear_to_process (f : Frame) (i : N) : Frame :=
  mkFrame (formulas f) (N.clearbit (to_process f) i) (eventualities f) (id f)
          (choosenFormula f) (type f) (chain f) (solver f) (literals f).

Definition with_eventualities (f : Frame) (evs : list Eventuality) : Frame :=
  mkFrame (formulas f) (to_process f) evs (id f)
          (choosenFormula f) (type f) (chain f) (solver f) (literals f).

Definition with_choosenFormula (f : Frame) (c : FormulaID) : Frame :=
  mkFrame (formulas f) (to_process f) (eventualities f) (id f)
          c (type f) (chain f) (solver f) (literals f).

Definition with_type (f : Frame) (t : FrameType) : Frame :=
  mkFrame (formulas f) (to_process f) (eventualities f) (id f)
          (choosenFormula f) t (chain f) (solver f) (literals f).

Definition with_solver (f : Frame) (s : option (list Clause)) : Frame :=
  mkFrame (formulas f) (to_process f) (eventualities f) (id f)
          (choosenFormula f) (type f) (chain f) s (literals f).

Definition with_literals (f : Frame) (l : list N) : Frame :=
  mkFrame (formulas f) (to_process f) (eventualities f) (id f)
          (choosenFormula f) (type f) (chain f) (solver f) l.

(** ** The solver object *)

Inductive State : Type := UNINITIALIZED | INITIALIZED | RUNNING | PAUSED | DONE.
Inductive Result : Type := SATISFIABLE | UNSATISFIABLE | UNDEFINED.

Definition State_eqb (s t : State) : bool :=
  match s, t with
  | UNINITIALIZED, UNINITIALIZED | INITIALIZED, INITIALIZED
  | RUNNING, RUNNING | PAUSED, PAUSED | DONE, DONE => true
  | _, _ => false
  end.

Definition Result_eqb (s t : Result) : bool :=
  match s, t with
  | SATISFIABLE, SATISFIABLE | UNSATISFIABLE, UNSATISFIABLE
  | UNDEFINED, UNDEFINED => true
  | _, _ => false
  end.

(** The nine kind bitsets of [_bitset] ([temporary] is a scratch value and
    is a local of each rule here). *)
Record Bitsets : Type := mkBitsets {
  atom : Bitset;
  negation : Bitset;
  tomorrow : Bitset;
  always : Bitset;
  eventually : Bitset;
  conjunction : Bitset;
  disjunction : Bitset;
  until : Bitset;
  not_until : Bitset
}.

Definition Bitsets_empty : Bitsets := mkBitsets 0 0 0 0 0 0 0 0 0.

(** The members of [Solver] that [_initialize] fills and nothing changes
    afterwards. *)
Record Closure : Type := mkClosure {
  _subformulas : list Formula;
  _number_of_formulas : N;
  _bitset : Bitsets;
  _lhs : list FormulaID;
  _rhs : list FormulaID;
  _atom_set : list (FormulaID * string);
  _fw_eventualities_lut : list FormulaID;
  _bw_eventualities_lut : list FormulaID;
  _clause_size : list N;
  _clauses : list Clause;
  _has_eventually : bool;
  _has_until : bool;
  _has_not_until : bool;
  _start_index : FormulaID
}.

(** The constructor arguments, after the clamping of the constructor. *)
Record Config : Type := mkConfig {
  _maximum_depth : FrameID;
  _backtrack_probability : N;
  _minimum_backtrack : N;
  _maximum_backtrack : N;
  _use_sat_solver : bool
}.

(** The solver: configuration, closure, and the members [solution] changes.
    [_mt] counts the numbers drawn from the generator so far. *)
Record Solver : Type := mkSolver {
  config : Config;
  _formula : Formula;
  closure : Closure;
  _state : State;
  _result : Result;
  _loop_state : FrameID;
  _stack : list Frame;
  _mt : N
}.

Definition with_stack (s : Solver) (st : list Frame) : Solver :=
  mkSolver (config s) (_formula s) (closure s) (_state s) (_result s)
           (_loop_state s) st (_mt s).

Definition with_state (s : Solver) (x : State) : Solver :=
  mkSolver (config s) (_formula s) (closure s) x (_result s)
           (_loop_state s) (_stack s) (_mt s).

Definition with_result (s : Solver) (r : Result) : Solver :=
  mkSolver (config s) (_formula s) (closure s) (_state s) r
           (_loop_state s) (_stack s) (_mt s).

Definition with_loop_state (s : Solver) (k : FrameID) : Solver :=
  mkSolver (config s) (_formula s) (closure s) (_state s) (_result s)
           k (_stack s) (_mt s).

Definition with_mt (s : Solver) (k : N) : Solver :=
  mkSolver (config s) (_formula s) (closure s) (_state s) (_result s)
           (_loop_state s) (_stack s) k.

(** ** The closure builder: [Solver::_initialize] *)

Section Engine.

(** The order of the tags of [Formula::Type] (formula.hpp). *)
Variable type_rank : FormulaType -> N.
(** [Simplifier::simplify], an external collaborator. *)
Variable simplify : Formula -> Formula.
(** [Generator::generate] followed by [Generator::formulas], an external
    collaborator: the subformulas of the input and their negations. *)
Variable generate : Formula -> list Formula.
(** [ClauseCounter::count], an external collaborator. *)
Variable count : Formula -> N.
(** The embedded propositional solver: [solve()] on the clauses added so far
    and, when it succeeds, [modelValue(v) == l_True] for each variable. *)
Variable minisat_solve : list Clause -> option (N -> bool).
(** The numbers that [std::mt19937], seeded from [std::random_device],
    produces: the k-th draw. *)
Variable random_draw : N -> N.

(** The tables under construction in the first loop of [_initialize]. *)
Record Building : Type := mkBuilding {
  b_bitset : Bitsets;
  b_lhs : list FormulaID;
  b_rhs : list FormulaID;
  b_atom_set : list (FormulaID * string);
  b_start_index : FormulaID
}.

Definition set_kind (t : Building) (bs : Bitsets) : Building :=
  mkBuilding bs (b_lhs t) (b_rhs t) (b_atom_set t) (b_start_index t).

Definition set_lhs (t : Building) (position lhs : FormulaID) : Building :=
  mkBuilding (b_bitset t) (vset (b_lhs t) position lhs) (b_rhs t)
             (b_atom_set t) (b_start_index t).

Definition set_rhs (t : Building) (position rhs : FormulaID) : Building :=
  mkBuilding (b_bitset t) (b_lhs t) (vset (b_rhs t) position rhs)
             (b_atom_set t) (b_start_index t).

Definition set_atom_name (t : Building) (position : FormulaID) (name : string)
    : Building :=
  mkBuilding (b_bitset t) (b_lhs t) (b_rhs t)
             ((position, name) :: b_atom_set t) (b_start_index t).

Definition set_start_index (t : Building) (position : FormulaID) : Building :=
  mkBuilding (b_bitset t) (b_lhs t) (b_rhs t) (b_atom_set t) position.

Definition mark_atom (b : Bitsets) (p : N) : Bitsets :=
  mkBitsets (N.setbit (atom b) p) (negation b) (tomorrow b) (always b)
            (eventually b) (conjunction b) (disjunction b) (until b)
            (not_until b).
Definition mark_negation (b : Bitsets) (p : N) : Bitsets :=
  mkBitsets (atom b) (N.setbit (negation b) p) (tomorrow b) (always b)
            (eventually b) (conjunction b) (disjunction b) (until b)
            (not_until b).
Definition mark_tomorrow (b : Bitsets) (p : N) : Bitsets :=
  mkBitsets (atom b) (negation b) (N.setbit (tomorrow b) p) (always b)
            (eventually b) (conjunction b) (disjunction b) (until b)
            (not_until b).
Definition mark_always (b : Bitsets) (p : N) : Bitsets :=
  mkBitsets (atom b) (negation b) (tomorrow b) (N.setbit (always b) p)
            (eventually b) (conjunction b) (disjunction b) (until b)
            (not_until b).
Definition mark_eventually (b : Bitsets) (p : N) : Bitsets :=
  mkBitsets (atom b) (negation b) (tomorrow b) (always b)
            (N.setbit (eventually b) p) (conjunction b) (disjunction b)
            (until b) (not_until b).
Definition mark_conjunction (b : Bitsets) (p : N) : Bitsets :=
  mkBitsets (atom b) (negation b) (tomorrow b) (always b) (eventually b)
            (N.setbit (conjunction b) p) (disjunction b) (until b)
            (not_until b).
Definition mark_disjunction (b : Bitsets) (p : N) : Bitsets :=
  mkBitsets (atom b) (negation b) (tomorrow b) (always b) (eventually b)
            (conjunction b) (N.setbit (disjunction b) p) (until b)
            (not_until b).
Definition mark_until (b : Bitsets) (p : N) : Bitsets :=
  mkBitsets (atom b) (negation b) (tomorrow b) (always b) (eventually b)
            (conjunction b) (disjunction b) (N.setbit (until b) p)
            (not_until b).
Definition mark_not_until (b : Bitsets) (p : N) : Bitsets :=
  mkBitsets (atom b) (negation b) (tomorrow b) (always b) (eventually b)
            (conjunction b) (disjunction b) (until b)
            (N.setbit (not_until b) p).

(** [Solver::_add_formula_for_position].  The four tags of the last case
    only meet [assert(false)]: nothing is recorded for them. *)
Definition _add_formula_for_position (t : Building) (formula : Formula)
    (position lhs rhs : FormulaID) : Building :=
  match formula with
  | Atom name =>
      set_atom_name (set_kind t (mark_atom (b_bitset t) position))
                    position name
  | Negation g =>
      if isa TUntil g then
        set_rhs (set_lhs (set_kind t (mark_not_until (b_bitset t) position))
                         position lhs) position rhs
      else
        set_lhs (set_kind t (mark_negation (b_bitset t) position))
                position lhs
  | Tomorrow _ =>
      set_lhs (set_kind t (mark_tomorrow (b_bitset t) position)) position lhs
  | Always _ =>
      set_lhs (set_kind t (mark_always (b_bitset t) position)) position lhs
  | Eventually _ =>
      set_lhs (set_kind t (mark_eventually (b_bitset t) position))
              position lhs
  | Conjunction _ _ =>
      set_rhs (set_lhs (set_kind t (mark_conjunction (b_bitset t) position))
                       position lhs) position rhs
  | Disjunction _ _ =>
      set_rhs (set_lhs (set_kind t (mark_disjunction (b_bitset t) position))
                       position lhs) position rhs
  | Until _ _ =>
      set_rhs (set_lhs (set_kind t (mark_until (b_bitset t) position))
                       position lhs) position rhs
  | True_ | False_ | Iff _ _ | Then _ _ => t
  end.

(** The [left] and [right] pointers the first loop computes for an entry. *)
Definition left_right (f : Formula) : option Formula * option Formula :=
  match f with
  | Negation g =>
      match g with
      | Until l r =>
          (Some (simplify (Negation l)), Some (simplify (Negation r)))
      | _ => (Some g, None)
      end
  | Tomorrow g | Always g | Eventually g => (Some g, None)
  | Conjunction l r | Disjunction l r | Until l r => (Some l, Some r)
  | _ => (None, None)
  end.

(** The position of a formula in the sorted closure, or 0 for a null
    pointer. *)
Definition position_of (subformulas : list Formula) (p : option Formula)
    : FormulaID :=
  match p with
  | Some g => lower_bound type_rank subformulas g
  | None => 0
  end.

(** One round of the loop [for (auto f : _subformulas)]. *)
Definition build_entry (subformulas : list Formula) (formula : Formula)
    (acc : Building * FormulaID) (f : Formula) : Building * FormulaID :=
  let (t, current_index) := acc in
  let t1 := if Formula_eqb f formula then set_start_index t current_index
            else t in
  let (left, right) := left_right f in
  (_add_formula_for_position t1 f current_index
     (position_of subformulas left) (position_of subformulas right),
   N.succ current_index).

Definition build_tables (subformulas : list Formula) (formula : Formula)
    : Building :=
  let n := List.length subformulas in
  fst (fold_left (build_entry subformulas formula) subformulas
         (mkBuilding Bitsets_empty (repeat FormulaID_max n)
                     (repeat FormulaID_max n) [] 0, 0)).

(** The formulas expected to hold eventually, entry by entry. *)
Definition eventualities_of (subformulas : list Formula) (t : Building)
    (i : N) : list Formula :=
  if N.testbit (eventually (b_bitset t)) i then
    [vget True_ subformulas (vget FormulaID_max (b_lhs t) i)]
  else if N.testbit (until (b_bitset t)) i then
    [vget True_ subformulas (vget FormulaID_max (b_rhs t) i)]
  else if N.testbit (not_until (b_bitset t)) i then
    [vget True_ subformulas (vget FormulaID_max (b_lhs t) i);
     vget True_ subformulas (vget FormulaID_max (b_rhs t) i)]
  else [].

(** The loop that fills both eventuality tables. *)
Definition build_luts (subformulas evs : list Formula)
    : list FormulaID * list FormulaID :=
  fold_left
    (fun (acc : list FormulaID * list FormulaID) (ie : N * Formula) =>
       let position := lower_bound type_rank subformulas (snd ie) in
       (vset (fst acc) position (fst ie), vset (snd acc) (fst ie) position))
    (combine (positions (vlength evs)) evs)
    (repeat FormulaID_max (List.length subformulas),
     repeat 0 (List.length evs)).

(** The literal [collect] pushes for a disjunct that is not a disjunction. *)
Definition leaf_literal (subformulas : list Formula) (x : Formula) : Lit :=
  let index := lower_bound type_rank subformulas x in
  let negative :=
    match x with
    | Negation _ => true
    | Tomorrow (Negation _) => true
    | _ => false
    end in
  if negative then mkLit (pred64 index) true else mkLit index false.

Fixpoint collect (subformulas : list Formula) (f : Formula) : list Lit :=
  match f with
  | Disjunction l r =>
      (match l with
       | Disjunction _ _ => collect subformulas l
       | _ => [leaf_literal subformulas l]
       end)
      ++
      (match r with
       | Disjunction _ _ => collect subformulas r
       | _ => [leaf_literal subformulas r]
       end)
  | _ => []
  end.

(** One round of the loop that fills [_clause_size] and [_clauses]. *)
Definition build_clause (subformulas : list Formula)
    (acc : list N * list Clause * FormulaID) (f : Formula)
    : list N * list Clause * FormulaID :=
  let '(sizes, clauses, current_index) := acc in
  let sizes1 :=
    match f with
    | Disjunction _ _ => vset sizes current_index (count f)
    | _ => sizes
    end in
  let clauses1 :=
    match f with
    | Atom _ | Always _ | Eventually _ | Until _ _ =>
        vset clauses current_index [mkLit current_index false]
    | Negation _ =>
        vset clauses current_index [mkLit (pred64 current_index) true]
    | Tomorrow g =>
        match g with
        | Negation _ =>
            vset clauses current_index [mkLit (pred64 current_index) true]
        | _ => vset clauses current_index [mkLit current_index false]
        end
    | Disjunction _ _ =>
        vset clauses current_index (collect subformulas f)
    | _ => clauses
    end in
  (sizes1, clauses1, N.succ current_index).

Definition Closure_empty (subformulas : list Formula) : Closure :=
  mkClosure subformulas 0 Bitsets_empty [] [] [] [] [] [] []
            false false false 0.

(** [Solver::_initialize], on the solver the constructor has prepared. *)
Definition _initialize (s : Solver) : Solver :=
  let formula := simplify (_formula s) in
  let generated := generate formula in
  let constant (r : Result) :=
    mkSolver (config s) formula (Closure_empty generated) DONE r
             (_loop_state s) [] (_mt s) in
  match generated with
  | [True_] => constant SATISFIABLE
  | [False_] => constant UNSATISFIABLE
  | _ =>
      let subformulas := unique (sort type_rank generated) in
      let n := vlength subformulas in
      let t := build_tables subformulas formula in
      let evs :=
        unique
          (sort type_rank
             (flat_map (eventualities_of subformulas t) (positions n))) in
      let (fw, bw) := build_luts subformulas evs in
      let '(sizes, clauses, _) :=
        fold_left (build_clause subformulas) subformulas
                  (repeat 1 (N.to_nat n), repeat [] (N.to_nat n), 0) in
      let c :=
        mkClosure subformulas n (b_bitset t) (b_lhs t) (b_rhs t)
                  (b_atom_set t) fw bw sizes clauses
                  (any (eventually (b_bitset t)))
                  (any (until (b_bitset t)))
                  (any (not_until (b_bitset t)))
                  (b_start_index t) in
      mkSolver (config s) formula c INITIALIZED (_result s) (_loop_state s)
               [Frame_first 0 (b_start_index t) n (vlength bw)] (_mt s)
  end.

(** The constructor [Solver::Solver]: it clamps the percentages and calls
    [_initialize]. *)
Definition Solver_new (formula : Formula) (maximum_depth : FrameID)
    (backtrack_probability minimum_backtrack maximum_backtrack : N)
    (use_sat : bool) : Solver :=
  let probability :=
    if N.ltb 100 backtrack_probability then 100 else backtrack_probability in
  let maximum :=
    if N.ltb 100 maximum_backtrack then 100 else maximum_backtrack in
  let minimum :=
    if N.ltb maximum minimum_backtrack then maximum else minimum_backtrack in
  _initialize
    (mkSolver (mkConfig maximum_depth probability minimum maximum use_sat)
              formula (Closure_empty []) UNINITIALIZED UNDEFINED 0 [] 0).

(** ** The rules on the top frame *)

Definition lhs_at (c : Closure) (i : FormulaID) : FormulaID :=
  vget FormulaID_max (_lhs c) i.
Definition rhs_at (c : Closure) (i : FormulaID) : FormulaID :=
  vget FormulaID_max (_rhs c) i.
Definition fw_at (c : Closure) (i : FormulaID) : FormulaID :=
  vget FormulaID_max (_fw_eventualities_lut c) i.
Definition bw_at (c : Closure) (i : N) : FormulaID :=
  vget FormulaID_max (_bw_eventualities_lut c) i.

(** [Solver::_check_contradiction_rule]. *)
Definition _check_contradiction_rule (c : Closure) (frame : Frame) : bool :=
  let temporary := formulas frame in
  let temporary := N.land temporary (negation (_bitset c)) in
  let temporary := N.shiftr temporary 1 in
  let temporary := N.land temporary (formulas frame) in
  any temporary.

(** [Solver::_apply_conjunction_rule]; the second component is the value
    returned. *)
Definition _apply_conjunction_rule (c : Closure) (frame : Frame)
    : Frame * bool :=
  let temporary :=
    N.land (N.land (formulas frame) (conjunction (_bitset c)))
           (to_process frame) in
  if negb (any temporary) then (frame, false)
  else
    (fold_left
       (fun (fr : Frame) (one : N) =>
          clear_to_process
            (set_formula (set_formula fr (lhs_at c one)) (rhs_at c one)) one)
       (set_bits (_number_of_formulas c) temporary) frame,
     true).

(** [Solver::_apply_always_rule]. *)
Definition _apply_always_rule (c : Closure) (frame : Frame) : Frame * bool :=
  let temporary :=
    N.land (N.land (formulas frame) (always (_bitset c)))
           (to_process frame) in
  if negb (any temporary) then (frame, false)
  else
    (fold_left
       (fun (fr : Frame) (one : N) =>
          clear_to_process
            (set_formula (set_formula fr (lhs_at c one)) (one + 1)) one)
       (set_bits (_number_of_formulas c) temporary) frame,
     true).

(** The macro [APPLY_RULE(rule)] for the kind bitset [rule]: the frame after
    the rule when it returns true, nothing when it returns false. *)
Definition _apply_rule (c : Closure) (rule : Bitset) (frame : Frame)
    : option Frame :=
  let temporary := N.land (N.land (formulas frame) rule) (to_process frame) in
  match find_first (_number_of_formulas c) temporary with
  | Some one =>
      Some (with_type (with_choosenFormula (clear_to_process frame one) one)
                      CHOICE)
  | None => None
  end.

Definition _apply_disjunction_rule (c : Closure) :=
  _apply_rule c (disjunction (_bitset c)).
Definition _apply_eventually_rule (c : Closure) :=
  _apply_rule c (eventually (_bitset c)).
Definition _apply_until_rule (c : Closure) :=
  _apply_rule c (until (_bitset c)).
Definition _apply_not_until_rule (c : Closure) :=
  _apply_rule c (not_until (_bitset c)).

(** [Solver::_should_use_sat_solver] on the top frame. *)
Definition _should_use_sat_solver (s : Solver) (top : Frame) : bool :=
  if negb (_use_sat_solver (config s)) then false
  else any (N.land (N.land (formulas top) (to_process top))
                   (disjunction (_bitset (closure s)))).

(** [if (ev.is_not_requested()) ev.set_not_satisfied();] on the slot [slot]
    of a vector of promises. *)
Definition request (evs : list Eventuality) (slot : N) : list Eventuality :=
  let ev := vget Unrequested evs slot in
  if is_not_requested ev then vset evs slot (set_not_satisfied ev) else evs.

(** The promise updates of the not-until block of [solution].  [ev] is a
    reference to the slot of the left child; the statement
    [ev = frame.eventualities[...]] assigns through it. *)
Definition request_not_until (c : Closure) (frame : Frame)
    : list Eventuality :=
  let left_slot := fw_at c (lhs_at c (choosenFormula frame)) in
  let right_slot := fw_at c (rhs_at c (choosenFormula frame)) in
  let evs := request (eventualities frame) left_slot in
  let evs := vset evs left_slot (vget Unrequested evs right_slot) in
  request evs left_slot.

(** ** Rollback *)

(** The test of the SAT bridge on a variable the model makes false. *)
Definition negative_slot (c : Closure) (i : N) : bool :=
  N.testbit (negation (_bitset c)) (i + 1)
  || match vget True_ (_subformulas c) (i + 1) with
     | Tomorrow (Negation _) => true
     | _ => false
     end.

(** The loop [for (int l : literals)] of the SAT bridge: the child frame and
    the blocking clause. *)
Definition sat_extract (c : Closure) (value : N -> bool) (lits : list N)
    (new_frame : Frame) : Frame * Clause :=
  fold_left
    (fun (acc : Frame * Clause) (l : N) =>
       if value l then (set_formula (fst acc) l, snd acc ++ [mkLit l true])
       else if negative_slot c l then
         (set_formula (fst acc) (l + 1), snd acc ++ [mkLit l false])
       else acc)
    lits (new_frame, []).

Definition clauses_of (f : Frame) : list Clause :=
  match solver f with Some cs => cs | None => [] end.

(** The child a CHOICE frame gets when it is resumed. *)
Definition second_alternative (c : Closure) (top : Frame) : Frame :=
  let new_frame := Frame_copy top in
  let i := choosenFormula top in
  let skin :=
    if N.testbit (tomorrow (_bitset c)) (i + 1) then i + 1 else i + 2 in
  if N.testbit (disjunction (_bitset c)) i then
    set_formula new_frame (rhs_at c i)
  else if N.testbit (eventually (_bitset c)) i then
    set_formula new_frame (i + 1)
  else if N.testbit (until (_bitset c)) i then
    set_formula (set_formula new_frame (lhs_at c i)) skin
  else if N.testbit (not_until (_bitset c)) i then
    set_formula (set_formula new_frame (rhs_at c i)) skin
  else new_frame.

(** [Solver::_rollback_to_latest_choice], on the stack. *)
Fixpoint rollback (c : Closure) (stack : list Frame) : list Frame :=
  match stack with
  | [] => []
  | top :: below =>
      if FrameType_eqb (type top) CHOICE
         && negb (N.eqb (choosenFormula top) FormulaID_max)
      then
        second_alternative c top
          :: with_choosenFormula top FormulaID_max :: below
      else if FrameType_eqb (type top) SAT then
        match minisat_solve (clauses_of top) with
        | Some value =>
            let (new_frame, blocking) :=
              sat_extract c value (literals top) (Frame_copy top) in
            new_frame
              :: with_solver top (Some (clauses_of top ++ [blocking]))
              :: below
        | None => rollback c below
        end
      else rollback c below
  end.

Definition _rollback_to_latest_choice (s : Solver) : Solver :=
  with_stack s (rollback (closure s) (_stack s)).

(** [Solver::_update_eventualities_satisfaction] on the top frame. *)
Definition _update_eventualities_satisfaction (c : Closure) (frame : Frame)
    : Frame :=
  with_eventualities frame
    (map (fun (ie : N * Eventuality) =>
            if N.testbit (formulas frame) (bw_at c (fst ie))
            then set_satisfied (id frame) (snd ie) else snd ie)
         (combine (positions (vlength (eventualities frame)))
                  (eventualities frame))).

(** ** The loop and repetition detector *)

(** The frame a chain pointer designates. *)
Definition frame_at (stack : list Frame) (k : N) : option Frame :=
  nth_error (rev stack) (N.to_nat k).

(** The frames met by [currFrame = currFrame->chain] from a pointer on. *)
Fixpoint chain_frames (fuel : nat) (stack : list Frame) (p : option N)
    : list Frame :=
  match fuel, p with
  | S fuel', Some k =>
      match frame_at stack k with
      | Some a => a :: chain_frames fuel' stack (chain a)
      | None => []
      end
  | _, _ => []
  end.

(** The inner loop over the promises: [all_satisfied]. *)
Definition all_satisfied (c : Closure) (frame ancestor : Frame) : bool :=
  forallb
    (fun i =>
       let ev := vget Unrequested (eventualities frame) i in
       is_not_requested ev || satisfied_since ev (id ancestor))
    (positions (vlength (_bw_eventualities_lut c))).

Inductive Lookback : Type :=
| Loop (k : FrameID)
| Rep
| Neither.

(** The loop [while (currFrame)] with the two repetition pointers, followed
    by the test of the REP rule. *)
Fixpoint lookback (c : Closure) (frame : Frame) (ancestors : list Frame)
    (repFrame1 repFrame2 : option Frame) : Lookback :=
  match ancestors with
  | [] =>
      match repFrame1, repFrame2 with
      | Some _, Some _ => Rep
      | _, _ => Neither
      end
  | currFrame :: rest =>
      if is_subset_of (formulas frame) (formulas currFrame) then
        if all_satisfied c frame currFrame then Loop (id currFrame)
        else if N.eqb (formulas frame) (formulas currFrame) then
          match repFrame1, repFrame2 with
          | None, _ => lookback c frame rest (Some currFrame) repFrame2
          | Some _, None => lookback c frame rest repFrame1 (Some currFrame)
          | Some _, Some _ => lookback c frame rest repFrame1 repFrame2
          end
        else lookback c frame rest repFrame1 repFrame2
      else lookback c frame rest repFrame1 repFrame2
  end.

(** ** [Solver::solution] *)

Inductive Outcome : Type :=
| Returned (r : Result) (s : Solver)
| Continue (s : Solver)
| Fault.

(** Replaces the top of the stack. *)
Definition set_top (s : Solver) (frame : Frame) : Solver :=
  with_stack s (frame :: tl (_stack s)).

Definition push (s : Solver) (frame : Frame) : Solver :=
  with_stack s (frame :: _stack s).

(** The STEP rule on the top frame [frame], whose position in the stack is
    [position]. *)
Definition step_frame (c : Closure) (frame : Frame) (position : N) : Frame :=
  let new_frame :=
    Frame_step (id frame + 1) (_number_of_formulas c) (eventualities frame)
               position in
  let temporary := N.land (formulas frame) (tomorrow (_bitset c)) in
  fold_left
    (fun (nf : Frame) (i : N) =>
       if N.testbit temporary i then set_formula nf (lhs_at c i) else nf)
    (positions (_number_of_formulas c)) new_frame.

(** From the label [step_rule] to the end of the round. *)
Definition step_rule (s : Solver) (frame : Frame) : Outcome :=
  if N.leb (_maximum_depth (config s)) (id frame) then
    Continue (_rollback_to_latest_choice s)
  else
    let position := vlength (tl (_stack s)) in
    Continue (push (set_top s (with_type frame STEP))
                   (step_frame (closure s) frame position)).

(** The SAT bridge of [solution], entered when [_should_use_sat_solver]. *)
Fixpoint insert_literal (x : N) (l : list N) : list N :=
  match l with
  | [] => [x]
  | h :: t =>
      if N.ltb x h then x :: h :: t
      else if N.eqb x h then h :: t
      else h :: insert_literal x t
  end.

(** [std::sort] then [std::unique] on the literals. *)
Definition sort_unique (l : list N) : list N :=
  fold_right insert_literal [] l.

Definition sat_bridge (s : Solver) (frame : Frame) : Outcome :=
  let c := closure s in
  let b := _bitset c in
  let n := _number_of_formulas c in
  let temporary :=
    N.land
      (N.lor (N.lor (N.lor (atom b) (tomorrow b))
                    (N.land (shiftl1 n (atom b)) (negation b)))
             (disjunction b))
      (formulas frame) in
  let ones := set_bits n temporary in
  let clauses := map (fun one => vget [] (_clauses c) one) ones in
  let lits :=
    flat_map
      (fun one =>
         map var (firstn (N.to_nat (vget 1 (_clause_size c) one))
                         (vget [] (_clauses c) one)))
      ones in
  let cleared :=
    fold_left
      (fun (fr : Frame) (one : N) =>
         if N.testbit (disjunction b) one then clear_to_process fr one
         else fr)
      ones frame in
  let frame1 :=
    with_literals (with_solver (with_type cleared SAT) (Some clauses))
                  (sort_unique (literals frame ++ lits)) in
  match minisat_solve clauses with
  | None =>
      Continue (_rollback_to_latest_choice
                  (set_top s (with_type frame1 UNKNOWN)))
  | Some value =>
      let (new_frame, blocking) :=
        sat_extract c value (literals frame1) (Frame_copy frame1) in
      Continue (push (set_top s (with_solver frame1
                                   (Some (clauses ++ [blocking]))))
                     new_frame)
  end.

(** After the inner loop: the promises, the coin of OCCASIONAL LOOKBACK, the
    LOOP and REP rules, then [step_rule]. *)
Definition after_rules (s : Solver) (frame0 : Frame) : Outcome :=
  let c := closure s in
  let frame := _update_eventualities_satisfaction c frame0 in
  let s := set_top s frame in
  let drawn := N.modulo (random_draw (_mt s)) 101 in
  let s := with_mt s (N.succ (_mt s)) in
  if N.ltb (_backtrack_probability (config s)) drawn then step_rule s frame
  else
    match lookback c frame
            (chain_frames (List.length (_stack s)) (_stack s) (chain frame))
            None None with
    | Loop k =>
        Returned SATISFIABLE
          (with_loop_state (with_state (with_result s SATISFIABLE) PAUSED) k)
    | Rep => Continue (_rollback_to_latest_choice s)
    | Neither => step_rule s frame
    end.

(** The beta rules of one round of the inner loop, on the top frame [frame]
    left by the alpha rules; [rules_applied] is what the alpha rules
    returned. *)
Definition beta_rules (s : Solver) (frame : Frame) (rules_applied : bool)
    : Outcome :=
  let c := closure s in
  match (if negb (_should_use_sat_solver s frame)
         then _apply_disjunction_rule c frame else None) with
  | Some fr =>
      Continue (push (set_top s fr)
                     (set_formula (Frame_copy fr)
                                  (lhs_at c (choosenFormula fr))))
  | None =>
  match (if _has_eventually c then _apply_eventually_rule c frame
         else None) with
  | Some fr =>
      let fr :=
        with_eventualities fr
          (request (eventualities fr)
                   (fw_at c (lhs_at c (choosenFormula fr)))) in
      Continue (push (set_top s fr)
                     (set_formula (Frame_copy fr)
                                  (lhs_at c (choosenFormula fr))))
  | None =>
  match (if _has_until c then _apply_until_rule c frame else None) with
  | Some fr =>
      let fr :=
        with_eventualities fr
          (request (eventualities fr)
                   (fw_at c (rhs_at c (choosenFormula fr)))) in
      Continue (push (set_top s fr)
                     (set_formula (Frame_copy fr)
                                  (rhs_at c (choosenFormula fr))))
  | None =>
  match (if _has_not_until c then _apply_not_until_rule c frame
         else None) with
  | Some fr =>
      let fr := with_eventualities fr (request_not_until c fr) in
      Continue (push (set_top s fr)
                     (set_formula
                        (set_formula (Frame_copy fr)
                                     (lhs_at c (choosenFormula fr)))
                        (rhs_at c (choosenFormula fr))))
  | None =>
      if rules_applied then Continue (set_top s frame)
      else if _should_use_sat_solver s frame then sat_bridge s frame
      else after_rules s frame
  end end end end.

(** One round of the outer loop: from the label [loop], with a stack that
    is not empty, to the next jump to [loop] or to a [return]. *)
Definition round (s : Solver) : Outcome :=
  match _stack s with
  | [] => Continue s
  | frame :: _ =>
      let c := closure s in
      if none (formulas frame) then
        match chain frame with
        | Some k =>
            match frame_at (_stack s) k with
            | Some a =>
                Returned SATISFIABLE
                  (with_loop_state
                     (with_result (with_state s PAUSED) SATISFIABLE) (id a))
            | None => Fault
            end
        | None => Fault
        end
      else if _check_contradiction_rule c frame then
        Continue (_rollback_to_latest_choice s)
      else
        let (frame1, applied1) := _apply_conjunction_rule c frame in
        let (frame2, applied2) := _apply_always_rule c frame1 in
        beta_rules s frame2 (applied1 || applied2)
  end.

(** The loop [while (!_stack.empty())] and what follows it; [fuel] bounds
    the number of rounds. *)
Fixpoint run (fuel : nat) (s : Solver) : option (Result * Solver) :=
  match _stack s with
  | [] =>
      let s := with_state s DONE in
      let s := if Result_eqb (_result s) UNDEFINED
               then with_result s UNSATISFIABLE else s in
      Some (_result s, s)
  | _ :: _ =>
      match fuel with
      | O => None
      | S fuel' =>
          match round s with
          | Returned r s' => Some (r, s')
          | Continue s' => run fuel' s'
          | Fault => None
          end
      end
  end.

(** [Solver::solution]: the value returned and the solver afterwards, when
    the search ends within [fuel] rounds. *)
Definition solution (fuel : nat) (s : Solver) : option (Result * Solver) :=
  if State_eqb (_state s) RUNNING || State_eqb (_state s) DONE then
    Some (_result s, s)
  else
    let s := if State_eqb (_state s) PAUSED
             then _rollback_to_latest_choice s else s in
    run fuel (with_state s RUNNING).

(** ** [Solver::model] *)

Record Literal : Type := mkLiteral { atomic_formula : string; positive : bool }.

Definition Literal_eqb (x y : Literal) : bool :=
  String.eqb (atomic_formula x) (atomic_formula y)
  && Bool.eqb (positive x) (positive y).

Record Model : Type := mkModel {
  states : list (list Literal);
  loop_state : FrameID
}.

(** [state.insert(lit)] on a set of literals. *)
Definition insert (lit : Literal) (state : list Literal) : list Literal :=
  if existsb (Literal_eqb lit) state then state else state ++ [lit].

Definition atom_name (c : Closure) (j : FormulaID) : option string :=
  option_map snd (find (fun e => N.eqb (fst e) j) (_atom_set c)).

(** The literals a frame contributes. *)
Definition state_of (c : Closure) (frame : Frame) : list Literal :=
  fold_left
    (fun (state : list Literal) (j : N) =>
       if N.testbit (formulas frame) j then
         match atom_name c j with
         | Some name => insert (mkLiteral name true) state
         | None =>
             if N.testbit (negation (_bitset c)) j then
               match atom_name c (lhs_at c j) with
               | Some name => insert (mkLiteral name false) state
               | None => state
               end
             else state
         end
       else state)
    (positions (_number_of_formulas c)) [].

Definition top_name : string :=
  String (ascii_of_N 226) (String (ascii_of_N 138)
    (String (ascii_of_N 164) EmptyString)).

Definition model (s : Solver) : option Model :=
  if negb (State_eqb (_state s) PAUSED) then None
  else if Result_eqb (_result s) UNSATISFIABLE
          || Result_eqb (_result s) UNDEFINED then None
  else
    match _subformulas (closure s) with
    | [True_] => Some (mkModel [[mkLiteral top_name true]] 0)
    | _ =>
        let time_steps :=
          filter (fun frame => negb (FrameType_eqb (type frame) CHOICE
                                     || FrameType_eqb (type frame) SAT))
                 (rev (_stack s)) in
        Some (mkModel (removelast (map (state_of (closure s)) time_steps))
                      (_loop_state s))
    end.

End Engine.

(** The solver after [k] rounds of the outer loop, as long as the rounds
    jump back to [loop]. *)
Fixpoint rounds (solve : list Clause -> option (N -> bool))
    (draw : N -> N) (k : nat) (s : Solver) : Solver :=
  match k with
  | O => s
  | S k' =>
      match round solve draw s with
      | Continue s' => rounds solve draw k' s'
      | _ => s
      end
  end.

(** ** Worked inputs

    Inputs that are already in the simplifier's normal form, with the
    closure the generator produces for them (the subformulas, their
    simplified negations and the X-skins of the fixpoint operators).  The
    SAT bridge is switched off in all of them, so the propositional solver
    is never called. *)

Module Inputs.

Definition p : Formula := Atom "p".
Definition q : Formula := Atom "q".

(** On a formula in normal form the simplifier changes nothing. *)
Definition normal_form (f : Formula) : Formula := f.

Definition no_solver (cs : list Clause) : option (N -> bool) := None.

Fixpoint disjuncts (f : Formula) : N :=
  match f with
  | Disjunction l r => disjuncts l + disjuncts r
  | _ => 1
  end.

(** A constant: the closure is the formula itself. *)
Definition constant_closure (f : Formula) : list Formula := [f].

(** [G p]. *)
Definition always_p : Formula := Always p.
Definition always_p_closure (f : Formula) : list Formula :=
  [Always p; p; Negation p; Tomorrow (Always p);
   Eventually (Negation p); Tomorrow (Eventually (Negation p))].

(** [X p /\ G q]. *)
Definition next_p_and_always_q : Formula :=
  Conjunction (Tomorrow p) (Always q).
Definition next_p_and_always_q_closure (f : Formula) : list Formula :=
  [Conjunction (Tomorrow p) (Always q); Tomorrow p; p; Always q; q;
   Tomorrow (Always q); Negation p; Negation q; Tomorrow (Negation p);
   Eventually (Negation q); Tomorrow (Eventually (Negation q));
   Disjunction (Tomorrow (Negation p)) (Eventually (Negation q))].

(** [~(p U q)]. *)
Definition not_p_until_q : Formula := Negation (Until p q).
Definition not_p_until_q_closure (f : Formula) : list Formula :=
  [Negation (Until p q); Until p q; p; q; Negation p; Negation q;
   Tomorrow (Until p q); Tomorrow (Negation (Until p q))].

(** [G ~p /\ F p]. *)
Definition never_p_and_eventually_p : Formula :=
  Conjunction (Always (Negation p)) (Eventually p).
Definition never_p_and_eventually_p_closure (f : Formula) : list Formula :=
  [Conjunction (Always (Negation p)) (Eventually p); Always (Negation p);
   Negation p; p; Tomorrow (Always (Negation p)); Eventually p;
   Tomorrow (Eventually p);
   Disjunction (Eventually p) (Always (Negation p))].

(** A solver on one of the inputs above, without the SAT bridge. *)
Definition solver_on (closure_of : Formula -> list Formula)
    (formula : Formula) (maximum_depth : FrameID)
    (backtrack_probability : N) : Solver :=
  Solver_new declared_rank normal_form closure_of disjuncts formula
             maximum_depth backtrack_probability 0 100 false.

(** A generator that always draws the same number. *)
Definition constant_draw (k : N) (i : N) : N := k.

End Inputs.

(** ** The vocabulary of the statements *)

Definition is_negation (f : Formula) : bool :=
  match f with Negation _ => true | _ => false end.

Definition is_tomorrow (f : Formula) : bool :=
  match f with Tomorrow _ => true | _ => false end.

(** The order the comparator induces, strict and reflexive. *)
Definition precedes (type_rank : FormulaType -> N) (a b : Formula) : Prop :=
  compareFunc type_rank a b = true.

Definition not_after (type_rank : FormulaType -> N) (a b : Formula) : Prop :=
  compareFunc type_rank b a = false.

Definition all_core (l : list Formula) : Prop :=
  Forall (fun f => core_syntax f = true) l.

Definition transitive_up_to (type_rank : FormulaType -> N) (n : nat) : Prop :=
  forall a b c : Formula,
    (size a + size b + size c <= n)%nat ->
    compareFunc type_rank a b = true -> compareFunc type_rank b c = true ->
    compareFunc type_rank a c = true.

Definition total_up_to (type_rank : FormulaType -> N) (n : nat) : Prop :=
  forall a b : Formula,
    (size a + size b <= n)%nat ->
    core_syntax a = true -> core_syntax b = true -> a <> b ->
    compareFunc type_rank a b = true \/ compareFunc type_rank b a = true.

(** The nine kind bitsets by name, and the one in which
    [_add_formula_for_position] records a formula. *)
Inductive KindTag : Type :=
| K_atom | K_negation | K_tomorrow | K_always | K_eventually
| K_conjunction | K_disjunction | K_until | K_not_until.

Definition select (k : KindTag) (b : Bitsets) : Bitset :=
  match k with
  | K_atom => atom b
  | K_negation => negation b
  | K_tomorrow => tomorrow b
  | K_always => always b
  | K_eventually => eventually b
  | K_conjunction => conjunction b
  | K_disjunction => disjunction b
  | K_until => until b
  | K_not_until => not_until b
  end.

Definition tag_of (f : Formula) : option KindTag :=
  match f with
  | Atom _ => Some K_atom
  | Negation g => if isa TUntil g then Some K_not_until else Some K_negation
  | Tomorrow _ => Some K_tomorrow
  | Always _ => Some K_always
  | Eventually _ => Some K_eventually
  | Conjunction _ _ => Some K_conjunction
  | Disjunction _ _ => Some K_disjunction
  | Until _ _ => Some K_until
  | True_ | False_ | Iff _ _ | Then _ _ => None
  end.

(** The four branching rules, in the order [solution] tries them, and the
    table of their two alternatives as the specification gives it. *)
Inductive BetaKind : Type :=
| Beta_disjunction | Beta_eventually | Beta_until | Beta_not_until.

Definition beta_tag (k : BetaKind) : KindTag :=
  match k with
  | Beta_disjunction => K_disjunction
  | Beta_eventually => K_eventually
  | Beta_until => K_until
  | Beta_not_until => K_not_until
  end.

Definition kind_bitset (c : Closure) (k : BetaKind) : Bitset :=
  select (beta_tag k) (_bitset c).

(** The X-skin of the entry [i], in the words of the specification: the
    entry of the closure that is the next-time formula of the entry [i]. *)
Definition x_skin (c : Closure) (i : FormulaID) : option FormulaID :=
  match nth_error (_subformulas c) (N.to_nat i) with
  | Some f =>
      find (fun j =>
              Formula_eqb (vget True_ (_subformulas c) j) (Tomorrow f))
           (positions (vlength (_subformulas c)))
  | None => None
  end.

(** The entry [_rollback_to_latest_choice] takes for the skin of the entry
    [i]: [i+1] when that entry is flagged [tomorrow], [i+2] otherwise. *)
Definition rollback_skin (c : Closure) (i : FormulaID) : FormulaID :=
  if N.testbit (tomorrow (_bitset c)) (i + 1) then i + 1 else i + 2.

Definition first_alternative (c : Closure) (k : BetaKind) (i : FormulaID)
    : list FormulaID :=
  match k with
  | Beta_disjunction => [lhs_at c i]
  | Beta_eventually => [lhs_at c i]
  | Beta_until => [rhs_at c i]
  | Beta_not_until => [lhs_at c i; rhs_at c i]
  end.

Definition alternative_on_rollback (c : Closure) (k : BetaKind)
    (i : FormulaID) : option (list FormulaID) :=
  match k with
  | Beta_disjunction => Some [rhs_at c i]
  | Beta_eventually => Some [i + 1]
  | Beta_until => option_map (fun x => [lhs_at c i; x]) (x_skin c i)
  | Beta_not_until => option_map (fun x => [rhs_at c i; x]) (x_skin c i)
  end.

(** The entries [_rollback_to_latest_choice] adds to the child of a resumed
    CHOICE frame, branch by branch. *)
Definition added_on_rollback (c : Closure) (k : BetaKind) (i : FormulaID)
    : list FormulaID :=
  match k with
  | Beta_disjunction => [rhs_at c i]
  | Beta_eventually => [i + 1]
  | Beta_until => [lhs_at c i; rollback_skin c i]
  | Beta_not_until => [rhs_at c i; rollback_skin c i]
  end.

Definition add_formulas (b : Bitset) (l : list FormulaID) : Bitset :=
  fold_left N.setbit l b.

(** The bit a branching rule would pick on a frame. *)
Definition candidate (c : Closure) (k : BetaKind) (frame : Frame)
    : option FormulaID :=
  find_first (_number_of_formulas c)
    (N.land (N.land (formulas frame) (kind_bitset c k)) (to_process frame)).

(** The guard in front of each branching rule in [solution]. *)
Definition enabled (s : Solver) (k : BetaKind) (frame : Frame) : bool :=
  match k with
  | Beta_disjunction => negb (_should_use_sat_solver s frame)
  | Beta_eventually => _has_eventually (closure s)
  | Beta_until => _has_until (closure s)
  | Beta_not_until => _has_not_until (closure s)
  end.

Definition tried_before (k : BetaKind) : list BetaKind :=
  match k with
  | Beta_disjunction => []
  | Beta_eventually => [Beta_disjunction]
  | Beta_until => [Beta_disjunction; Beta_eventually]
  | Beta_not_until => [Beta_disjunction; Beta_eventually; Beta_until]
  end.

Definition silent (s : Solver) (frame : Frame) (k : BetaKind) : bool :=
  negb (enabled s k frame)
  || match candidate (closure s) k frame with
     | Some _ => false
     | None => true
     end.

(** The rule [k] is the one that fires on [frame], on the entry [i]. *)
Definition fires (s : Solver) (frame : Frame) (k : BetaKind) (i : FormulaID)
    : Prop :=
  enabled s k frame = true
  /\ candidate (closure s) k frame = Some i
  /\ forallb (silent s frame) (tried_before k) = true.

(** No entry of the closure has two branching kinds. *)
Definition exclusive_kinds (c : Closure) : Prop :=
  forall (i : FormulaID) (k k' : BetaKind),
    N.testbit (kind_bitset c k) i = true ->
    N.testbit (kind_bitset c k') i = true -> k = k'.

(** The test of the LOOP rule on one ancestor, as the code evaluates it,
    and its two halves as the specification words them. *)
Definition loop_closes (c : Closure) (frame ancestor : Frame) : bool :=
  is_subset_of (formulas frame) (formulas ancestor)
  && all_satisfied c frame ancestor.

Definition covered_by (frame ancestor : Frame) : Prop :=
  forall i, N.testbit (formulas frame) i = true ->
            N.testbit (formulas ancestor) i = true.

Definition promises_kept_since (frame ancestor : Frame) : Prop :=
  forall (i : nat) (ev : Eventuality),
    nth_error (eventualities frame) i = Some ev ->
    ev <> Unrequested ->
    exists k, ev = Satisfied k /\ id ancestor <= k.

(** The coin of OCCASIONAL LOOKBACK lets the detector run. *)
Definition lookback_runs (draw : N -> N) (s : Solver) : Prop :=
  N.modulo (draw (_mt s)) 101 <= _backtrack_probability (config s).

(** The frame the detector looks at (the top frame [frame0] once its
    promises are updated), the chain of its ancestors, and the solver at
    that point. *)
Definition detector_frame (s : Solver) (frame0 : Frame) : Frame :=
  _update_eventualities_satisfaction (closure s) frame0.

Definition detector_chain (s : Solver) (frame0 : Frame) : list Frame :=
  let stack := detector_frame s frame0 :: tl (_stack s) in
  chain_frames (List.length stack) stack (chain (detector_frame s frame0)).

Definition detector_solver (s : Solver) (frame0 : Frame) : Solver :=
  with_mt (set_top s (detector_frame s frame0)) (N.succ (_mt s)).

Definition same_formulas (frame a : Frame) : bool :=
  N.eqb (formulas frame) (formulas a).

(** How many of the two repetition pointers are set. *)
Definition pointers (r1 r2 : option Frame) : nat :=
  match r1, r2 with
  | Some _, Some _ => 2
  | Some _, None => 1
  | None, _ => 0
  end.

(** What a round leaves of the verdict: a return is SATISFIABLE and pauses,
    a jump back to [loop] keeps the verdict, the configuration and the
    closure. *)
Definition settled (s : Solver) (o : Outcome) : Prop :=
  match o with
  | Returned r s' =>
      r = SATISFIABLE /\ _state s' = PAUSED /\ _result s' = SATISFIABLE
      /\ _stack s' <> []
  | Continue s' =>
      _result s' = _result s /\ config s' = config s
      /\ closure s' = closure s
  | Fault => True
  end.



(** ** Worked runs *)

Module Runs.

Import Inputs.

(** The solver as [solution] has it when it enters the loop. *)
Definition running (s : Solver) : Solver := with_state s RUNNING.

Definition top (s : Solver) : Frame := hd (Frame_first 0 0 0 0) (_stack s).
Definition bottom (s : Solver) : Frame :=
  last (_stack s) (Frame_first 0 0 0 0).

(** [X p /\ G q] with the lookback always on: after five rounds the frame
    of time 2 is complete and the detector is about to run. *)
Definition before_loop : Solver :=
  rounds no_solver (constant_draw 0) 5
    (running (solver_on next_p_and_always_q_closure next_p_and_always_q
                        10 100)).

(** [G ~p /\ F p] with the lookback always on: after eleven rounds the frame
    of time 3 repeats the frames of times 2 and 1. *)
Definition before_rep : Solver :=
  rounds no_solver (constant_draw 0) 11
    (running (solver_on never_p_and_eventually_p_closure
                        never_p_and_eventually_p 10 100)).

(** [G ~p /\ F p] at the start, and its first frame after the alpha
    rules. *)
Definition branching : Solver :=
  running (solver_on never_p_and_eventually_p_closure
                     never_p_and_eventually_p 10 100).

Definition branching_frame : Frame :=
  fst (_apply_always_rule (closure branching)
         (fst (_apply_conjunction_rule (closure branching) (top branching)))).

(** [~(p U q)] at the start. *)
Definition not_until_start : Solver :=
  running (solver_on not_p_until_q_closure not_p_until_q 10 100).

(** [~(p U q)] as built, and after the first call of [solution]. *)
Definition not_until_solver : Solver :=
  solver_on not_p_until_q_closure not_p_until_q 10 100.

Definition not_until_paused : Solver :=
  match solution no_solver (constant_draw 0) 30 not_until_solver with
  | Some (_, s) => s
  | None => not_until_solver
  end.

(** [G p] with maximum depth 3 and lookback probability 0. *)
Definition always_p_solver : Solver :=
  solver_on always_p_closure always_p 3 0.



(** The two constants. *)
Definition true_solver : Solver := solver_on constant_closure True_ 10 100.
Definition false_solver : Solver := solver_on constant_closure False_ 10 100.

End Runs.

(** ** The shape of the stack *)

Definition is_step (f : Frame) : bool := FrameType_eqb (type f) STEP.

(** The nearest STEP frame of a stack, as a chain pointer, and the number of
    STEP frames in it. *)
Fixpoint anchor (stack : list Frame) : option N :=
  match stack with
  | [] => None
  | f :: rest => if is_step f then Some (vlength rest) else anchor rest
  end.

Fixpoint time_of (stack : list Frame) : N :=
  match stack with
  | [] => 0
  | f :: rest => if is_step f then N.succ (time_of rest) else time_of rest
  end.

(** A frame sits well on the frames below it: its chain is the nearest STEP
    frame below, its id counts the STEP frames below, and at time 0 it
    asserts something. *)
Definition placed (f : Frame) (below : list Frame) : Prop :=
  chain f = anchor below
  /\ id f = time_of below
  /\ (anchor below = None -> formulas f <> 0).

Fixpoint well_stacked (stack : list Frame) : Prop :=
  match stack with
  | [] => True
  | f :: below => placed f below /\ well_stacked below
  end.

(** A frame that has a child on it is a CHOICE, SAT or STEP frame. *)
Definition parked (f : Frame) : Prop := type f <> UNKNOWN.

(** The stack between two rounds: a fresh frame on parked ones. *)
Definition search_stack (stack : list Frame) : Prop :=
  well_stacked stack
  /\ match stack with
     | [] => True
     | top :: below => type top = UNKNOWN /\ Forall parked below
     end.

(** The second frame asserts at least what the first asserts, at the same
    place of the stack. *)
Definition extends (f g : Frame) : Prop :=
  chain g = chain f /\ id g = id f
  /\ (formulas f <> 0 -> formulas g <> 0).

(** What a round leaves of the shape of the stack; a round that follows a
    null chain pointer is a [Fault]. *)
Definition shaped (o : Outcome) : Prop :=
  match o with
  | Returned _ s' | Continue s' => search_stack (_stack s')
  | Fault => False
  end.

(** A model whose loop points at one of its own states. *)
Definition lasso (m : Model) : Prop := loop_state m < vlength (states m).

(** A frame [_rollback_to_latest_choice] stops at: a CHOICE frame whose
    second alternative is still to try, or a SAT frame whose solver has one
    more model. *)
Definition resumable (solve : list Clause -> option (N -> bool))
    (f : Frame) : bool :=
  FrameType_eqb (type f) CHOICE
  && negb (N.eqb (choosenFormula f) FormulaID_max)
  || FrameType_eqb (type f) SAT
     && match solve (clauses_of f) with Some _ => true | None => false end.

(** The kinds [_add_formula_for_position] records with two operands. *)
Definition binary (k : KindTag) : bool :=
  match k with
  | K_conjunction | K_disjunction | K_until | K_not_until => true
  | _ => false
  end.

(** The lookup [_atom_set.find(j)] on the pairs recorded so far. *)
Definition name_at (atoms : list (FormulaID * string)) (j : FormulaID)
    : option string :=
  option_map snd (find (fun e => N.eqb (fst e) j) atoms).

(** The literal the entry [j] of a frame contributes to its state. *)
Definition literal_of (c : Closure) (j : N) : option Literal :=
  match atom_name c j with
  | Some name => Some (mkLiteral name true)
  | None =>
      if N.testbit (negation (_bitset c)) j then
        match atom_name c (lhs_at c j) with
        | Some name => Some (mkLiteral name false)
        | None => None
        end
      else None
  end.

(** No frame of the stack has been handed to the propositional solver. *)
Definition sat_free (stack : list Frame) : Prop :=
  Forall (fun f => type f <> SAT) stack.

Definition keeps_sat_free (o : Outcome) : Prop :=
  match o with
  | Returned _ s' | Continue s' => sat_free (_stack s')
  | Fault => True
  end.

(** The entry [j] of the closure promises the entry [operand]: the operand
    of an eventually, the right operand of an until, either operand of a
    negated until, as [_initialize] collects them. *)
Definition promised (c : Closure) (j operand : FormulaID) : Prop :=
  N.testbit (eventually (_bitset c)) j = true /\ operand = lhs_at c j
  \/ N.testbit (until (_bitset c)) j = true /\ operand = rhs_at c j
  \/ N.testbit (not_until (_bitset c)) j = true
     /\ (operand = lhs_at c j \/ operand = rhs_at c j).

(** The generator returns, with a formula, the operands [_initialize] looks
    up for it. *)
Definition operand_closed (simplify : Formula -> Formula)
    (generated : list Formula) : Prop :=
  forall f g : Formula,
    In f generated ->
    fst (left_right simplify f) = Some g
    \/ snd (left_right simplify f) = Some g ->
    In g generated.

(** The literals the loop of the SAT bridge pushes on the blocking clause
    for one variable. *)
Definition blocking_literals (c : Closure) (value : N -> bool) (l : N)
    : list Lit :=
  if value l then [mkLit l true]
  else if negative_slot c l then [mkLit l false]
  else [].

(** Successive calls of [solution], each with its own bound on the number
    of rounds. *)
Fixpoint calls (solve : list Clause -> option (N -> bool)) (draw : N -> N)
    (fuels : list nat) (s : Solver) : option Solver :=
  match fuels with
  | [] => Some s
  | fuel :: rest =>
      match solution solve draw fuel s with
      | Some (_, s') => calls solve draw rest s'
      | None => None
      end
  end.

(** [G ~p /\ F p] after the round in which the eventually rule branches. *)
Definition after_choice : Solver :=
  rounds Inputs.no_solver (Inputs.constant_draw 0) 1 Runs.branching.

(** [G p] with the lookback always on, and the solver after the first call
    of [solution]. *)
Definition always_p_lookback : Solver :=
  Inputs.solver_on Inputs.always_p_closure Inputs.always_p 10 100.

Definition always_p_paused : Solver :=
  match solution Inputs.no_solver (Inputs.constant_draw 0) 30
                 always_p_lookback with
  | Some (_, s) => s
  | None => always_p_lookback
  end.

(** A propositional solver that makes every variable true. *)
Definition all_true (cs : list Clause) : option (N -> bool) :=
  Some (fun _ => true).

(** * Theorems *)

Import Inputs Runs.

(** ** Equality of formulas *)

Lemma Formula_eqb_refl (a : Formula) : Formula_eqb a a = true.
Proof.
  induction a; simpl; try reflexivity; try assumption;
    try (rewrite IHa1, IHa2; reflexivity).
  apply String.eqb_refl.
Qed.

Lemma Formula_eqb_eq (a b : Formula) : Formula_eqb a b = true <-> a = b.
Proof.
  split; [| intros ->; apply Formula_eqb_refl].
  revert b. induction a; intros b H; destruct b; simpl in H;
    try discriminate; try reflexivity;
    try (f_equal; apply IHa; exact H);
    try (apply andb_prop in H; destruct H as [H1 H2];
         f_equal; [apply IHa1 | apply IHa2]; assumption).
  f_equal. apply String.eqb_eq. exact H.
Qed.

Lemma Formula_eqb_neq (a b : Formula) : Formula_eqb a b = false <-> a <> b.
Proof.
  rewrite <- Formula_eqb_eq. destruct (Formula_eqb a b); split; congruence.
Qed.

Lemma Formula_eq_dec (a b : Formula) : {a = b} + {a <> b}.
Proof.
  destruct (Formula_eqb a b) eqn:E.
  - left. apply Formula_eqb_eq. exact E.
  - right. apply Formula_eqb_neq. exact E.
Qed.

(** ** The order on names *)

Lemma lexicographical_compare_irrefl (x : string) :
  lexicographical_compare x x = false.
Proof.
  induction x as [| c x IH]; simpl; [reflexivity |].
  rewrite N.ltb_irrefl. exact IH.
Qed.

Lemma lexicographical_compare_trans (x y z : string) :
  lexicographical_compare x y = true -> lexicographical_compare y z = true ->
  lexicographical_compare x z = true.
Proof.
  revert y z. induction x as [| c x IH]; intros [| d y] [| e z];
    simpl; try discriminate; try reflexivity.
  destruct (N.ltb_spec (N_of_ascii c) (N_of_ascii d)) as [Hcd | Hcd];
    destruct (N.ltb_spec (N_of_ascii d) (N_of_ascii e)) as [Hde | Hde];
    destruct (N.ltb_spec (N_of_ascii c) (N_of_ascii e)) as [Hce | Hce];
    try reflexivity; try lia;
    destruct (N.ltb_spec (N_of_ascii d) (N_of_ascii c)) as [Hdc | Hdc];
    destruct (N.ltb_spec (N_of_ascii e) (N_of_ascii d)) as [Hed | Hed];
    destruct (N.ltb_spec (N_of_ascii e) (N_of_ascii c)) as [Hec | Hec];
    try discriminate; try lia.
  apply IH.
Qed.

Lemma N_of_ascii_inj (c d : ascii) : N_of_ascii c = N_of_ascii d -> c = d.
Proof.
  intros H. rewrite <- (ascii_N_embedding c), <- (ascii_N_embedding d).
  rewrite H. reflexivity.
Qed.

Lemma lexicographical_compare_total (x y : string) :
  x <> y ->
  lexicographical_compare x y = true \/ lexicographical_compare y x = true.
Proof.
  revert y. induction x as [| c x IH]; intros [| d y] H; simpl.
  - congruence.
  - left; reflexivity.
  - right; reflexivity.
  - destruct (N.ltb_spec (N_of_ascii c) (N_of_ascii d)) as [Hcd | Hcd];
      [left; reflexivity |].
    destruct (N.ltb_spec (N_of_ascii d) (N_of_ascii c)) as [Hdc | Hdc];
      [right; reflexivity |].
    assert (c = d) by (apply N_of_ascii_inj; lia). subst d.
    apply IH. congruence.
Qed.

(** ** The equations of the comparator *)

Section Order.

Variable type_rank : FormulaType -> N.

Local Abbreviation cmp := (compareFunc type_rank).
Local Abbreviation rank f := (type_rank (type_of f)).

Lemma compare_negations (a b : Formula) :
  cmp (Negation a) (Negation b) = cmp a b.
Proof. reflexivity. Qed.

Lemma compare_negation_left (a b : Formula) :
  is_negation b = false ->
  cmp (Negation a) b = if Formula_eqb a b then false else cmp a b.
Proof. destruct b; intros H; try discriminate; reflexivity. Qed.

Lemma compare_negation_right (a b : Formula) :
  is_negation a = false ->
  cmp a (Negation b) = if Formula_eqb b a then true else cmp a b.
Proof. destruct a; intros H; try discriminate; reflexivity. Qed.

Lemma compare_tomorrows (a b : Formula) :
  cmp (Tomorrow a) (Tomorrow b) = cmp a b.
Proof. reflexivity. Qed.

Lemma compare_tomorrow_left (a b : Formula) :
  is_negation b = false -> is_tomorrow b = false ->
  cmp (Tomorrow a) b = if Formula_eqb a b then false else cmp a b.
Proof. destruct b; intros H1 H2; try discriminate; reflexivity. Qed.

Lemma compare_tomorrow_right (a b : Formula) :
  is_negation a = false -> is_tomorrow a = false ->
  cmp a (Tomorrow b) = if Formula_eqb b a then true else cmp a b.
Proof. destruct a; intros H1 H2; try discriminate; reflexivity. Qed.

Lemma compare_other_types (a b : Formula) :
  is_negation a = false -> is_tomorrow a = false ->
  is_negation b = false -> is_tomorrow b = false ->
  type_of a <> type_of b ->
  cmp a b = N.ltb (rank a) (rank b).
Proof.
  destruct a; intros H1 H2; try discriminate;
    destruct b; intros H3 H4 H5; try discriminate;
    try reflexivity; exfalso; apply H5; reflexivity.
Qed.

Lemma compare_irrefl (a : Formula) : cmp a a = false.
Proof.
  induction a; simpl; try apply N.ltb_irrefl; try assumption;
    try (rewrite Formula_eqb_refl; simpl; assumption).
  apply lexicographical_compare_irrefl.
Qed.

Lemma compare_neq (a b : Formula) : cmp a b = true -> a <> b.
Proof. intros H ->. rewrite compare_irrefl in H. discriminate. Qed.

End Order.

(** ** The comparator is transitive *)

Section Transitivity.

Variable type_rank : FormulaType -> N.

Local Abbreviation cmp := (compareFunc type_rank).
Local Abbreviation rank f := (type_rank (type_of f)).

(** The seven ways in which one of three formulas carries a transparent
    skin (a negation, or a next-time operator on formulas that are not
    negations): the comparator strips it and breaks ties in favour of the
    formula without the skin. *)
Section Skin.

Variable skin : Formula -> Formula.
Variable has_skin : Formula -> bool.
Variable eligible : Formula -> Prop.

Hypothesis size_skin : forall a, size (skin a) = S (size a).
Hypothesis has_skin_view :
  forall f, (exists g, f = skin g) \/ has_skin f = false.
Hypothesis both :
  forall a b, cmp (skin a) (skin b) = cmp a b.
Hypothesis left_only :
  forall a b, eligible b -> has_skin b = false ->
    cmp (skin a) b = if Formula_eqb a b then false else cmp a b.
Hypothesis right_only :
  forall a b, eligible a -> has_skin a = false ->
    cmp a (skin b) = if Formula_eqb b a then true else cmp a b.

Lemma skin_transitive (n : nat) :
  transitive_up_to type_rank n ->
  (forall a b c : Formula,
      has_skin a = false -> has_skin b = false -> has_skin c = false ->
      eligible a -> eligible b -> eligible c ->
      (size a + size b + size c <= S n)%nat ->
      cmp a b = true -> cmp b c = true -> cmp a c = true) ->
  forall a b c : Formula,
    eligible a -> eligible b -> eligible c ->
    (size a + size b + size c <= S n)%nat ->
    cmp a b = true -> cmp b c = true -> cmp a c = true.
Proof.
  intros IH core a b c Ea Eb Ec Hsize Hab Hbc.
  destruct (has_skin_view a) as [[a' ->] | Ha];
    destruct (has_skin_view b) as [[b' ->] | Hb];
    destruct (has_skin_view c) as [[c' ->] | Hc];
    rewrite ?size_skin in Hsize.
  - rewrite both in *. apply (IH a' b' c'); [lia | assumption ..].
  - rewrite both in Hab. rewrite left_only in Hbc |- * by assumption.
    destruct (Formula_eqb b' c); [discriminate |].
    assert (Hac : cmp a' c = true) by (apply (IH a' b' c); [lia | auto ..]).
    rewrite (proj2 (Formula_eqb_neq a' c) (compare_neq _ _ _ Hac)).
    exact Hac.
  - rewrite both. rewrite left_only in Hab by assumption.
    rewrite right_only in Hbc by assumption.
    destruct (Formula_eqb a' b); [discriminate |].
    destruct (Formula_eqb c' b) eqn:E.
    + apply Formula_eqb_eq in E. subst c'. exact Hab.
    + apply (IH a' b c'); [lia | assumption ..].
  - rewrite left_only in Hab |- * by assumption.
    destruct (Formula_eqb a' b); [discriminate |].
    assert (Hac : cmp a' c = true) by (apply (IH a' b c); [lia | auto ..]).
    rewrite (proj2 (Formula_eqb_neq a' c) (compare_neq _ _ _ Hac)).
    exact Hac.
  - rewrite both in Hbc. rewrite right_only in Hab |- * by assumption.
    destruct (Formula_eqb c' a) eqn:Eca; [reflexivity |].
    destruct (Formula_eqb b' a) eqn:E.
    + apply Formula_eqb_eq in E. subst b'. exact Hbc.
    + apply (IH a b' c'); [lia | assumption ..].
  - rewrite right_only in Hab by assumption.
    rewrite left_only in Hbc by assumption.
    destruct (Formula_eqb b' c); [discriminate |].
    destruct (Formula_eqb b' a) eqn:E.
    + apply Formula_eqb_eq in E. subst b'. exact Hbc.
    + apply (IH a b' c); [lia | assumption ..].
  - rewrite right_only in Hbc |- * by assumption.
    destruct (Formula_eqb c' a) eqn:Eca; [reflexivity |].
    destruct (Formula_eqb c' b) eqn:E.
    + apply Formula_eqb_eq in E. subst c'. exact Hab.
    + apply (IH a b c'); [lia | assumption ..].
  - apply (core a b c); assumption.
Qed.

End Skin.

Lemma negation_view (f : Formula) :
  (exists g, f = Negation g) \/ is_negation f = false.
Proof. destruct f; eauto. Qed.

Lemma tomorrow_view (f : Formula) :
  (exists g, f = Tomorrow g) \/ is_tomorrow f = false.
Proof. destruct f; eauto. Qed.

Lemma FormulaType_eq_dec (s t : FormulaType) : {s = t} + {s <> t}.
Proof. decide equality. Qed.

Lemma pair_transitive (n : nat) (l1 r1 l2 r2 l3 r3 : Formula) :
  transitive_up_to type_rank n ->
  (size l1 + size l2 + size l3 <= n)%nat ->
  (size r1 + size r2 + size r3 <= n)%nat ->
  (if negb (Formula_eqb l1 l2) then cmp l1 l2 else cmp r1 r2) = true ->
  (if negb (Formula_eqb l2 l3) then cmp l2 l3 else cmp r2 r3) = true ->
  (if negb (Formula_eqb l1 l3) then cmp l1 l3 else cmp r1 r3) = true.
Proof.
  intros IH Hl Hr H12 H23.
  destruct (Formula_eqb l1 l2) eqn:E12; destruct (Formula_eqb l2 l3) eqn:E23;
    simpl in H12, H23;
    try (apply Formula_eqb_eq in E12; subst l2);
    try (apply Formula_eqb_eq in E23; subst l3).
  - rewrite Formula_eqb_refl. simpl. apply (IH r1 r2 r3); assumption.
  - rewrite E23. simpl. exact H23.
  - rewrite E12. simpl. exact H12.
  - assert (H13 : cmp l1 l3 = true) by (apply (IH l1 l2 l3); assumption).
    rewrite (proj2 (Formula_eqb_neq l1 l3) (compare_neq _ _ _ H13)).
    simpl. exact H13.
Qed.

Lemma core_transitive (n : nat) :
  transitive_up_to type_rank n ->
  forall a b c : Formula,
    is_tomorrow a = false -> is_tomorrow b = false -> is_tomorrow c = false ->
    is_negation a = false -> is_negation b = false -> is_negation c = false ->
    (size a + size b + size c <= S n)%nat ->
    cmp a b = true -> cmp b c = true -> cmp a c = true.
Proof.
  intros IH a b c Ta Tb Tc Na Nb Nc Hsize Hab Hbc.
  destruct (FormulaType_eq_dec (type_of a) (type_of b)) as [Eab | Dab];
    destruct (FormulaType_eq_dec (type_of b) (type_of c)) as [Ebc | Dbc].
  - destruct a; try discriminate; destruct b; try discriminate;
      destruct c; try discriminate; simpl in Hab, Hbc, Hsize |- *;
      try (rewrite N.ltb_irrefl in Hab; discriminate).
    + apply (lexicographical_compare_trans _ _ _ Hab Hbc).
    + apply (IH a b c); [lia | assumption ..].
    + apply (IH a b c); [lia | assumption ..].
    + apply (pair_transitive n a1 a2 b1 b2 c1 c2); auto; lia.
    + apply (pair_transitive n a1 a2 b1 b2 c1 c2); auto; lia.
    + apply (pair_transitive n a1 a2 b1 b2 c1 c2); auto; lia.
  - rewrite compare_other_types in Hbc |- * by congruence.
    rewrite Eab. exact Hbc.
  - rewrite compare_other_types in Hab |- * by congruence.
    rewrite <- Ebc. exact Hab.
  - rewrite compare_other_types in Hab, Hbc by assumption.
    apply N.ltb_lt in Hab, Hbc.
    assert (Dac : type_of a <> type_of c).
    { intros E. rewrite E in Hab. lia. }
    rewrite compare_other_types by assumption.
    apply N.ltb_lt. lia.
Qed.

Lemma compare_transitive_up_to (n : nat) : transitive_up_to type_rank n.
Proof.
  induction n as [| n IH].
  - intros a b c Hsize. destruct a; simpl in Hsize; lia.
  - intros a b c Hsize.
    apply (skin_transitive Negation is_negation (fun _ => True))
      with (n := n); auto.
    + apply negation_view.
    + intros; apply compare_negation_left; assumption.
    + intros; apply compare_negation_right; assumption.
    + clear a b c Hsize. intros a b c Na Nb Nc _ _ _ Hsize.
      apply (skin_transitive Tomorrow is_tomorrow
               (fun f => is_negation f = false) ) with (n := n); auto.
      * apply tomorrow_view.
      * intros; apply compare_tomorrow_left; assumption.
      * intros; apply compare_tomorrow_right; assumption.
      * intros; apply (core_transitive n IH a0 b0 c0); assumption.
Qed.

Theorem compare_trans (a b c : Formula) :
  cmp a b = true -> cmp b c = true -> cmp a c = true.
Proof.
  apply (compare_transitive_up_to (size a + size b + size c)). lia.
Qed.

Lemma compare_asym (a b : Formula) : cmp a b = true -> cmp b a = false.
Proof.
  intros H. destruct (cmp b a) eqn:E; [| reflexivity].
  pose proof (compare_trans _ _ _ H E) as Haa.
  rewrite compare_irrefl in Haa. discriminate.
Qed.

End Transitivity.

(** ** The comparator is total on the core syntax *)

Section Totality.

Variable type_rank : FormulaType -> N.
Hypothesis type_rank_injective :
  forall s t : FormulaType, type_rank s = type_rank t -> s = t.

Local Abbreviation cmp := (compareFunc type_rank).

Section Skin.

Variable skin : Formula -> Formula.
Variable has_skin : Formula -> bool.
Variable eligible : Formula -> Prop.

Hypothesis size_skin : forall a, size (skin a) = S (size a).
Hypothesis core_skin : forall a, core_syntax (skin a) = core_syntax a.
Hypothesis has_skin_view :
  forall f, (exists g, f = skin g) \/ has_skin f = false.
Hypothesis both :
  forall a b, cmp (skin a) (skin b) = cmp a b.
Hypothesis left_only :
  forall a b, eligible b -> has_skin b = false ->
    cmp (skin a) b = if Formula_eqb a b then false else cmp a b.
Hypothesis right_only :
  forall a b, eligible a -> has_skin a = false ->
    cmp a (skin b) = if Formula_eqb b a then true else cmp a b.

Lemma skin_total (n : nat) :
  total_up_to type_rank n ->
  (forall a b : Formula,
      has_skin a = false -> has_skin b = false ->
      eligible a -> eligible b ->
      (size a + size b <= S n)%nat ->
      core_syntax a = true -> core_syntax b = true -> a <> b ->
      cmp a b = true \/ cmp b a = true) ->
  forall a b : Formula,
    eligible a -> eligible b ->
    (size a + size b <= S n)%nat ->
    core_syntax a = true -> core_syntax b = true -> a <> b ->
    cmp a b = true \/ cmp b a = true.
Proof.
  intros IH core a b Ea Eb Hsize Ca Cb Hne.
  destruct (has_skin_view a) as [[a' ->] | Ha];
    destruct (has_skin_view b) as [[b' ->] | Hb];
    rewrite ?size_skin in Hsize; rewrite ?core_skin in *.
  - rewrite !both. apply IH; [lia | assumption .. |]. congruence.
  - rewrite left_only, right_only by assumption.
    destruct (Formula_eqb a' b) eqn:E; [right; reflexivity |].
    apply IH; [lia | assumption .. |]. apply Formula_eqb_neq. exact E.
  - rewrite left_only, right_only by assumption.
    destruct (Formula_eqb b' a) eqn:E; [left; reflexivity |].
    apply IH; [lia | assumption .. |].
    apply Formula_eqb_neq in E. congruence.
  - apply core; assumption.
Qed.

End Skin.

Lemma pair_total (n : nat) (l1 r1 l2 r2 : Formula) :
  total_up_to type_rank n ->
  (size l1 + size l2 <= n)%nat -> (size r1 + size r2 <= n)%nat ->
  core_syntax l1 && core_syntax r1 = true ->
  core_syntax l2 && core_syntax r2 = true ->
  (l1 <> l2 \/ r1 <> r2) ->
  (if negb (Formula_eqb l1 l2) then cmp l1 l2 else cmp r1 r2) = true
  \/ (if negb (Formula_eqb l2 l1) then cmp l2 l1 else cmp r2 r1) = true.
Proof.
  intros IH Hl Hr C1 C2 Hne.
  apply andb_prop in C1, C2. destruct C1 as [Cl1 Cr1], C2 as [Cl2 Cr2].
  destruct (Formula_eqb l1 l2) eqn:E.
  - apply Formula_eqb_eq in E. subst l2. rewrite Formula_eqb_refl. simpl.
    apply IH; try assumption. destruct Hne; congruence.
  - apply Formula_eqb_neq in E.
    rewrite (proj2 (Formula_eqb_neq l2 l1)) by congruence. simpl.
    apply IH; assumption.
Qed.

Lemma core_total (n : nat) :
  total_up_to type_rank n ->
  forall a b : Formula,
    is_tomorrow a = false -> is_tomorrow b = false ->
    is_negation a = false -> is_negation b = false ->
    (size a + size b <= S n)%nat ->
    core_syntax a = true -> core_syntax b = true -> a <> b ->
    cmp a b = true \/ cmp b a = true.
Proof.
  intros IH a b Ta Tb Na Nb Hsize Ca Cb Hne.
  destruct (FormulaType_eq_dec (type_of a) (type_of b)) as [E | D].
  - destruct a; try discriminate; destruct b; try discriminate;
      simpl in Hsize, Ca, Cb |- *; try congruence.
    + apply lexicographical_compare_total. congruence.
    + apply IH; [lia | assumption .. |]. congruence.
    + apply IH; [lia | assumption .. |]. congruence.
    + apply (pair_total n); auto; try lia.
      destruct (Formula_eq_dec a1 b1); [right | left]; congruence.
    + apply (pair_total n); auto; try lia.
      destruct (Formula_eq_dec a1 b1); [right | left]; congruence.
    + apply (pair_total n); auto; try lia.
      destruct (Formula_eq_dec a1 b1); [right | left]; congruence.
  - rewrite !compare_other_types by congruence.
    assert (type_rank (type_of a) <> type_rank (type_of b))
      by (intros E; apply D, type_rank_injective, E).
    destruct (N.ltb_spec (type_rank (type_of a)) (type_rank (type_of b)));
      [left; reflexivity | right; apply N.ltb_lt; lia].
Qed.

Lemma compare_total_up_to (n : nat) : total_up_to type_rank n.
Proof.
  induction n as [| n IH].
  - intros a b Hsize. destruct a; simpl in Hsize; lia.
  - intros a b Hsize.
    apply (skin_total Negation is_negation (fun _ => True)
             (fun _ => eq_refl) (fun _ => eq_refl)
             negation_view (compare_negations type_rank)
             (fun x y _ H => compare_negation_left type_rank x y H)
             (fun x y _ H => compare_negation_right type_rank x y H)
             n IH); auto.
    clear a b Hsize. intros a b Na Nb _ _ Hsize.
    apply (skin_total Tomorrow is_tomorrow (fun f => is_negation f = false)
             (fun _ => eq_refl) (fun _ => eq_refl)
             tomorrow_view (compare_tomorrows type_rank)
             (compare_tomorrow_left type_rank)
             (compare_tomorrow_right type_rank)
             n IH); auto.
    intros; apply (core_total n IH); assumption.
Qed.

Theorem compare_total (a b : Formula) :
  core_syntax a = true -> core_syntax b = true -> a <> b ->
  cmp a b = true \/ cmp b a = true.
Proof. apply (compare_total_up_to (size a + size b)). lia. Qed.

End Totality.

(** ** Sorting the closure *)

Section Sorting.

Variable type_rank : FormulaType -> N.
Hypothesis type_rank_injective :
  forall s t : FormulaType, type_rank s = type_rank t -> s = t.

Local Abbreviation cmp := (compareFunc type_rank).

Lemma not_above_trans (a b c : Formula) :
  core_syntax a = true -> core_syntax b = true ->
  not_after type_rank a b -> not_after type_rank b c -> not_after type_rank a c.
Proof.
  unfold not_after. intros Ca Cb Hab Hbc.
  destruct (cmp c a) eqn:Hca; [| reflexivity].
  destruct (Formula_eq_dec a b) as [-> | Hne]; [congruence |].
  destruct (compare_total type_rank type_rank_injective a b Ca Cb Hne)
    as [H | H]; [| congruence].
  rewrite (compare_trans type_rank c a b Hca H) in Hbc. discriminate.
Qed.

Lemma below_of_not_above (a b : Formula) :
  core_syntax a = true -> core_syntax b = true ->
  not_after type_rank a b -> a <> b -> precedes type_rank a b.
Proof.
  unfold not_after, precedes. intros Ca Cb H Hne.
  destruct (compare_total type_rank type_rank_injective a b Ca Cb Hne);
    congruence.
Qed.

Lemma sort_insert_In (x y : Formula) (l : list Formula) :
  In y (sort_insert type_rank x l) <-> y = x \/ In y l.
Proof.
  induction l as [| h t IH]; simpl.
  - intuition.
  - destruct (cmp x h); simpl; [intuition |]. rewrite IH. intuition.
Qed.

Lemma sort_In (y : Formula) (l : list Formula) :
  In y (sort type_rank l) <-> In y l.
Proof.
  induction l as [| x t IH]; simpl; [reflexivity |].
  rewrite sort_insert_In, IH. intuition.
Qed.

Lemma sort_insert_sorted (x : Formula) (l : list Formula) :
  core_syntax x = true -> all_core l ->
  StronglySorted (not_after type_rank) l ->
  StronglySorted (not_after type_rank) (sort_insert type_rank x l).
Proof.
  intros Cx Cl Hs. induction Hs as [| h t Ht IH Hh]; simpl.
  - constructor; constructor.
  - inversion Cl as [| ? ? Ch Ct]; subst.
    destruct (cmp x h) eqn:E.
    + constructor; [constructor; assumption |].
      assert (Hxh : not_after type_rank x h)
        by (apply (compare_asym type_rank); exact E).
      constructor; [exact Hxh |].
      rewrite Forall_forall in *. intros y Hy.
      apply (not_above_trans x h y); auto.
    + constructor; [apply IH; exact Ct |].
      rewrite Forall_forall in *. intros y Hy.
      apply sort_insert_In in Hy. destruct Hy as [-> | Hy]; [exact E |].
      apply Hh. exact Hy.
Qed.

Lemma sort_core (l : list Formula) : all_core l -> all_core (sort type_rank l).
Proof.
  unfold all_core. rewrite !Forall_forall. intros H y Hy.
  apply H. apply sort_In. exact Hy.
Qed.

Lemma sort_sorted (l : list Formula) :
  all_core l -> StronglySorted (not_after type_rank) (sort type_rank l).
Proof.
  induction l as [| x t IH]; intros Hc; simpl; [constructor |].
  inversion Hc; subst.
  apply sort_insert_sorted; [assumption | apply sort_core; assumption |].
  apply IH. assumption.
Qed.

Lemma unique_In (y : Formula) (l : list Formula) :
  In y (unique l) <-> In y l.
Proof.
  induction l as [| x t IH]; [reflexivity |].
  destruct t as [| z t'].
  - reflexivity.
  - change (unique (x :: z :: t'))
      with (if Formula_eqb x z then unique (z :: t')
            else x :: unique (z :: t')).
    destruct (Formula_eqb x z) eqn:E.
    + apply Formula_eqb_eq in E. subst z. rewrite IH. simpl. intuition.
    + simpl In at 1. rewrite IH. simpl. intuition.
Qed.

Lemma unique_sorted (l : list Formula) :
  all_core l -> StronglySorted (not_after type_rank) l ->
  StronglySorted (precedes type_rank) (unique l).
Proof.
  intros Hc Hs. induction Hs as [| x t Ht IH Hx]; [constructor |].
  inversion Hc as [| ? ? Cx Ct]; subst. specialize (IH Ct).
  destruct t as [| z t'].
  - constructor; constructor.
  - change (unique (x :: z :: t'))
      with (if Formula_eqb x z then unique (z :: t')
            else x :: unique (z :: t')).
    destruct (Formula_eqb x z) eqn:E; [exact IH |].
    apply Formula_eqb_neq in E.
    constructor; [exact IH |].
    rewrite Forall_forall in *. intros y Hy.
    apply (proj1 (unique_In _ _)) in Hy.
    assert (Cy : core_syntax y = true) by (apply Ct; exact Hy).
    apply below_of_not_above; auto.
    intros <-.
    inversion Ht as [| ? ? _ Hz]; subst. rewrite Forall_forall in Hz.
    destruct Hy as [-> | Hy]; [congruence |].
    assert (Hzx : not_after type_rank z x) by (apply Hz; exact Hy).
    assert (Hxz : not_after type_rank x z) by (apply Hx; left; reflexivity).
    assert (Cz : core_syntax z = true) by (apply Ct; left; reflexivity).
    unfold not_after in *.
    destruct (compare_total type_rank type_rank_injective x z Cx Cz E);
      congruence.
Qed.

(** The closure [_initialize] works on: sorted and without duplicates. *)
Lemma closure_sorted (generated : list Formula) :
  all_core generated ->
  StronglySorted (precedes type_rank) (unique (sort type_rank generated)).
Proof.
  intros H. apply unique_sorted; [apply sort_core | apply sort_sorted];
    exact H.
Qed.

Lemma closure_In (generated : list Formula) (f : Formula) :
  In f (unique (sort type_rank generated)) <-> In f generated.
Proof. rewrite unique_In. apply sort_In. Qed.

(** ** Positions in a sorted closure *)

Lemma sorted_app (l1 l2 : list Formula) :
  StronglySorted (precedes type_rank) (l1 ++ l2) ->
  StronglySorted (precedes type_rank) l1 /\ StronglySorted (precedes type_rank) l2
  /\ (forall x y, In x l1 -> In y l2 -> precedes type_rank x y).
Proof.
  induction l1 as [| h t IH]; simpl; intros H.
  - repeat split; [constructor | exact H | contradiction].
  - inversion H as [| ? ? Ht Hh]; subst.
    destruct (IH Ht) as (S1 & S2 & Hcross).
    rewrite Forall_forall in Hh.
    repeat split.
    + constructor; [exact S1 |]. rewrite Forall_forall. intros y Hy.
      apply Hh. apply in_or_app. left. exact Hy.
    + exact S2.
    + intros x y [<- | Hx] Hy; [| apply Hcross; assumption].
      apply Hh. apply in_or_app. right. exact Hy.
Qed.

Lemma lower_bound_finds (l : list Formula) (x : Formula) :
  StronglySorted (precedes type_rank) l -> In x l ->
  nth_error l (N.to_nat (lower_bound type_rank l x)) = Some x.
Proof.
  intros Hs. induction Hs as [| h t Ht IH Hh]; intros Hin; [contradiction |].
  simpl. destruct (cmp h x) eqn:E.
  - rewrite N2Nat.inj_succ. simpl. apply IH.
    destruct Hin as [-> | Hin]; [| exact Hin].
    rewrite compare_irrefl in E. discriminate.
  - destruct Hin as [-> | Hin]; [reflexivity |].
    rewrite Forall_forall in Hh. specialize (Hh x Hin).
    unfold precedes in Hh. congruence.
Qed.

Lemma nth_error_sorted_inj (l : list Formula) (i j : nat) (x : Formula) :
  StronglySorted (precedes type_rank) l ->
  nth_error l i = Some x -> nth_error l j = Some x -> i = j.
Proof.
  intros Hs. revert i j. induction Hs as [| h t Ht IH Hh]; intros i j Hi Hj.
  - destruct i; discriminate.
  - rewrite Forall_forall in Hh.
    destruct i as [| i], j as [| j]; simpl in Hi, Hj.
    + reflexivity.
    + injection Hi as ->. apply nth_error_In in Hj.
      specialize (Hh x Hj). unfold precedes in Hh.
      rewrite compare_irrefl in Hh. discriminate.
    + injection Hj as ->. apply nth_error_In in Hi.
      specialize (Hh x Hi). unfold precedes in Hh.
      rewrite compare_irrefl in Hh. discriminate.
    + f_equal. apply IH; assumption.
Qed.

(** ** A formula and its negation *)

Lemma negation_above (f : Formula) : cmp f (Negation f) = true.
Proof.
  induction f; simpl; rewrite ?Formula_eqb_refl, ?String.eqb_refl;
    try reflexivity.
  exact IHf.
Qed.

Lemma nothing_between (f g : Formula) :
  cmp f g = true -> cmp g (Negation f) = true -> False.
Proof.
  revert g. induction f; intros g Hfg Hgn;
    destruct (negation_view g) as [[g' ->] | Hg];
    try (rewrite compare_negations in Hgn;
         rewrite compare_negation_right in Hfg by reflexivity;
         destruct (Formula_eqb g' _) eqn:E;
         [apply Formula_eqb_eq in E; subst g';
          rewrite compare_irrefl in Hgn; discriminate
         | rewrite (compare_asym type_rank _ _ Hfg) in Hgn; discriminate]);
    try (rewrite compare_negation_right in Hgn by exact Hg;
         match type of Hgn with
         | (if Formula_eqb ?a ?b then _ else _) = _ =>
             destruct (Formula_eqb a b) eqn:E
         end;
         [apply Formula_eqb_eq in E; subst g;
          rewrite compare_irrefl in Hfg; discriminate
         | rewrite (compare_asym type_rank _ _ Hfg) in Hgn; discriminate]).
  rewrite !compare_negations in *. apply (IHf g'); assumption.
Qed.

Theorem negation_follows_negand (l : list Formula) (f : Formula) (i : nat) :
  StronglySorted (precedes type_rank) l ->
  nth_error l i = Some (Negation f) -> In f l ->
  exists j : nat, i = S j /\ nth_error l j = Some f.
Proof.
  intros Hs Hi Hin.
  destruct (nth_error_split l i Hi) as (l1 & l2 & -> & Hlen).
  destruct (sorted_app _ _ Hs) as (S1 & S2 & Hcross).
  inversion S2 as [| ? ? _ Hafter]; subst. rewrite Forall_forall in Hafter.
  assert (Hin1 : In f l1).
  { apply in_app_or in Hin. destruct Hin as [H | [H | H]].
    - exact H.
    - pose proof (negation_above f) as Hn. rewrite <- H in Hn at 1.
      rewrite compare_irrefl in Hn. discriminate.
    - specialize (Hafter f H). unfold precedes in Hafter.
      rewrite (compare_asym type_rank _ _ (negation_above f)) in Hafter.
      discriminate. }
  destruct (in_split f l1 Hin1) as (l1a & l1b & ->).
  destruct l1b as [| g l1b].
  - exists (List.length l1a). split.
    + rewrite length_app. simpl. lia.
    + rewrite <- app_assoc. simpl. rewrite nth_error_app2 by lia.
      rewrite Nat.sub_diag. reflexivity.
  - exfalso. apply (nothing_between f g).
    + destruct (sorted_app _ _ S1) as (_ & S1b & _).
      inversion S1b as [| ? ? _ Hf]; subst. rewrite Forall_forall in Hf.
      apply Hf. left. reflexivity.
    + apply Hcross; [| left; reflexivity].
      apply in_or_app. right. right. left. reflexivity.
Qed.

End Sorting.

(** ** Vectors *)

Lemma vset_nat_length {A : Type} (v : list A) (i : nat) (x : A) :
  List.length (vset_nat v i x) = List.length v.
Proof.
  revert i. induction v as [| h t IH]; intros [| i]; simpl; auto.
Qed.

Lemma vset_nat_same {A : Type} (d : A) (v : list A) (i : nat) (x : A) :
  (i < List.length v)%nat -> nth i (vset_nat v i x) d = x.
Proof.
  revert i. induction v as [| h t IH]; intros [| i] H; simpl in *;
    try lia; [reflexivity |]. apply IH. lia.
Qed.

Lemma vset_nat_other {A : Type} (d : A) (v : list A) (i j : nat) (x : A) :
  i <> j -> nth j (vset_nat v i x) d = nth j v d.
Proof.
  revert i j. induction v as [| h t IH]; intros [| i] [| j] H; simpl;
    try reflexivity; try lia. apply IH. lia.
Qed.

Lemma vget_vset_same {A : Type} (d : A) (v : list A) (i : N) (x : A) :
  (N.to_nat i < List.length v)%nat -> vget d (vset v i x) i = x.
Proof. apply vset_nat_same. Qed.

Lemma vget_vset_other {A : Type} (d : A) (v : list A) (i j : N) (x : A) :
  i <> j -> vget d (vset v i x) j = vget d v j.
Proof. intros H. apply vset_nat_other. lia. Qed.

Lemma vset_length {A : Type} (v : list A) (i : N) (x : A) :
  List.length (vset v i x) = List.length v.
Proof. apply vset_nat_length. Qed.

(** ** The first loop of [_initialize] *)

Section Tables.

Variable type_rank : FormulaType -> N.
Variable simplify : Formula -> Formula.
Variable subformulas : list Formula.
Variable formula : Formula.

Local Abbreviation entry :=
  (build_entry type_rank simplify subformulas formula).
Local Abbreviation add := _add_formula_for_position.

Lemma KindTag_eq_dec (a b : KindTag) : {a = b} + {a <> b}.
Proof. decide equality. Qed.

Lemma add_select_same (t : Building) (f : Formula) (p l r : FormulaID)
    (k : KindTag) :
  tag_of f = Some k ->
  select k (b_bitset (add t f p l r)) = N.setbit (select k (b_bitset t)) p.
Proof.
  destruct f; simpl; try discriminate;
    try (intros H; injection H as <-; reflexivity).
  destruct (isa TUntil f); intros H; injection H as <-; reflexivity.
Qed.

Lemma add_select_other (t : Building) (f : Formula) (p l r : FormulaID)
    (k : KindTag) :
  tag_of f <> Some k ->
  select k (b_bitset (add t f p l r)) = select k (b_bitset t).
Proof.
  destruct f; simpl; try reflexivity;
    try (destruct k; simpl; intros H; try reflexivity; congruence).
  destruct (isa TUntil f); destruct k; simpl; intros H;
    try reflexivity; congruence.
Qed.

Lemma add_lhs_length (t : Building) (f : Formula) (p l r : FormulaID) :
  List.length (b_lhs (add t f p l r)) = List.length (b_lhs t).
Proof.
  destruct f; simpl; try reflexivity; try apply vset_length.
  destruct (isa TUntil f); simpl; apply vset_length.
Qed.

Lemma add_lhs_other (t : Building) (f : Formula) (p l r i : FormulaID) :
  p <> i ->
  vget FormulaID_max (b_lhs (add t f p l r)) i
  = vget FormulaID_max (b_lhs t) i.
Proof.
  intros H. destruct f; simpl; try reflexivity;
    try (apply vget_vset_other; exact H).
  destruct (isa TUntil f); simpl; apply vget_vset_other; exact H.
Qed.

Lemma add_lhs_same (t : Building) (f : Formula) (p l r : FormulaID)
    (k : KindTag) :
  tag_of f = Some k -> k <> K_atom ->
  (N.to_nat p < List.length (b_lhs t))%nat ->
  vget FormulaID_max (b_lhs (add t f p l r)) p = l.
Proof.
  intros Hk Ha Hp. destruct f; simpl in *; try discriminate;
    try (apply vget_vset_same; exact Hp).
  - congruence.
  - destruct (isa TUntil f); simpl; apply vget_vset_same; exact Hp.
Qed.

Lemma entry_unfold (t : Building) (k : FormulaID) (f : Formula) :
  exists t1 : Building,
    b_bitset t1 = b_bitset t /\ b_lhs t1 = b_lhs t
    /\ entry (t, k) f
       = (add t1 f k (position_of type_rank subformulas
                        (fst (left_right simplify f)))
              (position_of type_rank subformulas
                        (snd (left_right simplify f))),
          N.succ k).
Proof.
  unfold build_entry.
  destruct (left_right simplify f) as [left right]. simpl.
  destruct (Formula_eqb f formula);
    [exists (set_start_index t k) | exists t]; repeat split; reflexivity.
Qed.

Lemma fold_bits (k : KindTag) :
  forall (l : list Formula) (t : Building) (n i : FormulaID),
    N.testbit (select k (b_bitset (fst (fold_left entry l (t, n))))) i = true ->
    N.testbit (select k (b_bitset t)) i = true
    \/ exists (j : nat) (f : Formula),
         nth_error l j = Some f /\ tag_of f = Some k /\ i = n + N.of_nat j.
Proof.
  induction l as [| f l IH]; intros t n i H; cbn [fold_left] in H;
    [left; exact H |].
  destruct (entry_unfold t n f) as (t1 & Hb & _ & E). rewrite E in H.
  destruct (IH _ _ _ H) as [H1 | (j & g & Hj & Hg & ->)].
  - destruct (tag_of f) as [k' |] eqn:Ek.
    + destruct (KindTag_eq_dec k' k) as [-> | Hne].
      * rewrite (add_select_same _ _ _ _ _ _ Ek), Hb in H1.
        rewrite N.setbit_eqb in H1. apply orb_prop in H1.
        destruct H1 as [H1 | H1]; [| left; exact H1].
        apply N.eqb_eq in H1. subst i. right. exists 0%nat, f.
        repeat split; [exact Ek | lia].
      * rewrite add_select_other, Hb in H1 by congruence. left. exact H1.
    + rewrite add_select_other, Hb in H1 by congruence. left. exact H1.
  - right. exists (S j), g. repeat split; [exact Hj | exact Hg | lia].
Qed.

Lemma fold_lhs_length :
  forall (l : list Formula) (t : Building) (n : FormulaID),
    List.length (b_lhs (fst (fold_left entry l (t, n))))
    = List.length (b_lhs t).
Proof.
  induction l as [| f l IH]; intros t n; cbn [fold_left]; [reflexivity |].
  destruct (entry_unfold t n f) as (t1 & _ & Hl & E). rewrite E.
  rewrite IH, add_lhs_length, Hl. reflexivity.
Qed.

Lemma fold_lhs_before :
  forall (l : list Formula) (t : Building) (n i : FormulaID),
    i < n ->
    vget FormulaID_max (b_lhs (fst (fold_left entry l (t, n)))) i
    = vget FormulaID_max (b_lhs t) i.
Proof.
  induction l as [| f l IH]; intros t n i H; cbn [fold_left]; [reflexivity |].
  destruct (entry_unfold t n f) as (t1 & _ & Hl & E). rewrite E.
  rewrite IH by lia. rewrite add_lhs_other by lia. rewrite Hl. reflexivity.
Qed.

Lemma fold_lhs_at :
  forall (l : list Formula) (t : Building) (n : FormulaID) (j : nat)
         (f : Formula) (k : KindTag),
    nth_error l j = Some f -> tag_of f = Some k -> k <> K_atom ->
    (N.to_nat (n + N.of_nat j) < List.length (b_lhs t))%nat ->
    vget FormulaID_max (b_lhs (fst (fold_left entry l (t, n))))
         (n + N.of_nat j)
    = position_of type_rank subformulas (fst (left_right simplify f)).
Proof.
  induction l as [| g l IH]; intros t n j f k Hj Hk Ha Hlen;
    [destruct j; discriminate |].
  cbn [fold_left]. destruct (entry_unfold t n g) as (t1 & _ & Hl & E).
  rewrite E.
  destruct j as [| j]; simpl in Hj.
  - injection Hj as ->. replace (n + N.of_nat 0) with n in * by lia.
    rewrite fold_lhs_before by lia.
    apply (add_lhs_same _ _ _ _ _ k); auto. rewrite Hl. exact Hlen.
  - replace (n + N.of_nat (S j)) with (N.succ n + N.of_nat j) in * by lia.
    apply (IH _ _ _ _ k); auto. rewrite add_lhs_length, Hl. exact Hlen.
Qed.

(** What the tables say about an entry of the closure. *)
Lemma build_tables_bits (k : KindTag) (i : FormulaID) :
  N.testbit (select k (b_bitset
     (build_tables type_rank simplify subformulas formula))) i = true ->
  exists f : Formula,
    nth_error subformulas (N.to_nat i) = Some f /\ tag_of f = Some k.
Proof.
  unfold build_tables. intros H.
  destruct (fold_bits k _ _ _ _ H) as [H0 | (j & f & Hj & Hk & ->)].
  - destruct k; simpl in H0; discriminate.
  - exists f. rewrite N.add_0_l, Nat2N.id. auto.
Qed.

Lemma build_tables_lhs (j : nat) (f : Formula) (k : KindTag) :
  nth_error subformulas j = Some f -> tag_of f = Some k -> k <> K_atom ->
  vget FormulaID_max
       (b_lhs (build_tables type_rank simplify subformulas formula))
       (N.of_nat j)
  = position_of type_rank subformulas (fst (left_right simplify f)).
Proof.
  intros Hj Hk Ha. unfold build_tables.
  rewrite <- (N.add_0_l (N.of_nat j)).
  apply (fold_lhs_at _ _ _ _ _ k); auto.
  cbn [b_lhs]. rewrite repeat_length, N.add_0_l, Nat2N.id.
  apply nth_error_Some. congruence.
Qed.

End Tables.

(** ** The closure after initialization *)

Lemma declared_rank_injective (s t : FormulaType) :
  declared_rank s = declared_rank t -> s = t.
Proof. destruct s, t; simpl; intros H; try reflexivity; discriminate. Qed.

Section Closure.

Variable type_rank : FormulaType -> N.
Variable simplify : Formula -> Formula.
Variable generate : Formula -> list Formula.
Variable count : Formula -> N.

Local Abbreviation init := (_initialize type_rank simplify generate count).

(** The closure [_initialize] leaves: nothing for a constant, the tables of
    the first loop over the sorted subformulas otherwise. *)
Lemma _initialize_closure (s : Solver) :
  let subformulas :=
    unique (sort type_rank (generate (simplify (_formula s)))) in
  let t :=
    build_tables type_rank simplify subformulas (simplify (_formula s)) in
  closure (init s) = Closure_empty (generate (simplify (_formula s)))
  \/ (_subformulas (closure (init s)) = subformulas
      /\ _bitset (closure (init s)) = b_bitset t
      /\ _lhs (closure (init s)) = b_lhs t
      /\ _rhs (closure (init s)) = b_rhs t).
Proof.
  cbv zeta. unfold _initialize. cbv zeta.
  set (generated := generate (simplify (_formula s))).
  set (subformulas := unique (sort type_rank generated)).
  set (t := build_tables type_rank simplify subformulas
              (simplify (_formula s))).
  destruct (build_luts type_rank subformulas _) as [fw bw].
  destruct (fold_left (build_clause type_rank count subformulas) subformulas _)
    as [[sizes clauses] k].
  destruct generated as [| f [| g rest]]; try destruct f;
    try (right; repeat split; reflexivity); left; reflexivity.
Qed.

Lemma _initialize_exclusive_kinds (s : Solver) :
  exclusive_kinds (closure (init s)).
Proof.
  intros i k k' H1 H2.
  destruct (_initialize_closure s) as [E | (_ & E & _)].
  - unfold kind_bitset in H1. rewrite E in H1.
    destruct k; simpl in H1; discriminate.
  - unfold kind_bitset in H1, H2. rewrite E in H1, H2.
    apply build_tables_bits in H1, H2.
    destruct H1 as (f & Hf & Hk), H2 as (f' & Hf' & Hk').
    assert (f' = f) by congruence. subst f'.
    assert (beta_tag k = beta_tag k') by congruence.
    destruct k, k'; try reflexivity; discriminate.
Qed.

Hypothesis type_rank_injective :
  forall s t : FormulaType, type_rank s = type_rank t -> s = t.

Lemma negation_tag (f : Formula) :
  tag_of f = Some K_negation ->
  exists g, f = Negation g
            /\ fst (left_right simplify f) = Some g.
Proof.
  destruct f; simpl; try discriminate.
  destruct f; simpl; try discriminate; eauto.
Qed.

Lemma _initialize_pairs_negations (s : Solver) (i : FormulaID) :
  let generated := generate (simplify (_formula s)) in
  let c := closure (init s) in
  all_core generated ->
  (forall g, In (Negation g) generated -> In g generated) ->
  (forall g, ~ In (Negation (Negation g)) generated) ->
  N.testbit (negation (_bitset c)) i = true ->
  exists g : Formula,
    nth_error (_subformulas c) (N.to_nat i) = Some (Negation g)
    /\ 0 < i
    /\ lhs_at c i = i - 1
    /\ N.testbit (negation (_bitset c)) (i - 1) = false
    /\ nth_error (_subformulas c) (N.to_nat (i - 1)) = Some g.
Proof.
  cbv zeta. intros Hcore Hsub Hnn Hbit.
  destruct (_initialize_closure s) as [E | (ES & EB & EL & _)].
  { rewrite E in Hbit. simpl in Hbit. discriminate. }
  unfold lhs_at. rewrite ES, EB, EL in *.
  set (S := unique (sort type_rank (generate (simplify (_formula s))))) in *.
  pose proof (closure_sorted type_rank type_rank_injective _ Hcore) as Hsorted.
  fold S in Hsorted.
  destruct (build_tables_bits _ _ _ _ K_negation i Hbit) as (f & Hf & Hk).
  destruct (negation_tag f Hk) as (g & -> & Hleft).
  assert (Hg : In g S).
  { apply closure_In, Hsub, (closure_In type_rank).
    apply (nth_error_In _ _ Hf). }
  destruct (negation_follows_negand type_rank S g _ Hsorted Hf Hg)
    as (j & Hij & Hj).
  assert (Ei : i = N.of_nat (Datatypes.S j)) by lia.
  assert (Ep : i - 1 = N.of_nat j) by lia.
  exists g. split; [exact Hf |]. split; [lia |].
  rewrite Ep, Nat2N.id. split; [| split; [| exact Hj]].
  - assert (Hne : K_negation <> K_atom) by discriminate.
    pose proof (build_tables_lhs type_rank simplify S
                  (simplify (_formula s)) _ _ K_negation Hf Hk Hne) as Hl.
    rewrite N2Nat.id in Hl. rewrite Hl, Hleft. simpl.
    pose proof (lower_bound_finds type_rank S g Hsorted Hg) as Hlb.
    pose proof (nth_error_sorted_inj type_rank S _ _ g Hsorted Hlb Hj).
    lia.
  - destruct (N.testbit _ (N.of_nat j)) eqn:Hb; [| reflexivity].
    exfalso.
    destruct (build_tables_bits _ _ _ _ K_negation _ Hb) as (f' & Hf' & Hk').
    rewrite Nat2N.id, Hj in Hf'. injection Hf' as <-.
    destruct (negation_tag g Hk') as (h & -> & _).
    apply (Hnn h). apply (closure_In type_rank). apply (nth_error_In _ _ Hf).
Qed.

(** Claim C7, the comparator, as the code has it.  [compareFunc] is
    irreflexive and transitive on all formulas and total on the formulas
    without implications and biconditionals (the only ones that reach the
    closure): a strict total order there.  In the sorted closure without
    duplicates, a formula whose negation is in the closure sits immediately
    before its negation: the negand comes first. *)
Theorem comparator_orders_negand_first :
  (forall a, compareFunc type_rank a a = false)
  /\ (forall a b c,
        compareFunc type_rank a b = true -> compareFunc type_rank b c = true ->
        compareFunc type_rank a c = true)
  /\ (forall a b,
        core_syntax a = true -> core_syntax b = true -> a <> b ->
        compareFunc type_rank a b = true \/ compareFunc type_rank b a = true)
  /\ (forall (generated : list Formula) (phi : Formula) (i : nat),
        all_core generated ->
        In phi generated ->
        nth_error (unique (sort type_rank generated)) i
        = Some (Negation phi) ->
        exists j : nat,
          i = Datatypes.S j
          /\ nth_error (unique (sort type_rank generated)) j = Some phi).
Proof.
  split; [apply compare_irrefl |].
  split; [apply compare_trans |].
  split; [apply compare_total; exact type_rank_injective |].
  intros generated phi i Hcore Hin Hi.
  apply (negation_follows_negand type_rank); auto.
  - apply closure_sorted; assumption.
  - apply closure_In. exact Hin.
Qed.

Lemma Solver_new_exclusive_kinds (formula : Formula) (maximum_depth : FrameID)
    (backtrack_probability minimum_backtrack maximum_backtrack : N)
    (use_sat : bool) :
  exclusive_kinds
    (closure (Solver_new type_rank simplify generate count formula
                maximum_depth backtrack_probability minimum_backtrack
                maximum_backtrack use_sat)).
Proof. apply _initialize_exclusive_kinds. Qed.

(** Claim C6, the pairing of the closure.  Let the generator return
    formulas without implications and biconditionals, with the negand of
    every negation it returns and without double negations.  Then after
    initialization every entry [i] flagged [negation] is a negation, it is
    not the first entry, [_lhs[i] = i - 1], the entry [i - 1] is not flagged
    [negation], and the formula at [i - 1] is the one under the negation. *)
Theorem closure_pairing (formula : Formula) (maximum_depth : FrameID)
    (backtrack_probability minimum_backtrack maximum_backtrack : N)
    (use_sat : bool) (i : FormulaID) :
  let generated := generate (simplify formula) in
  let c := closure (Solver_new type_rank simplify generate count formula
                      maximum_depth backtrack_probability minimum_backtrack
                      maximum_backtrack use_sat) in
  all_core generated ->
  (forall g, In (Negation g) generated -> In g generated) ->
  (forall g, ~ In (Negation (Negation g)) generated) ->
  N.testbit (negation (_bitset c)) i = true ->
  exists g : Formula,
    nth_error (_subformulas c) (N.to_nat i) = Some (Negation g)
    /\ 0 < i
    /\ lhs_at c i = i - 1
    /\ N.testbit (negation (_bitset c)) (i - 1) = false
    /\ nth_error (_subformulas c) (N.to_nat (i - 1)) = Some g.
Proof.
  cbv zeta. unfold Solver_new. intros Hcore Hsub Hnn Hbit.
  apply _initialize_pairs_negations; assumption.
Qed.

End Closure.

(** ** Bitsets *)

Lemma is_subset_of_spec (a b : Bitset) :
  is_subset_of a b = true <->
  (forall i, N.testbit a i = true -> N.testbit b i = true).
Proof.
  unfold is_subset_of. rewrite N.eqb_eq. split.
  - intros H i Ha.
    assert (Hb : N.testbit (N.ldiff a b) i = false)
      by (rewrite H; apply N.bits_0).
    rewrite N.ldiff_spec, Ha in Hb.
    destruct (N.testbit b i); [reflexivity | discriminate].
  - intros H. apply N.bits_inj. intros i.
    rewrite N.ldiff_spec, N.bits_0.
    destruct (N.testbit a i) eqn:Ha; [| reflexivity].
    rewrite (H i Ha). reflexivity.
Qed.

Lemma is_subset_of_refl (a : Bitset) : is_subset_of a a = true.
Proof. apply is_subset_of_spec. auto. Qed.

Lemma vget_nth_error {A : Type} (d : A) (v : list A) (i : N) :
  vget d v i = match nth_error v (N.to_nat i) with Some x => x | None => d end.
Proof.
  unfold vget. generalize (N.to_nat i) as n. clear i.
  induction v as [| h t IH]; intros [| n]; simpl; auto.
Qed.

Lemma all_satisfied_of_promises (c : Closure) (frame ancestor : Frame) :
  promises_kept_since frame ancestor -> all_satisfied c frame ancestor = true.
Proof.
  intros H. unfold all_satisfied. apply forallb_forall. intros i _.
  rewrite vget_nth_error.
  destruct (nth_error (eventualities frame) (N.to_nat i)) as [ev |] eqn:E;
    [| reflexivity].
  destruct ev as [| | k]; try reflexivity.
  - destruct (H _ _ E) as [k [Hk _]]; discriminate.
  - destruct (H _ _ E) as [k' [Hk Hle]]; [discriminate |].
    injection Hk as <-. simpl. apply N.leb_le. exact Hle.
Qed.

Lemma loop_closes_of_claim (c : Closure) (frame ancestor : Frame) :
  covered_by frame ancestor -> promises_kept_since frame ancestor ->
  loop_closes c frame ancestor = true.
Proof.
  intros Hs Hp. unfold loop_closes.
  rewrite (proj2 (is_subset_of_spec _ _) Hs).
  rewrite (all_satisfied_of_promises c _ _ Hp). reflexivity.
Qed.

(** The test of the code says what the specification says, on a frame with
    one promise per slot. *)
Lemma loop_closes_iff (c : Closure) (frame ancestor : Frame) :
  List.length (eventualities frame)
  = List.length (_bw_eventualities_lut c) ->
  loop_closes c frame ancestor = true
  <-> covered_by frame ancestor /\ promises_kept_since frame ancestor.
Proof.
  intros Hlen. split; [| intros [H1 H2]; apply loop_closes_of_claim; auto].
  unfold loop_closes. intros H. apply andb_prop in H. destruct H as [H1 H2].
  split; [exact (proj1 (is_subset_of_spec _ _) H1) |].
  intros i ev Hi Hev. unfold all_satisfied in H2.
  rewrite forallb_forall in H2.
  assert (Hin : In (N.of_nat i)
                   (positions (vlength (_bw_eventualities_lut c)))).
  { unfold positions, vlength. apply in_map. rewrite Nat2N.id, <- Hlen.
    apply in_seq. split; [lia |].
    apply nth_error_Some. congruence. }
  specialize (H2 _ Hin). rewrite vget_nth_error, Nat2N.id, Hi in H2.
  destruct ev as [| | k]; simpl in H2; try congruence; try discriminate.
  exists k. split; [reflexivity |]. apply N.leb_le. exact H2.
Qed.

(** ** The detector *)



Lemma lookback_counts (c : Closure) (frame : Frame) :
  forall (ancestors : list Frame) (r1 r2 : option Frame),
    (r1 = None -> r2 = None) ->
    (forall a, In a ancestors -> loop_closes c frame a = false) ->
    (2 <= pointers r1 r2
          + List.length (filter (same_formulas frame) ancestors))%nat ->
    lookback c frame ancestors r1 r2 = Rep.
Proof.
  induction ancestors as [| b rest IH]; intros r1 r2 Hr Hno Hc; simpl in *.
  - destruct r1, r2; simpl in Hc; try lia; reflexivity.
  - assert (Hb := Hno b (or_introl eq_refl)). unfold loop_closes in Hb.
    assert (Hrest : forall a, In a rest -> loop_closes c frame a = false)
      by (intros a Ha; apply Hno; right; exact Ha).
    unfold same_formulas in Hc at 1.
    destruct (N.eqb (formulas frame) (formulas b)) eqn:E.
    + apply N.eqb_eq in E. rewrite <- E, is_subset_of_refl in *.
      simpl in Hb. rewrite Hb.
      destruct r1 as [x |]; [destruct r2 as [y |] |].
      * apply IH; auto; simpl in *; lia.
      * apply IH; auto; try discriminate; simpl in *; lia.
      * rewrite (Hr eq_refl) in *. apply IH; auto; try discriminate;
          simpl in *; lia.
    + destruct (is_subset_of (formulas frame) (formulas b)); simpl in Hb.
      * rewrite Hb. apply IH; auto.
      * apply IH; auto.
Qed.

Lemma filter_two {A : Type} (f : A -> bool) :
  forall (l : list A) (i j : nat) (x y : A),
    i <> j -> nth_error l i = Some x -> nth_error l j = Some y ->
    f x = true -> f y = true -> (2 <= List.length (filter f l))%nat.
Proof.
  assert (one : forall (l : list A) (i : nat) (x : A),
             nth_error l i = Some x -> f x = true ->
             (1 <= List.length (filter f l))%nat).
  { induction l as [| h t IH]; intros [| i] x Hx Hf; simpl in *;
      try discriminate.
    - injection Hx as ->. rewrite Hf. simpl. lia.
    - specialize (IH _ _ Hx Hf). destruct (f h); simpl; lia. }
  induction l as [| h t IH]; intros i j x y Hij Hx Hy Hfx Hfy.
  - destruct i; discriminate.
  - destruct i as [| i], j as [| j]; simpl in *.
    + congruence.
    + injection Hx as ->. rewrite Hfx. simpl.
      specialize (one _ _ _ Hy Hfy). lia.
    + injection Hy as ->. rewrite Hfy. simpl.
      specialize (one _ _ _ Hx Hfx). lia.
    + assert (i <> j) by congruence.
      specialize (IH _ _ _ _ H Hx Hy Hfx Hfy). destruct (f h); simpl; lia.
Qed.

(** ** What a round leaves of the verdict *)

Section Detector.

Variable solve : list Clause -> option (N -> bool).
Variable draw : N -> N.

Lemma step_rule_settled (s : Solver) (frame : Frame) :
  settled s (step_rule solve s frame).
Proof.
  unfold step_rule.
  destruct (N.leb (_maximum_depth (config s)) (id frame)); simpl; auto.
Qed.

Lemma after_rules_settled (s : Solver) (frame : Frame) :
  settled s (after_rules solve draw s frame).
Proof.
  unfold after_rules. cbv zeta.
  match goal with |- context [if ?b then _ else _] => destruct b end.
  - apply (step_rule_settled (with_mt (set_top s _) _)).
  - match goal with |- context [lookback ?a ?b ?c ?d ?e] =>
      destruct (lookback a b c d e) end.
    + simpl. repeat split. discriminate.
    + simpl. auto.
    + apply (step_rule_settled (with_mt (set_top s _) _)).
Qed.

Lemma sat_bridge_settled (s : Solver) (frame : Frame) :
  settled s (sat_bridge solve s frame).
Proof.
  unfold sat_bridge. cbv zeta.
  match goal with |- context [solve ?x] => destruct (solve x) end.
  - match goal with |- context [sat_extract ?a ?b ?c ?d] =>
      destruct (sat_extract a b c d) end.
    simpl. auto.
  - simpl. auto.
Qed.

Lemma beta_rules_settled (s : Solver) (frame : Frame) (applied : bool) :
  settled s (beta_rules solve draw s frame applied).
Proof.
  unfold beta_rules. cbv zeta.
  repeat match goal with
         | |- context [match (if ?b then ?x else None) with _ => _ end] =>
             destruct (if b then x else None)
         end; simpl; auto.
  destruct applied; [simpl; auto |].
  destruct (_should_use_sat_solver s frame).
  - apply sat_bridge_settled.
  - apply after_rules_settled.
Qed.

Lemma round_settled (s : Solver) : settled s (round solve draw s).
Proof.
  unfold round. destruct (_stack s) as [| frame below] eqn:Hs.
  - simpl. auto.
  - cbv zeta. destruct (none (formulas frame)).
    + destruct (chain frame) as [k |]; [| exact I].
      destruct (frame_at (frame :: below) k); [| exact I].
      simpl. rewrite Hs. repeat split. discriminate.
    + destruct (_check_contradiction_rule (closure s) frame).
      * simpl. auto.
      * destruct (_apply_conjunction_rule (closure s) frame) as [f1 a1].
        destruct (_apply_always_rule (closure s) f1) as [f2 a2].
        apply beta_rules_settled.
Qed.


End Detector.

(** ** No frame beyond the maximum depth *)

Section Depth.

Variable solve : list Clause -> option (N -> bool).
Variable draw : N -> N.

Lemma fold_left_id {A : Type} (g : Frame -> A -> Frame) :
  (forall f x, id (g f x) = id f) ->
  forall (l : list A) (f : Frame), id (fold_left g l f) = id f.
Proof.
  intros Hg. induction l as [| x l IH]; intros f; simpl; [reflexivity |].
  rewrite IH. apply Hg.
Qed.















End Depth.


(** ** The LOOP rule *)

Section LoopRule.

Variable solve : list Clause -> option (N -> bool).
Variable draw : N -> N.


End LoopRule.



Lemma no_loop_of_forallb (c : Closure) (frame : Frame)
    (ancestors : list Frame) :
  forallb (fun a => negb (loop_closes c frame a)) ancestors = true ->
  forall a, In a ancestors -> loop_closes c frame a = false.
Proof.
  intros H a Ha. rewrite forallb_forall in H. specialize (H a Ha).
  destruct (loop_closes c frame a); [discriminate | reflexivity].
Qed.

(** ** The REP rule, the depth bound and the constants *)

Section Verdicts.

Variable type_rank : FormulaType -> N.
Variable simplify : Formula -> Formula.
Variable generate : Formula -> list Formula.
Variable count : Formula -> N.
Variable solve : list Clause -> option (N -> bool).
Variable draw : N -> N.

(** Claim C4, the REP rule.  When the detector runs on the current frame,
    the LOOP rule closes on no ancestor, and two distinct ancestors on the
    chain have exactly the formulas of the frame, the detector answers Rep
    and the round rolls back to the latest choice: no STEP is taken. *)
Theorem REP_rule_rolls_back (s : Solver) (frame0 : Frame) (i j : nat)
    (a1 a2 : Frame) :
  lookback_runs draw s ->
  (forall a, In a (detector_chain s frame0) ->
             loop_closes (closure s) (detector_frame s frame0) a = false) ->
  i <> j ->
  nth_error (detector_chain s frame0) i = Some a1 ->
  nth_error (detector_chain s frame0) j = Some a2 ->
  formulas a1 = formulas (detector_frame s frame0) ->
  formulas a2 = formulas (detector_frame s frame0) ->
  lookback (closure s) (detector_frame s frame0) (detector_chain s frame0)
           None None = Rep
  /\ after_rules solve draw s frame0
     = Continue (_rollback_to_latest_choice solve (detector_solver s frame0)).
Proof.
  intros Hrun Hno Hij H1 H2 E1 E2.
  assert (Hrep : lookback (closure s) (detector_frame s frame0)
                   (detector_chain s frame0) None None = Rep).
  { apply lookback_counts; [auto | exact Hno |]. simpl.
    apply (filter_two _ _ i j a1 a2 Hij H1 H2);
      unfold same_formulas; apply N.eqb_eq; congruence. }
  split; [exact Hrep |].
  unfold after_rules. cbv zeta.
  replace (N.ltb (_backtrack_probability (config _)) _) with false.
  2:{ symmetry. apply N.ltb_ge. exact Hrun. }
  unfold detector_chain, detector_frame, detector_solver in *. simpl in *.
  rewrite Hrep. reflexivity.
Qed.


Lemma _initialize_constant (s : Solver) (r : Result) (k : Formula) :
  (k = True_ /\ r = SATISFIABLE) \/ (k = False_ /\ r = UNSATISFIABLE) ->
  generate (simplify (_formula s)) = [k] ->
  _initialize type_rank simplify generate count s
  = mkSolver (config s) (simplify (_formula s)) (Closure_empty [k]) DONE r
             (_loop_state s) [] (_mt s).
Proof.
  intros Hk H. unfold _initialize. cbv zeta. rewrite H.
  destruct Hk as [[-> ->] | [-> ->]]; reflexivity.
Qed.

(** Claim C10, the constants.  If the closure of the simplified input is
    the single formula False, the solver is built DONE with the result
    UNSATISFIABLE and an empty stack, [solution] returns UNSATISFIABLE
    without a single round and leaves the solver as it is, and [model]
    returns nothing.  If it is the single formula True, the solver is built
    DONE (not PAUSED) with the result SATISFIABLE, and [solution] returns
    SATISFIABLE without a single round. *)
Theorem constant_formula_short_circuit (formula : Formula)
    (maximum_depth : FrameID)
    (backtrack_probability minimum_backtrack maximum_backtrack : N)
    (use_sat : bool) (fuel : nat) :
  let s := Solver_new type_rank simplify generate count formula maximum_depth
             backtrack_probability minimum_backtrack maximum_backtrack
             use_sat in
  (generate (simplify formula) = [False_] ->
     _state s = DONE /\ _result s = UNSATISFIABLE /\ _stack s = []
     /\ solution solve draw fuel s = Some (UNSATISFIABLE, s)
     /\ model s = None)
  /\ (generate (simplify formula) = [True_] ->
     _state s = DONE /\ _state s <> PAUSED /\ _result s = SATISFIABLE
     /\ _stack s = []
     /\ solution solve draw fuel s = Some (SATISFIABLE, s)).
Proof.
  cbv zeta. unfold Solver_new.
  split; intros H.
  - rewrite (_initialize_constant _ UNSATISFIABLE False_);
      [| right; split; reflexivity | exact H].
    repeat split.
  - rewrite (_initialize_constant _ SATISFIABLE True_);
      [| left; split; reflexivity | exact H].
    repeat split. discriminate.
Qed.

End Verdicts.

(** The theorem on [G ~p /\ F p]: the frame of time 3 repeats the frames of
    times 2 and 1, and the promise of [p] is never satisfied. *)
Lemma REP_rule_rolls_back_witness :
  lookback (closure before_rep) (detector_frame before_rep (top before_rep))
           (detector_chain before_rep (top before_rep)) None None = Rep
  /\ after_rules no_solver (constant_draw 0) before_rep (top before_rep)
     = Continue (_rollback_to_latest_choice no_solver
                   (detector_solver before_rep (top before_rep))).
Proof.
  apply (REP_rule_rolls_back no_solver (constant_draw 0) before_rep
           (top before_rep) 0%nat 1%nat
           (nth 0 (detector_chain before_rep (top before_rep))
                (top before_rep))
           (nth 1 (detector_chain before_rep (top before_rep))
                (top before_rep))).
  - vm_compute. discriminate.
  - apply no_loop_of_forallb. vm_compute. reflexivity.
  - discriminate.
  - vm_compute. reflexivity.
  - vm_compute. reflexivity.
  - vm_compute. reflexivity.
  - vm_compute. reflexivity.
Defined.

(** The theorem on the inputs False and True. *)
Lemma constant_formula_short_circuit_witness :
  (_state false_solver = DONE /\ _result false_solver = UNSATISFIABLE
   /\ _stack false_solver = []
   /\ solution no_solver (constant_draw 0) 0 false_solver
      = Some (UNSATISFIABLE, false_solver)
   /\ model false_solver = None)
  /\ (_state true_solver = DONE /\ _state true_solver <> PAUSED
      /\ _result true_solver = SATISFIABLE /\ _stack true_solver = []
      /\ solution no_solver (constant_draw 0) 0 true_solver
         = Some (SATISFIABLE, true_solver)).
Proof.
  split.
  - apply (proj1 (constant_formula_short_circuit declared_rank normal_form
                    constant_closure disjuncts no_solver (constant_draw 0)
                    False_ 10 100 0 100 false 0)).
    reflexivity.
  - apply (proj2 (constant_formula_short_circuit declared_rank normal_form
                    constant_closure disjuncts no_solver (constant_draw 0)
                    True_ 10 100 0 100 false 0)).
    reflexivity.
Defined.

(** [model] returns nothing exactly when the solver is not paused or has no
    SATISFIABLE verdict. *)
Lemma model_none_iff (s : Solver) :
  model s = None
  <-> _state s <> PAUSED \/ _result s = UNSATISFIABLE
      \/ _result s = UNDEFINED.
Proof.
  unfold model.
  destruct (_state s); destruct (_result s); simpl;
    try (split; [intros _ | reflexivity]; auto; left; discriminate);
    try (split; [intros _; auto | reflexivity]).
  destruct (_subformulas (closure s)) as [| [] []]; simpl;
    (split; [discriminate | intros [H | [H | H]]; congruence]).
Qed.

(** Claim C8 on the code: on the input True the closure is the single
    formula True, [solution] reports SATISFIABLE, and the solver is DONE, so
    [model] returns nothing: the one-state model of the constant is never
    produced. *)
Theorem model_of_true_closure_is_none :
  _subformulas (closure true_solver) = [True_]
  /\ (forall fuel : nat,
        solution no_solver (constant_draw 0) fuel true_solver
        = Some (SATISFIABLE, true_solver))
  /\ _state true_solver = DONE
  /\ model true_solver = None.
Proof.
  split; [reflexivity |]. split; [| split; reflexivity].
  intros fuel. reflexivity.
Qed.

(** ** The branching rules *)

Section Beta.

Variable solve : list Clause -> option (N -> bool).
Variable draw : N -> N.

Lemma silent_rule (s : Solver) (frame : Frame) (k : BetaKind) :
  silent s frame k = true ->
  (if enabled s k frame
   then _apply_rule (closure s) (kind_bitset (closure s) k) frame
   else None) = None.
Proof.
  unfold silent, candidate, _apply_rule. cbv zeta.
  destruct (enabled s k frame); simpl; [| reflexivity].
  destruct (find_first _ _); [discriminate | reflexivity].
Qed.

Lemma firing_rule (s : Solver) (frame : Frame) (k : BetaKind)
    (i : FormulaID) :
  enabled s k frame = true -> candidate (closure s) k frame = Some i ->
  (if enabled s k frame
   then _apply_rule (closure s) (kind_bitset (closure s) k) frame
   else None)
  = Some (with_type (with_choosenFormula (clear_to_process frame i) i) CHOICE).
Proof.
  unfold candidate, _apply_rule. cbv zeta. intros -> ->. reflexivity.
Qed.

Lemma find_first_spec (n : N) (b : Bitset) (i : N) :
  find_first n b = Some i -> N.testbit b i = true.
Proof. unfold find_first. intros H. apply (find_some _ _ H). Qed.

Lemma candidate_kind (c : Closure) (k : BetaKind) (frame : Frame) (i : N) :
  candidate c k frame = Some i -> N.testbit (kind_bitset c k) i = true.
Proof.
  unfold candidate. intros H. apply find_first_spec in H.
  rewrite !N.land_spec in H.
  destruct (N.testbit (kind_bitset c k) i); [reflexivity |].
  rewrite andb_false_r in H. discriminate.
Qed.

Lemma other_kind (c : Closure) (k k' : BetaKind) (i : N) :
  exclusive_kinds c -> N.testbit (kind_bitset c k) i = true -> k' <> k ->
  N.testbit (kind_bitset c k') i = false.
Proof.
  intros Hx Hk Hne. destruct (N.testbit (kind_bitset c k') i) eqn:E;
    [| reflexivity].
  exfalso. apply Hne. apply (Hx i); assumption.
Qed.

Lemma resume_choice (c : Closure) (parent : Frame) (below : list Frame)
    (k : BetaKind) (i : FormulaID) :
  type parent = CHOICE -> choosenFormula parent = i -> i <> FormulaID_max ->
  exclusive_kinds c -> N.testbit (kind_bitset c k) i = true ->
  rollback solve c (parent :: below)
  = second_alternative c parent
      :: with_choosenFormula parent FormulaID_max :: below
  /\ formulas (second_alternative c parent)
     = add_formulas (formulas parent) (added_on_rollback c k i)
  /\ rollback solve c (with_choosenFormula parent FormulaID_max :: below)
     = rollback solve c below.
Proof.
  intros Ht Hc Hi Hx Hk. split; [| split].
  - simpl. rewrite Ht, Hc. simpl.
    apply N.eqb_neq in Hi. rewrite Hi. reflexivity.
  - unfold second_alternative, rollback_skin. cbv zeta. rewrite Hc.
    pose proof (other_kind c k Beta_disjunction i Hx Hk) as Hd.
    pose proof (other_kind c k Beta_eventually i Hx Hk) as He.
    pose proof (other_kind c k Beta_until i Hx Hk) as Hu.
    unfold kind_bitset in Hk, Hd, He, Hu. simpl in Hd, He, Hu.
    destruct k; simpl in Hk.
    + rewrite Hk. reflexivity.
    + rewrite Hd, Hk by discriminate. reflexivity.
    + rewrite Hd, He, Hk by discriminate.
      simpl. unfold rollback_skin.
      destruct (N.testbit _ (i + 1)); reflexivity.
    + rewrite Hd, He, Hu, Hk by discriminate.
      simpl. unfold rollback_skin.
      destruct (N.testbit _ (i + 1)); reflexivity.
  - simpl. rewrite Ht. simpl. reflexivity.
Qed.

(** What a branching rule does when it fires on the entry [i] of a frame:
    the frame becomes a CHOICE frame with [i] chosen and [i] cleared from
    [to_process], and a child is pushed on it that is the frame plus the
    first alternative (disjunction and eventually: [lhs[i]]; until:
    [rhs[i]]; not-until: [lhs[i]] and [rhs[i]]).  When rollback reaches
    that frame it pushes a child with what the code adds for the second
    alternative and clears the chosen formula; a later rollback pops the
    frame instead of resuming it again. *)
Lemma branching_alternatives (s : Solver) (frame : Frame) (applied : bool)
    (k : BetaKind) (i : FormulaID) (below : list Frame) :
  let c := closure s in
  fires s frame k i ->
  exists (parent child : Frame) (s' : Solver),
    beta_rules solve draw s frame applied = Continue s'
    /\ _stack s' = child :: parent :: tl (_stack s)
    /\ type parent = CHOICE
    /\ choosenFormula parent = i
    /\ formulas parent = formulas frame
    /\ to_process parent = N.clearbit (to_process frame) i
    /\ formulas child = add_formulas (formulas frame) (first_alternative c k i)
    /\ to_process child = to_process parent
    /\ eventualities child = eventualities parent
    /\ id child = id frame /\ chain child = chain frame
    /\ (exclusive_kinds c -> i <> FormulaID_max ->
        exists child2 : Frame,
          rollback solve c (parent :: below)
          = child2 :: with_choosenFormula parent FormulaID_max :: below
          /\ formulas child2
             = add_formulas (formulas frame) (added_on_rollback c k i)
          /\ rollback solve c
               (with_choosenFormula parent FormulaID_max :: below)
             = rollback solve c below).
Proof.
  cbv zeta. intros (Hen & Hcand & Hsilent).
  pose proof (firing_rule s frame k i Hen Hcand) as Hfire.
  assert (Hquiet : forall k', In k' (tried_before k) ->
            (if enabled s k' frame
             then _apply_rule (closure s) (kind_bitset (closure s) k') frame
             else None) = None).
  { intros k' Hk'. apply silent_rule.
    rewrite forallb_forall in Hsilent. apply Hsilent. exact Hk'. }
  pose proof (candidate_kind _ _ _ _ Hcand) as Hkind.
  set (fr := with_type (with_choosenFormula (clear_to_process frame i) i)
                       CHOICE) in *.
  unfold beta_rules, _apply_disjunction_rule, _apply_eventually_rule,
    _apply_until_rule, _apply_not_until_rule.
  cbv zeta.
  pose proof (Hquiet Beta_disjunction) as Qd.
  pose proof (Hquiet Beta_eventually) as Qe.
  pose proof (Hquiet Beta_until) as Qu.
  unfold kind_bitset in Hfire, Qd, Qe, Qu.
  simpl in Qd, Qe, Qu. clear Hquiet.
  destruct k; simpl in Hfire, Qd, Qe, Qu.
  - rewrite Hfire.
    exists fr, (set_formula (Frame_copy fr) (lhs_at (closure s) i)).
    eexists. split; [reflexivity |].
    repeat (split; [reflexivity |]).
    intros Hx Hi.
    destruct (resume_choice (closure s) fr below Beta_disjunction i)
      as (R1 & R2 & R3); auto.
    exists (second_alternative (closure s) fr). auto.
  - rewrite Qd by auto. rewrite Hfire.
    eexists. eexists. eexists.
    split; [reflexivity |].
    repeat (split; [reflexivity |]).
    intros Hx Hi.
    match goal with |- context [rollback solve _ (?p :: below)] =>
      destruct (resume_choice (closure s) p below Beta_eventually i)
        as (R1 & R2 & R3); auto;
      exists (second_alternative (closure s) p); auto
    end.
  - rewrite Qd, Qe by auto.
    rewrite Hfire.
    eexists. eexists. eexists.
    split; [reflexivity |].
    repeat (split; [reflexivity |]).
    intros Hx Hi.
    match goal with |- context [rollback solve _ (?p :: below)] =>
      destruct (resume_choice (closure s) p below Beta_until i)
        as (R1 & R2 & R3); auto;
      exists (second_alternative (closure s) p); auto
    end.
  - rewrite Qd, Qe, Qu by auto.
    rewrite Hfire.
    eexists. eexists. eexists.
    split; [reflexivity |].
    repeat (split; [reflexivity |]).
    intros Hx Hi.
    match goal with |- context [rollback solve _ (?p :: below)] =>
      destruct (resume_choice (closure s) p below Beta_not_until i)
        as (R1 & R2 & R3); auto;
      exists (second_alternative (closure s) p); auto
    end.
Qed.

End Beta.

(** ** The closure of [G p] *)

Lemma all_core_of_forallb (l : list Formula) :
  forallb core_syntax l = true -> all_core l.
Proof.
  intros H. apply Forall_forall. intros f Hf.
  rewrite forallb_forall in H. apply H. exact Hf.
Qed.

(** The theorem on the closure of [G p], at the entry of [~p]. *)
Lemma closure_pairing_witness :
  exists g : Formula,
    nth_error (_subformulas (closure always_p_solver)) (N.to_nat 1)
    = Some (Negation g)
    /\ 0 < 1
    /\ lhs_at (closure always_p_solver) 1 = 1 - 1
    /\ N.testbit (negation (_bitset (closure always_p_solver))) (1 - 1) = false
    /\ nth_error (_subformulas (closure always_p_solver)) (N.to_nat (1 - 1))
       = Some g.
Proof.
  apply (closure_pairing declared_rank normal_form always_p_closure disjuncts
           declared_rank_injective always_p 3 0 0 100 false 1).
  - apply all_core_of_forallb. reflexivity.
  - intros g H. simpl in H.
    repeat (destruct H as [H | H]; [try discriminate H |]);
      try contradiction.
    injection H as <-. simpl. auto.
  - intros g H. simpl in H.
    repeat (destruct H as [H | H]; [discriminate H |]). contradiction.
  - reflexivity.
Defined.

(** The theorem with the declared order of the tags, on the closure of
    [G p]: [p] sits immediately before [~p]. *)
Lemma comparator_orders_negand_first_witness :
  exists j : nat,
    1%nat = S j
    /\ nth_error (unique (sort declared_rank (always_p_closure always_p))) j
       = Some p.
Proof.
  destruct (comparator_orders_negand_first declared_rank
              declared_rank_injective) as (_ & _ & _ & H).
  apply (H (always_p_closure always_p) p 1%nat).
  - apply all_core_of_forallb. reflexivity.
  - simpl. auto.
  - reflexivity.
Defined.

(** Claim C7 as stated fails.  In the sorted closure of [G p] the formula
    [p] is at position 0 and [~p] at position 1: the negation follows its
    negand, because the comparator puts [p] below [~p].  And on the formulas
    the simplifier eliminates the comparator is not total: two different
    biconditionals are not ordered either way. *)
Lemma negation_first_counterexample :
  let sorted := unique (sort declared_rank (always_p_closure always_p)) in
  In p sorted /\ In (Negation p) sorted
  /\ nth_error sorted 0 = Some p
  /\ nth_error sorted 1 = Some (Negation p)
  /\ compareFunc declared_rank (Negation p) p = false
  /\ compareFunc declared_rank p (Negation p) = true
  /\ Iff p q <> Iff q p
  /\ compareFunc declared_rank (Iff p q) (Iff q p) = false
  /\ compareFunc declared_rank (Iff q p) (Iff p q) = false.
Proof.
  cbv zeta. repeat split; try reflexivity.
  - vm_compute. auto.
  - vm_compute. auto.
  - discriminate.
Qed.

(** ** The promises of a not-until *)

Lemma request_length (evs : list Eventuality) (slot : N) :
  List.length (request evs slot) = List.length evs.
Proof.
  unfold request. cbv zeta.
  destruct (is_not_requested _); [apply vset_length | reflexivity].
Qed.

Lemma request_other (evs : list Eventuality) (slot other : N) :
  slot <> other ->
  vget Unrequested (request evs slot) other = vget Unrequested evs other.
Proof.
  intros H. unfold request. cbv zeta.
  destruct (is_not_requested _); [apply vget_vset_other; exact H |].
  reflexivity.
Qed.

(** What the not-until block does to the two slots when they differ: the
    slot of the right child keeps its state, and the slot of the left child
    ends with the state of the right one, requested if it was not. *)
Lemma request_not_until_slots (c : Closure) (frame : Frame) :
  let left_slot := fw_at c (lhs_at c (choosenFormula frame)) in
  let right_slot := fw_at c (rhs_at c (choosenFormula frame)) in
  let before := eventualities frame in
  let after := request_not_until c frame in
  left_slot <> right_slot ->
  (N.to_nat left_slot < List.length before)%nat ->
  vget Unrequested after right_slot = vget Unrequested before right_slot
  /\ vget Unrequested after left_slot
     = if is_not_requested (vget Unrequested before right_slot)
       then NotSatisfied
       else vget Unrequested before right_slot.
Proof.
  cbv zeta. intros Hne Hlen. unfold request_not_until. cbv zeta.
  set (L := fw_at c (lhs_at c (choosenFormula frame))) in *.
  set (R := fw_at c (rhs_at c (choosenFormula frame))) in *.
  set (evs1 := request (eventualities frame) L).
  assert (H1 : vget Unrequested evs1 R
               = vget Unrequested (eventualities frame) R)
    by (apply request_other; exact Hne).
  assert (Hlen1 : (N.to_nat L < List.length evs1)%nat)
    by (unfold evs1; rewrite request_length; exact Hlen).
  rewrite H1.
  set (r := vget Unrequested (eventualities frame) R) in *.
  set (evs2 := vset evs1 L r).
  assert (H2 : vget Unrequested evs2 L = r)
    by (apply vget_vset_same; exact Hlen1).
  assert (H3 : vget Unrequested evs2 R = r).
  { unfold evs2. rewrite vget_vset_other by exact Hne. exact H1. }
  unfold request. cbv zeta. rewrite H2.
  destruct (is_not_requested r) eqn:E.
  - split.
    + rewrite vget_vset_other by exact Hne. exact H3.
    + apply vget_vset_same. unfold evs2. rewrite vset_length. exact Hlen1.
  - split; assumption.
Qed.

(** Claim C2 on the code: the first round on [~(p U q)].  The not-until
    rule fires on entry 5, whose two promises are the slots 0 and 2, both
    UNREQUESTED.  Afterwards slot 0 is NOT_SATISFIED and slot 2 is still
    UNREQUESTED, in the frame and in the child it pushes. *)
Theorem not_until_requests_one_slot :
  let c := closure not_until_start in
  exists parent child : Frame,
    round no_solver (constant_draw 0) not_until_start
    = Continue (with_stack not_until_start [child; parent])
    /\ type parent = CHOICE
    /\ choosenFormula parent = 5
    /\ N.testbit (not_until (_bitset c)) 5 = true
    /\ fw_at c (lhs_at c 5) = 0
    /\ fw_at c (rhs_at c 5) = 2
    /\ eventualities (top not_until_start)
       = [Unrequested; Unrequested; Unrequested]
    /\ eventualities parent = [NotSatisfied; Unrequested; Unrequested]
    /\ eventualities child = [NotSatisfied; Unrequested; Unrequested].
Proof.
  cbv zeta. eexists. eexists.
  split; [vm_compute; reflexivity |].
  repeat split; vm_compute; reflexivity.
Qed.

(** Claim C9 on the code: [G p] with maximum depth 3 and
    [backtrack_probability = 0].  When the generator draws 0 every time the
    run returns SATISFIABLE with a one-state model; when it draws 1 every
    time the run returns UNSATISFIABLE and there is no model. *)
Theorem zero_probability_runs_differ :
  _backtrack_probability (config always_p_solver) = 0
  /\ (exists s1 : Solver,
        solution no_solver (constant_draw 0) 100 always_p_solver
        = Some (SATISFIABLE, s1)
        /\ _loop_state s1 = 0
        /\ model s1 = Some (mkModel [[mkLiteral "p" true]] 0))
  /\ (exists s2 : Solver,
        solution no_solver (constant_draw 1) 100 always_p_solver
        = Some (UNSATISFIABLE, s2)
        /\ model s2 = None).
Proof.
  split; [vm_compute; reflexivity |]. split.
  - eexists. split; [vm_compute; reflexivity |].
    split; vm_compute; reflexivity.
  - eexists. split; [vm_compute; reflexivity |]. vm_compute. reflexivity.
Qed.

(** ** The coin at probability 100 *)

Section FullProbability.

Variable solve : list Clause -> option (N -> bool).
Variables draw1 draw2 : N -> N.

(** With the probability at 100 the coin never skips the detector, so a
    round does not depend on the numbers drawn. *)
Lemma after_rules_at_100 (s : Solver) (frame : Frame) :
  100 <= _backtrack_probability (config s) ->
  after_rules solve draw1 s frame = after_rules solve draw2 s frame.
Proof.
  intros H. unfold after_rules. cbv zeta.
  assert (E : forall d : N -> N,
             N.ltb (_backtrack_probability
                      (config (with_mt (set_top s
                         (_update_eventualities_satisfaction (closure s) frame))
                         (N.succ (_mt (set_top s
                            (_update_eventualities_satisfaction
                               (closure s) frame)))))))
                   (N.modulo (d (_mt (set_top s
                      (_update_eventualities_satisfaction (closure s) frame))))
                      101) = false).
  { intros d. apply N.ltb_ge. simpl.
    pose proof (N.mod_upper_bound (d (_mt s)) 101). lia. }
  rewrite (E draw1), (E draw2). reflexivity.
Qed.

Lemma round_at_100 (s : Solver) :
  100 <= _backtrack_probability (config s) ->
  round solve draw1 s = round solve draw2 s.
Proof.
  intros H. unfold round.
  destruct (_stack s) as [| frame rest]; [reflexivity |]. cbv zeta.
  destruct (none (formulas frame)); [reflexivity |].
  destruct (_check_contradiction_rule (closure s) frame); [reflexivity |].
  destruct (_apply_conjunction_rule (closure s) frame) as [f1 a1].
  destruct (_apply_always_rule (closure s) f1) as [f2 a2].
  unfold beta_rules. cbv zeta.
  repeat match goal with
         | |- context [match (if ?b then ?x else None) with _ => _ end] =>
             destruct (if b then x else None)
         end; try reflexivity.
  destruct (a1 || a2); [reflexivity |].
  destruct (_should_use_sat_solver s f2); [reflexivity |].
  apply (after_rules_at_100 (set_top s f2)). exact H.
Qed.

Lemma run_at_100 :
  forall (fuel : nat) (s : Solver),
    100 <= _backtrack_probability (config s) ->
    run solve draw1 fuel s = run solve draw2 fuel s.
Proof.
  induction fuel as [| fuel IH]; intros s H; simpl; [reflexivity |].
  destruct (_stack s) eqn:Hs; [reflexivity |].
  rewrite (round_at_100 s H).
  pose proof (round_settled solve draw2 s) as Hr.
  destruct (round solve draw2 s) as [r s' | s' |]; try reflexivity.
  apply IH. simpl in Hr. destruct Hr as (_ & -> & _). exact H.
Qed.

Lemma solution_at_100 (fuel : nat) (s : Solver) :
  100 <= _backtrack_probability (config s) ->
  solution solve draw1 fuel s = solution solve draw2 fuel s.
Proof.
  intros H. unfold solution.
  destruct (State_eqb (_state s) RUNNING || State_eqb (_state s) DONE);
    [reflexivity |].
  apply run_at_100. destruct (State_eqb (_state s) PAUSED); exact H.
Qed.

End FullProbability.

(** ** Worked runs of the branching rules and of the depth bound *)

Lemma closure_running (s : Solver) : closure (running s) = closure s.
Proof. reflexivity. Qed.

Lemma branching_exclusive_kinds : exclusive_kinds (closure branching).
Proof.
  unfold branching. rewrite closure_running. unfold solver_on.
  apply Solver_new_exclusive_kinds.
Qed.

(** The lemma on [G ~p /\ F p]: the eventually rule fires on entry 4 of
    the first frame; entry 5 is its next-time formula. *)
Lemma branching_alternatives_on_eventually :
  exists (parent child child2 : Frame) (s' : Solver),
    beta_rules no_solver (constant_draw 0) branching branching_frame true
    = Continue s'
    /\ _stack s' = [child; parent]
    /\ type parent = CHOICE
    /\ choosenFormula parent = 4
    /\ formulas child
       = add_formulas (formulas branching_frame)
           (first_alternative (closure branching) Beta_eventually 4)
    /\ rollback no_solver (closure branching) [parent]
       = [child2; with_choosenFormula parent FormulaID_max]
    /\ formulas child2 = add_formulas (formulas branching_frame) [4 + 1]
    /\ x_skin (closure branching) 4 = Some (4 + 1)
    /\ rollback no_solver (closure branching)
         [with_choosenFormula parent FormulaID_max]
       = rollback no_solver (closure branching) [].
Proof.
  destruct (branching_alternatives no_solver (constant_draw 0) branching
              branching_frame true Beta_eventually 4 [])
    as (parent & child & s' & H0 & H1 & H2 & H3 & _ & _ & H4 & _ & _ & _
        & _ & H5).
  - repeat split; vm_compute; reflexivity.
  - destruct H5 as (child2 & R1 & R2 & R3).
    + apply branching_exclusive_kinds.
    + discriminate.
    + exists parent, child, child2, s'.
      repeat (split; [assumption |]).
      split; [vm_compute; reflexivity | assumption].
Qed.

(** Claim C3 on the code: the second alternative of a negated until.  In
    the closure of [~(p U q)] the entries 4 to 7 are [p U q], [~(p U q)],
    [X (p U q)] and [X ~(p U q)]; the X-skin of the negated until, entry 5,
    is entry 7.  The first round fires the not-until rule on entry 5 and
    pushes a child with the first alternative, [lhs[5]] and [rhs[5]], as
    the table says.  The first call of [solution] pauses with that CHOICE
    frame on the stack.  The second call starts by rolling back to it: the
    child pushed then has [rhs[5]] and the entry 6, because entry 6 is
    flagged [tomorrow]; but entry 6 is [X (p U q)], whose [_lhs] is 4 (the
    assertion [_lhs[i + 1] == i] next to that statement does not hold), and
    the X-skin, entry 7, is not asserted.  The call goes on to return a
    model whose second state satisfies [p U q]. *)
Theorem not_until_rollback_adds_wrong_skin :
  let c := closure not_until_solver in
  let first := top not_until_start in
  (nth_error (_subformulas c) 4 = Some (Until p q)
   /\ nth_error (_subformulas c) 5 = Some (Negation (Until p q))
   /\ nth_error (_subformulas c) 6 = Some (Tomorrow (Until p q))
   /\ nth_error (_subformulas c) 7 = Some (Tomorrow (Negation (Until p q))))
  /\ (N.testbit (not_until (_bitset c)) 5 = true
      /\ lhs_at c 5 = 1 /\ rhs_at c 5 = 3
      /\ N.testbit (tomorrow (_bitset c)) (5 + 1) = true
      /\ lhs_at c 6 = 4 /\ lhs_at c 7 = 5)
  /\ (x_skin c 5 = Some 7
      /\ alternative_on_rollback c Beta_not_until 5 = Some [3; 7]
      /\ rollback_skin c 5 = 6
      /\ added_on_rollback c Beta_not_until 5 = [3; 6])
  /\ match round no_solver (constant_draw 0) not_until_start with
     | Continue s1 =>
         map type (_stack s1) = [UNKNOWN; CHOICE]
         /\ map choosenFormula (_stack s1) = [FormulaID_max; 5]
         /\ map formulas (_stack s1)
            = [add_formulas (formulas first)
                 (first_alternative c Beta_not_until 5);
               formulas first]
     | _ => False
     end
  /\ (solution no_solver (constant_draw 0) 30 not_until_solver
      = Some (SATISFIABLE, not_until_paused)
      /\ _state not_until_paused = PAUSED
      /\ map type (_stack not_until_paused) = [UNKNOWN; STEP; CHOICE]
      /\ map choosenFormula (_stack not_until_paused)
         = [FormulaID_max; FormulaID_max; 5])
  /\ (let resumed :=
        _stack (_rollback_to_latest_choice no_solver not_until_paused) in
      map type resumed = [UNKNOWN; CHOICE]
      /\ map choosenFormula resumed = [FormulaID_max; FormulaID_max]
      /\ map formulas resumed
         = [add_formulas (formulas first) [3; 6]; formulas first]
      /\ map (fun f => N.testbit (formulas f) 7) resumed = [false; false])
  /\ match solution no_solver (constant_draw 0) 30 not_until_paused with
     | Some (r, s2) =>
         r = SATISFIABLE
         /\ model s2
            = Some (mkModel [[mkLiteral "q" false]; [mkLiteral "q" true]] 1)
         /\ map formulas (filter is_step (_stack s2))
            = [N.setbit (N.setbit 0 2) 4;
               add_formulas (formulas first) [3; 6]]
     | None => False
     end.
Proof.
  cbv zeta.
  repeat match goal with |- _ /\ _ => split end;
    vm_compute; repeat split; reflexivity.
Qed.


(** * More of the code

    Properties of the functions of the solver beyond the claims above. *)

(** ** Bitsets, position by position *)

Lemma any_spec (b : Bitset) :
  any b = true <-> exists i, N.testbit b i = true.
Proof.
  unfold any. rewrite negb_true_iff, N.eqb_neq. split.
  - intros H. exists (N.log2 b). apply N.bit_log2. exact H.
  - intros [i Hi] ->. rewrite N.bits_0 in Hi. discriminate.
Qed.

Lemma none_spec (b : Bitset) :
  none b = true <-> forall i, N.testbit b i = false.
Proof.
  unfold none. rewrite N.eqb_eq. split.
  - intros -> i. apply N.bits_0.
  - intros H. apply N.bits_inj. intros i. rewrite H, N.bits_0. reflexivity.
Qed.

Lemma positions_In (n i : N) : In i (positions n) <-> i < n.
Proof.
  unfold positions. rewrite in_map_iff. split.
  - intros (k & <- & Hk). apply in_seq in Hk. lia.
  - intros H. exists (N.to_nat i). split; [apply N2Nat.id |].
    apply in_seq. lia.
Qed.

Lemma positions_succ (n : nat) :
  positions (N.of_nat (S n)) = positions (N.of_nat n) ++ [N.of_nat n].
Proof.
  unfold positions. rewrite !Nat2N.id, seq_S, map_app. reflexivity.
Qed.

Lemma find_last {A : Type} (f : A -> bool) (l : list A) (x : A) :
  find f (l ++ [x])
  = match find f l with
    | Some y => Some y
    | None => if f x then Some x else None
    end.
Proof.
  induction l as [| h t IH]; simpl; [reflexivity |].
  destruct (f h); [reflexivity | exact IH].
Qed.

Lemma find_first_nat (n : nat) (b : Bitset) :
  match find_first (N.of_nat n) b with
  | Some i =>
      N.testbit b i = true /\ i < N.of_nat n
      /\ forall j, j < i -> N.testbit b j = false
  | None => forall j, j < N.of_nat n -> N.testbit b j = false
  end.
Proof.
  unfold find_first. induction n as [| n IH].
  - simpl. intros j Hj. lia.
  - rewrite positions_succ, find_last.
    destruct (find (N.testbit b) (positions (N.of_nat n))) as [i |].
    + destruct IH as (H1 & H2 & H3).
      split; [exact H1 |]. split; [lia | exact H3].
    + destruct (N.testbit b (N.of_nat n)) eqn:E.
      * split; [exact E |]. split; [lia | exact IH].
      * intros j Hj. destruct (N.eq_dec j (N.of_nat n)) as [-> | Hne];
          [exact E | apply IH; lia].
Qed.

Lemma find_first_least (n : N) (b : Bitset) :
  match find_first n b with
  | Some i =>
      N.testbit b i = true /\ i < n
      /\ forall j, j < i -> N.testbit b j = false
  | None => forall j, j < n -> N.testbit b j = false
  end.
Proof.
  pose proof (find_first_nat (N.to_nat n) b) as H.
  rewrite N2Nat.id in H. exact H.
Qed.

Lemma set_bits_In (n : N) (b : Bitset) (i : N) :
  In i (set_bits n b) <-> i < n /\ N.testbit b i = true.
Proof.
  unfold set_bits. rewrite filter_In, positions_In. reflexivity.
Qed.

(** ** The constructor *)

Section Constructor.

Variable type_rank : FormulaType -> N.
Variable simplify : Formula -> Formula.
Variable generate : Formula -> list Formula.
Variable count : Formula -> N.

Lemma _initialize_config (s : Solver) :
  config (_initialize type_rank simplify generate count s) = config s.
Proof.
  unfold _initialize. cbv zeta.
  destruct (build_luts type_rank _ _) as [fw bw].
  destruct (fold_left (build_clause type_rank count _) _ _)
    as [[sizes clauses] k].
  destruct (generate (simplify (_formula s))) as [| f [| g rest]];
    try destruct f; reflexivity.
Qed.

(** Property X1, the constructor.  [Solver::Solver] stores the backtrack
    probability and the maximum backtrack clamped to 100 and the minimum
    backtrack clamped to the stored maximum, so afterwards
    minimum <= maximum <= 100 and probability <= 100; the maximum depth and
    the SAT switch are stored as given, and [_initialize] changes none of
    them. *)
Theorem constructor_clamps (formula : Formula) (maximum_depth : FrameID)
    (backtrack_probability minimum_backtrack maximum_backtrack : N)
    (use_sat : bool) :
  let cfg := config (Solver_new type_rank simplify generate count formula
                       maximum_depth backtrack_probability minimum_backtrack
                       maximum_backtrack use_sat) in
  _backtrack_probability cfg = N.min backtrack_probability 100
  /\ _maximum_backtrack cfg = N.min maximum_backtrack 100
  /\ _minimum_backtrack cfg
     = N.min minimum_backtrack (N.min maximum_backtrack 100)
  /\ _minimum_backtrack cfg <= _maximum_backtrack cfg
  /\ _maximum_backtrack cfg <= 100
  /\ _backtrack_probability cfg <= 100
  /\ _maximum_depth cfg = maximum_depth
  /\ _use_sat_solver cfg = use_sat.
Proof.
  cbv zeta. unfold Solver_new. cbv zeta. rewrite _initialize_config. simpl.
  destruct (N.ltb_spec 100 backtrack_probability);
    destruct (N.ltb_spec 100 maximum_backtrack);
    match goal with
    | |- context [N.ltb ?a ?b] => destruct (N.ltb_spec a b)
    end; repeat split; lia.
Qed.

End Constructor.

(** ** The contradiction rule *)

(** Property X2, the contradiction rule.  [_check_contradiction_rule]
    answers true exactly when the frame asserts two consecutive entries
    [i] and [i + 1] of the closure and the entry [i + 1] is flagged as a
    negation. *)
Theorem contradiction_rule_spec (c : Closure) (frame : Frame) :
  _check_contradiction_rule c frame = true
  <-> exists i : FormulaID,
        N.testbit (negation (_bitset c)) (i + 1) = true
        /\ N.testbit (formulas frame) (i + 1) = true
        /\ N.testbit (formulas frame) i = true.
Proof.
  unfold _check_contradiction_rule. cbv zeta. rewrite any_spec.
  split; intros [i H]; exists i.
  - rewrite N.land_spec, N.shiftr_spec, N.land_spec in H by lia.
    apply andb_prop in H. destruct H as [H1 H3].
    apply andb_prop in H1. destruct H1 as [H1 H2]. auto.
  - destruct H as (H1 & H2 & H3).
    rewrite N.land_spec, N.shiftr_spec, N.land_spec by lia.
    rewrite H1, H2, H3. reflexivity.
Qed.

(** ** The branching macro *)

(** Property X3, the macro [APPLY_RULE].  Call an entry pending when the
    frame asserts it, the rule's bitset flags it and it is still to
    process.  If some entry below [_number_of_formulas] is pending the rule
    fires on the least one: that entry leaves [to_process], becomes the
    chosen formula, and the frame becomes a CHOICE frame with the same
    formulas; otherwise the rule does not fire. *)
Theorem apply_rule_picks_least (c : Closure) (rule : Bitset) (frame : Frame) :
  let pending (j : FormulaID) :=
    N.testbit (formulas frame) j && N.testbit rule j
    && N.testbit (to_process frame) j in
  match _apply_rule c rule frame with
  | Some fr =>
      exists i : FormulaID,
        i < _number_of_formulas c
        /\ pending i = true
        /\ (forall j, j < i -> pending j = false)
        /\ fr = with_type (with_choosenFormula (clear_to_process frame i) i)
                          CHOICE
        /\ choosenFormula fr = i
        /\ N.testbit (to_process fr) i = false
        /\ formulas fr = formulas frame
  | None => forall j, j < _number_of_formulas c -> pending j = false
  end.
Proof.
  cbv zeta. unfold _apply_rule. cbv zeta.
  pose proof (find_first_least (_number_of_formulas c)
                (N.land (N.land (formulas frame) rule) (to_process frame)))
    as H.
  destruct (find_first _ _) as [i |].
  - destruct H as (H1 & H2 & H3). exists i.
    rewrite !N.land_spec in H1.
    repeat split; auto.
    + intros j Hj. specialize (H3 j Hj). rewrite !N.land_spec in H3.
      exact H3.
    + simpl. rewrite N.clearbit_eqb, N.eqb_refl. apply andb_false_r.
  - intros j Hj. specialize (H j Hj). rewrite !N.land_spec in H. exact H.
Qed.

(** ** The alpha rules *)

Section AlphaFold.

Variables first second : FormulaID -> FormulaID.

Local Abbreviation step :=
  (fun (fr : Frame) (one : N) =>
     clear_to_process
       (set_formula (set_formula fr (first one)) (second one)) one).

Lemma alpha_fold_formulas :
  forall (l : list N) (fr : Frame) (k : N),
    N.testbit (formulas (fold_left step l fr)) k
    = N.testbit (formulas fr) k
      || existsb (fun one => N.eqb (first one) k || N.eqb (second one) k) l.
Proof.
  induction l as [| one l IH]; intros fr k; simpl.
  - rewrite orb_false_r. reflexivity.
  - rewrite IH. simpl. rewrite !N.setbit_eqb.
    destruct (N.eqb (first one) k), (N.eqb (second one) k),
      (N.testbit (formulas fr) k); reflexivity.
Qed.

Lemma alpha_fold_to_process :
  forall (l : list N) (fr : Frame) (k : N),
    N.testbit (to_process (fold_left step l fr)) k
    = N.testbit (to_process fr) k && negb (existsb (N.eqb k) l).
Proof.
  induction l as [| one l IH]; intros fr k; simpl.
  - rewrite andb_true_r. reflexivity.
  - rewrite IH. simpl. rewrite N.clearbit_eqb.
    rewrite (N.eqb_sym one k).
    destruct (N.eqb k one), (N.testbit (to_process fr) k),
      (existsb (N.eqb k) l); reflexivity.
Qed.

Lemma alpha_fold_rest :
  forall (l : list N) (fr : Frame),
    eventualities (fold_left step l fr) = eventualities fr
    /\ id (fold_left step l fr) = id fr
    /\ choosenFormula (fold_left step l fr) = choosenFormula fr
    /\ type (fold_left step l fr) = type fr
    /\ chain (fold_left step l fr) = chain fr.
Proof.
  induction l as [| one l IH]; intros fr; simpl; [auto |].
  destruct (IH (step fr one)) as (H1 & H2 & H3 & H4 & H5).
  rewrite H1, H2, H3, H4, H5. repeat split.
Qed.

Lemma alpha_fold_effect (n : N) (tmp : Bitset) (frame : Frame) :
  let fr := fold_left step (set_bits n tmp) frame in
  (forall k,
      N.testbit (formulas fr) k = true
      <-> N.testbit (formulas frame) k = true
          \/ exists one, one < n /\ N.testbit tmp one = true
                         /\ (first one = k \/ second one = k))
  /\ (forall k,
         N.testbit (to_process fr) k = true
         <-> N.testbit (to_process frame) k = true
             /\ ~ (k < n /\ N.testbit tmp k = true)).
Proof.
  cbv zeta. split; intros k.
  - rewrite alpha_fold_formulas, orb_true_iff, existsb_exists.
    split; (intros [H | H]; [left; exact H | right]).
    + destruct H as (one & Hin & Hk). apply set_bits_In in Hin.
      exists one. apply orb_prop in Hk. rewrite !N.eqb_eq in Hk. tauto.
    + destruct H as (one & H1 & H2 & Hk). exists one.
      split; [apply set_bits_In; auto |].
      apply orb_true_iff. rewrite !N.eqb_eq. exact Hk.
  - rewrite alpha_fold_to_process, andb_true_iff, negb_true_iff.
    rewrite <- not_true_iff_false, existsb_exists.
    split; intros [H1 H2]; (split; [exact H1 |]); intros H; apply H2.
    + exists k. split; [apply set_bits_In; exact H | apply N.eqb_refl].
    + destruct H as (one & Hin & Hk). apply N.eqb_eq in Hk. subst one.
      apply set_bits_In. exact Hin.
Qed.

End AlphaFold.

(** Property X4, the conjunction rule.  Call a conjunction pending when
    the frame asserts it and it is still to process.
    [_apply_conjunction_rule] answers whether there is one; afterwards the
    frame asserts what it asserted and both operands of every pending
    conjunction, the pending conjunctions have left [to_process], and
    nothing else of the frame has changed. *)
Theorem conjunction_rule_effect (c : Closure) (frame : Frame) :
  let pending :=
    N.land (N.land (formulas frame) (conjunction (_bitset c)))
           (to_process frame) in
  let fr := fst (_apply_conjunction_rule c frame) in
  snd (_apply_conjunction_rule c frame) = any pending
  /\ (forall k,
         N.testbit (formulas fr) k = true
         <-> N.testbit (formulas frame) k = true
             \/ exists one, one < _number_of_formulas c
                            /\ N.testbit pending one = true
                            /\ (lhs_at c one = k \/ rhs_at c one = k))
  /\ (forall k,
         N.testbit (to_process fr) k = true
         <-> N.testbit (to_process frame) k = true
             /\ ~ (k < _number_of_formulas c
                   /\ N.testbit pending k = true))
  /\ eventualities fr = eventualities frame
  /\ id fr = id frame
  /\ choosenFormula fr = choosenFormula frame
  /\ type fr = type frame
  /\ chain fr = chain frame.
Proof.
  cbv zeta. unfold _apply_conjunction_rule. cbv zeta.
  set (pending := N.land (N.land (formulas frame) (conjunction (_bitset c)))
                         (to_process frame)).
  destruct (any pending) eqn:E; simpl.
  - split; [reflexivity |].
    destruct (alpha_fold_effect (lhs_at c) (rhs_at c)
                (_number_of_formulas c) pending frame) as [H1 H2].
    split; [exact H1 |]. split; [exact H2 |].
    apply alpha_fold_rest.
  - split; [reflexivity |].
    assert (Hz : forall i, N.testbit pending i = false).
    { intros i. destruct (N.testbit pending i) eqn:Hi; [| reflexivity].
      assert (any pending = true) by (apply any_spec; eauto). congruence. }
    split; [| split; [| repeat split]].
    + intros k. split; [auto |]. intros [H | (one & _ & H & _)]; [exact H |].
      rewrite Hz in H. discriminate.
    + intros k. split; [| tauto]. intros H. split; [exact H |].
      intros [_ H']. rewrite Hz in H'. discriminate.
Qed.

(** Property X5, the always rule.  [_apply_always_rule] answers whether
    an always formula is pending; afterwards the frame asserts what it
    asserted and, for every pending entry [i], its operand and the entry
    [i + 1] (its next-time formula); the pending entries have left
    [to_process], and nothing else of the frame has changed. *)
Theorem always_rule_effect (c : Closure) (frame : Frame) :
  let pending :=
    N.land (N.land (formulas frame) (always (_bitset c)))
           (to_process frame) in
  let fr := fst (_apply_always_rule c frame) in
  snd (_apply_always_rule c frame) = any pending
  /\ (forall k,
         N.testbit (formulas fr) k = true
         <-> N.testbit (formulas frame) k = true
             \/ exists one, one < _number_of_formulas c
                            /\ N.testbit pending one = true
                            /\ (lhs_at c one = k \/ one + 1 = k))
  /\ (forall k,
         N.testbit (to_process fr) k = true
         <-> N.testbit (to_process frame) k = true
             /\ ~ (k < _number_of_formulas c
                   /\ N.testbit pending k = true))
  /\ eventualities fr = eventualities frame
  /\ id fr = id frame
  /\ choosenFormula fr = choosenFormula frame
  /\ type fr = type frame
  /\ chain fr = chain frame.
Proof.
  cbv zeta. unfold _apply_always_rule. cbv zeta.
  set (pending := N.land (N.land (formulas frame) (always (_bitset c)))
                         (to_process frame)).
  destruct (any pending) eqn:E; simpl.
  - split; [reflexivity |].
    destruct (alpha_fold_effect (lhs_at c) (fun one => one + 1)
                (_number_of_formulas c) pending frame) as [H1 H2].
    split; [exact H1 |]. split; [exact H2 |].
    apply (alpha_fold_rest (lhs_at c) (fun one => one + 1)).
  - split; [reflexivity |].
    assert (Hz : forall i, N.testbit pending i = false).
    { intros i. destruct (N.testbit pending i) eqn:Hi; [| reflexivity].
      assert (any pending = true) by (apply any_spec; eauto). congruence. }
    split; [| split; [| repeat split]].
    + intros k. split; [auto |]. intros [H | (one & _ & H & _)]; [exact H |].
      rewrite Hz in H. discriminate.
    + intros k. split; [| tauto]. intros H. split; [exact H |].
      intros [_ H']. rewrite Hz in H'. discriminate.
Qed.

(** ** The shape of the stack is kept *)

Lemma setbit_nonzero (b i : N) : N.setbit b i <> 0.
Proof.
  intros H. assert (E : N.testbit (N.setbit b i) i = true)
    by apply N.setbit_eq.
  rewrite H, N.bits_0 in E. discriminate.
Qed.

Lemma extends_refl (f : Frame) : extends f f.
Proof. repeat split; auto. Qed.

Lemma extends_trans (f g h : Frame) :
  extends f g -> extends g h -> extends f h.
Proof.
  intros (A1 & A2 & A3) (B1 & B2 & B3). repeat split; try congruence. auto.
Qed.

Lemma extends_set_formula (f : Frame) (i : N) : extends f (set_formula f i).
Proof. repeat split. intros _. apply setbit_nonzero. Qed.

Lemma placed_extends (f g : Frame) (below : list Frame) :
  placed f below -> extends f g -> placed g below.
Proof.
  intros (P1 & P2 & P3) (E1 & E2 & E3). repeat split; try congruence. auto.
Qed.

Lemma extends_fold {A : Type} (step : Frame -> A -> Frame) :
  (forall f x, extends f (step f x)) ->
  forall (l : list A) (f : Frame), extends f (fold_left step l f).
Proof.
  intros Hs. induction l as [| x l IH]; intros f; simpl;
    [apply extends_refl |].
  apply (extends_trans _ (step f x)); [apply Hs | apply IH].
Qed.

Lemma type_fold {A : Type} (step : Frame -> A -> Frame) :
  (forall f x, type (step f x) = type f) ->
  forall (l : list A) (f : Frame), type (fold_left step l f) = type f.
Proof.
  intros Hs. induction l as [| x l IH]; intros f; simpl; [reflexivity |].
  rewrite IH. apply Hs.
Qed.

Lemma chain_fold {A : Type} (step : Frame -> A -> Frame) :
  (forall f x, chain (step f x) = chain f) ->
  forall (l : list A) (f : Frame), chain (fold_left step l f) = chain f.
Proof.
  intros Hs. induction l as [| x l IH]; intros f; simpl; [reflexivity |].
  rewrite IH. apply Hs.
Qed.

Lemma sat_extract_fold_extends (c : Closure) (value : N -> bool) :
  forall (lits : list N) (acc : Frame * Clause),
    extends (fst acc) (fst (fold_left
      (fun (acc : Frame * Clause) (l : N) =>
         if value l then (set_formula (fst acc) l, snd acc ++ [mkLit l true])
         else if negative_slot c l then
           (set_formula (fst acc) (l + 1), snd acc ++ [mkLit l false])
         else acc) lits acc))
    /\ type (fst (fold_left
      (fun (acc : Frame * Clause) (l : N) =>
         if value l then (set_formula (fst acc) l, snd acc ++ [mkLit l true])
         else if negative_slot c l then
           (set_formula (fst acc) (l + 1), snd acc ++ [mkLit l false])
         else acc) lits acc)) = type (fst acc).
Proof.
  induction lits as [| l lits IH]; intros acc; simpl.
  - split; [apply extends_refl | reflexivity].
  - destruct (value l); [| destruct (negative_slot c l)].
    + destruct (IH (set_formula (fst acc) l, snd acc ++ [mkLit l true]))
        as [H1 H2].
      split; [| exact H2].
      apply (extends_trans _ (set_formula (fst acc) l));
        [apply extends_set_formula | exact H1].
    + destruct (IH (set_formula (fst acc) (l + 1),
                    snd acc ++ [mkLit l false])) as [H1 H2].
      split; [| exact H2].
      apply (extends_trans _ (set_formula (fst acc) (l + 1)));
        [apply extends_set_formula | exact H1].
    + apply IH.
Qed.

Lemma sat_extract_extends (c : Closure) (value : N -> bool) (lits : list N)
    (nf : Frame) :
  extends nf (fst (sat_extract c value lits nf))
  /\ type (fst (sat_extract c value lits nf)) = type nf.
Proof.
  unfold sat_extract.
  apply (sat_extract_fold_extends c value lits (nf, [])).
Qed.

Lemma sat_extract_fold_grows (c : Closure) (value : N -> bool) (k : N) :
  forall (lits : list N) (acc : Frame * Clause),
    N.testbit (formulas (fst acc)) k = true ->
    N.testbit (formulas (fst (fold_left
      (fun (acc : Frame * Clause) (l : N) =>
         if value l then (set_formula (fst acc) l, snd acc ++ [mkLit l true])
         else if negative_slot c l then
           (set_formula (fst acc) (l + 1), snd acc ++ [mkLit l false])
         else acc) lits acc))) k = true.
Proof.
  induction lits as [| l lits IH]; intros acc H; simpl; [exact H |].
  apply IH. destruct (value l); [| destruct (negative_slot c l)]; simpl;
    rewrite ?N.setbit_eqb, ?H, ?orb_true_r; reflexivity.
Qed.

Lemma sat_extract_grows (c : Closure) (value : N -> bool) (lits : list N)
    (nf : Frame) (k : N) :
  N.testbit (formulas nf) k = true ->
  N.testbit (formulas (fst (sat_extract c value lits nf))) k = true.
Proof.
  intros H. unfold sat_extract.
  apply (sat_extract_fold_grows c value k lits (nf, [])). exact H.
Qed.

Lemma second_alternative_extends (c : Closure) (top : Frame) :
  extends top (second_alternative c top)
  /\ type (second_alternative c top) = UNKNOWN.
Proof.
  unfold second_alternative. cbv zeta.
  repeat match goal with
         | |- context [if ?b then _ else _] => destruct b
         end;
    (split; [| reflexivity]); repeat split;
    try (intros _; apply setbit_nonzero); auto.
Qed.

Lemma anchor_parked (p : Frame) (below : list Frame) :
  is_step p = false ->
  anchor (p :: below) = anchor below /\ time_of (p :: below) = time_of below.
Proof. intros H. simpl. rewrite H. auto. Qed.

(** A copy of a frame, pushed on it once it is a CHOICE or SAT frame. *)
Lemma push_on_parked (parent parent' child : Frame) (below : list Frame) :
  well_stacked below -> Forall parked below ->
  placed parent below ->
  extends parent parent' -> extends parent child ->
  is_step parent' = false -> parked parent' ->
  type child = UNKNOWN ->
  search_stack (child :: parent' :: below).
Proof.
  intros Hw Hp Hpl E1 E2 Hs Hpk Ht.
  destruct (anchor_parked parent' below Hs) as [A1 A2].
  split; [| split; [exact Ht | constructor; assumption]].
  split; [| split; [apply (placed_extends parent); assumption | exact Hw]].
  destruct (placed_extends _ _ _ Hpl E2) as (P1 & P2 & P3).
  unfold placed. rewrite A1, A2. auto.
Qed.

Section ShapeKept.

Variable solve : list Clause -> option (N -> bool).
Variable draw : N -> N.

Lemma rollback_search (c : Closure) :
  forall stack : list Frame,
    well_stacked stack -> Forall parked (tl stack) ->
    search_stack (rollback solve c stack).
Proof.
  induction stack as [| top below IH]; intros Hw Hp; simpl.
  - split; exact I.
  - simpl in Hw, Hp. destruct Hw as [Hpl Hw].
    assert (Hnext : search_stack (rollback solve c below)).
    { apply IH; [exact Hw |]. destruct below; [constructor |].
      inversion Hp; assumption. }
    destruct (FrameType_eqb (type top) CHOICE
              && negb (N.eqb (choosenFormula top) FormulaID_max)) eqn:E.
    + apply andb_prop in E. destruct E as [E _].
      destruct (second_alternative_extends c top) as [X1 X2].
      apply (push_on_parked top _ _ below Hw Hp Hpl).
      * repeat split; auto.
      * exact X1.
      * unfold is_step. simpl. destruct (type top); try discriminate.
        reflexivity.
      * unfold parked. simpl. destruct (type top); discriminate.
      * exact X2.
    + destruct (FrameType_eqb (type top) SAT) eqn:E2; [| exact Hnext].
      destruct (solve (clauses_of top)) as [value |]; [| exact Hnext].
      destruct (sat_extract_extends c value (literals top) (Frame_copy top))
        as [X1 X2].
      destruct (sat_extract c value (literals top) (Frame_copy top))
        as [nf blocking].
      simpl in X1, X2.
      apply (push_on_parked top _ _ below Hw Hp Hpl).
      * repeat split; auto.
      * apply (extends_trans _ (Frame_copy top)); [| exact X1].
        repeat split; auto.
      * unfold is_step. simpl. destruct (type top); try discriminate.
        reflexivity.
      * unfold parked. simpl. destruct (type top); discriminate.
      * exact X2.
Qed.

Lemma anchor_frame :
  forall (below pre : list Frame) (k : N),
    anchor below = Some k ->
    exists a, frame_at (pre ++ below) k = Some a /\ In a below
              /\ is_step a = true.
Proof.
  induction below as [| f rest IH]; intros pre k H; simpl in H;
    [discriminate |].
  destruct (is_step f) eqn:E.
  - injection H as <-. exists f.
    split; [| split; [left; reflexivity | exact E]].
    unfold frame_at, vlength. rewrite Nat2N.id.
    rewrite rev_app_distr. simpl. rewrite <- app_assoc.
    rewrite nth_error_app2 by (rewrite length_rev; lia).
    rewrite length_rev, Nat.sub_diag. reflexivity.
  - destruct (IH (pre ++ [f]) k H) as (a & H1 & H2 & H3).
    exists a. rewrite <- app_assoc in H1. simpl in H1.
    split; [exact H1 |]. split; [right; exact H2 | exact H3].
Qed.

Lemma rollback_shaped (s : Solver) (frame : Frame) (below : list Frame) :
  _stack s = frame :: below ->
  well_stacked (frame :: below) -> Forall parked below ->
  shaped (Continue (_rollback_to_latest_choice solve s)).
Proof.
  intros Hs Hw Hp. unfold shaped, _rollback_to_latest_choice.
  destruct s as [cfg fm c st res ls stk mt]. cbn [_stack with_stack] in *.
  subst stk. apply rollback_search; assumption.
Qed.

Lemma set_top_stack (s : Solver) (top f : Frame) (below : list Frame) :
  _stack s = top :: below -> _stack (set_top s f) = f :: below.
Proof. intros H. unfold set_top. simpl. rewrite H. reflexivity. Qed.

Lemma step_rule_shaped (s : Solver) (frame : Frame) (below : list Frame) :
  _stack s = frame :: below ->
  search_stack (frame :: below) ->
  shaped (step_rule solve s frame).
Proof.
  intros Hs ((Hpl & Hw) & Ht & Hp). unfold step_rule.
  destruct (N.leb (_maximum_depth (config s)) (id frame)).
  - apply (rollback_shaped s frame below Hs); [split; assumption | exact Hp].
  - simpl. rewrite Hs. simpl.
    destruct Hpl as (P1 & P2 & P3).
    split; [| split].
    + split; [| split; [repeat split; assumption | exact Hw]].
      unfold placed, step_frame. cbv zeta.
      rewrite chain_fold
        by (intros f x; destruct (N.testbit _ x); reflexivity).
      rewrite fold_left_id
        by (intros f x; destruct (N.testbit _ x); reflexivity).
      simpl. unfold is_step. simpl. repeat split; [lia | discriminate].
    + unfold step_frame. cbv zeta. apply type_fold.
      intros f x. destruct (N.testbit _ x); reflexivity.
    + constructor; [unfold parked; simpl; discriminate | exact Hp].
Qed.

Lemma after_rules_shaped (s : Solver) (frame : Frame) (below : list Frame) :
  _stack s = frame :: below ->
  search_stack (frame :: below) ->
  shaped (after_rules solve draw s frame).
Proof.
  intros Hs Hsearch. unfold after_rules. cbv zeta.
  set (f1 := _update_eventualities_satisfaction (closure s) frame).
  set (s1 := with_mt (set_top s f1) (N.succ (_mt (set_top s f1)))).
  assert (Hs1 : _stack s1 = f1 :: below) by (simpl; rewrite Hs; reflexivity).
  assert (H1 : search_stack (f1 :: below)).
  { destruct Hsearch as ((Hpl & Hw) & Ht & Hp).
    split; [split; [| exact Hw] | split; [exact Ht | exact Hp]].
    apply (placed_extends frame); [exact Hpl |]. repeat split; auto. }
  match goal with |- context [if ?b then _ else _] => destruct b end.
  - apply (step_rule_shaped s1 f1 below Hs1 H1).
  - match goal with |- context [lookback ?a ?b ?c ?d ?e] =>
      destruct (lookback a b c d e) end.
    + simpl. rewrite Hs. exact H1.
    + destruct H1 as (Hw1 & _ & Hp1).
      apply (rollback_shaped s1 f1 below Hs1); assumption.
    + apply (step_rule_shaped s1 f1 below Hs1 H1).
Qed.

Lemma sat_bridge_shaped (s : Solver) (frame : Frame) (below : list Frame) :
  _stack s = frame :: below ->
  search_stack (frame :: below) ->
  shaped (sat_bridge solve s frame).
Proof.
  intros Hs ((Hpl & Hw) & Ht & Hp). unfold sat_bridge. cbv zeta.
  match goal with |- context [fold_left ?g ?l frame] =>
    assert (Hc : extends frame (fold_left g l frame))
      by (apply extends_fold; intros f x;
          destruct (N.testbit _ x); repeat split; auto);
    set (cleared := fold_left g l frame) in *
  end.
  match goal with |- context [solve ?x] => destruct (solve x) as [value |] end.
  - match goal with |- context [sat_extract ?a ?b ?c ?d] =>
      destruct (sat_extract_extends a b c d) as [X1 X2];
      destruct (sat_extract a b c d) as [nf blocking]
    end.
    simpl in X1, X2. simpl. rewrite Hs. simpl.
    apply (push_on_parked frame _ _ below Hw Hp Hpl).
    + apply (extends_trans _ cleared); [exact Hc |]. repeat split; auto.
    + apply (extends_trans _ cleared); [exact Hc |].
      match type of X1 with extends ?m _ =>
        apply (extends_trans _ m); [| exact X1] end.
      repeat split; auto.
    + reflexivity.
    + unfold parked. simpl. discriminate.
    + exact X2.
  - eapply rollback_shaped;
      [apply (set_top_stack _ _ _ _ Hs) | | exact Hp].
    split; [| exact Hw]. apply (placed_extends frame); [exact Hpl |].
    apply (extends_trans _ cleared); [exact Hc |]. repeat split; auto.
Qed.

Lemma _apply_conjunction_rule_extends (c : Closure) (frame : Frame) :
  extends frame (fst (_apply_conjunction_rule c frame))
  /\ type (fst (_apply_conjunction_rule c frame)) = type frame.
Proof.
  unfold _apply_conjunction_rule. cbv zeta.
  destruct (any _); simpl; [| split; [apply extends_refl | reflexivity]].
  split; [apply extends_fold | apply type_fold]; intros f x;
    [| reflexivity].
  repeat split. intros _. apply setbit_nonzero.
Qed.

Lemma _apply_always_rule_extends (c : Closure) (frame : Frame) :
  extends frame (fst (_apply_always_rule c frame))
  /\ type (fst (_apply_always_rule c frame)) = type frame.
Proof.
  unfold _apply_always_rule. cbv zeta.
  destruct (any _); simpl; [| split; [apply extends_refl | reflexivity]].
  split; [apply extends_fold | apply type_fold]; intros f x;
    [| reflexivity].
  repeat split. intros _. apply setbit_nonzero.
Qed.

Lemma _apply_rule_extends (c : Closure) (rule : Bitset) (frame fr : Frame) :
  _apply_rule c rule frame = Some fr ->
  extends frame fr /\ type fr = CHOICE.
Proof.
  unfold _apply_rule. cbv zeta.
  destruct (find_first _ _); [| discriminate].
  intros H. injection H as <-. repeat split; auto.
Qed.

Lemma extends_child (f : Frame) (x : N) :
  extends f (set_formula (Frame_copy f) x).
Proof. repeat split. intros _. apply setbit_nonzero. Qed.

Lemma extends_requested (f : Frame) (evs : list Eventuality) :
  extends f (with_eventualities f evs).
Proof. repeat split; auto. Qed.

Lemma beta_rules_shaped (s : Solver) (frame top : Frame)
    (below : list Frame) (applied : bool) :
  _stack s = top :: below ->
  search_stack (frame :: below) ->
  shaped (beta_rules solve draw s frame applied).
Proof.
  intros Hs Hsearch.
  pose proof Hsearch as ((Hpl & Hw) & Ht & Hp).
  assert (push_ok : forall fr parent child,
             extends frame fr -> type fr = CHOICE ->
             extends fr parent -> type parent = type fr ->
             extends parent child -> type child = UNKNOWN ->
             search_stack (_stack (push (set_top s parent) child))).
  { intros fr parent child E1 T1 E2 T2 E3 T3. simpl. rewrite Hs. simpl.
    apply (push_on_parked frame _ _ below Hw Hp Hpl).
    - apply (extends_trans _ fr); assumption.
    - apply (extends_trans _ fr); [assumption |].
      apply (extends_trans _ parent); assumption.
    - unfold is_step. rewrite T2, T1. reflexivity.
    - unfold parked. rewrite T2, T1. discriminate.
    - exact T3. }
  unfold beta_rules. cbv zeta.
  destruct (if negb (_should_use_sat_solver s frame)
            then _apply_disjunction_rule (closure s) frame else None)
    as [fr |] eqn:E1.
  { assert (Hfr : extends frame fr /\ type fr = CHOICE).
    { destruct (negb _); [| discriminate].
      apply (_apply_rule_extends _ _ _ _ E1). }
    destruct Hfr as [Hx Hty].
    apply (push_ok fr); auto;
      [apply extends_refl | apply extends_child]. }
  destruct (if _has_eventually (closure s)
            then _apply_eventually_rule (closure s) frame else None)
    as [fr |] eqn:E2.
  { assert (Hfr : extends frame fr /\ type fr = CHOICE).
    { destruct (_has_eventually _); [| discriminate].
      apply (_apply_rule_extends _ _ _ _ E2). }
    destruct Hfr as [Hx Hty].
    apply (push_ok fr); auto;
      [apply extends_requested | apply extends_child]. }
  destruct (if _has_until (closure s)
            then _apply_until_rule (closure s) frame else None)
    as [fr |] eqn:E3.
  { assert (Hfr : extends frame fr /\ type fr = CHOICE).
    { destruct (_has_until _); [| discriminate].
      apply (_apply_rule_extends _ _ _ _ E3). }
    destruct Hfr as [Hx Hty].
    apply (push_ok fr); auto;
      [apply extends_requested | apply extends_child]. }
  destruct (if _has_not_until (closure s)
            then _apply_not_until_rule (closure s) frame else None)
    as [fr |] eqn:E4.
  { assert (Hfr : extends frame fr /\ type fr = CHOICE).
    { destruct (_has_not_until _); [| discriminate].
      apply (_apply_rule_extends _ _ _ _ E4). }
    destruct Hfr as [Hx Hty].
    apply (push_ok fr); auto; [apply extends_requested |].
    repeat split. intros _. apply setbit_nonzero. }
  pose proof (set_top_stack s top frame below Hs) as Hst.
  destruct applied; [simpl; rewrite Hs; exact Hsearch |].
  destruct (_should_use_sat_solver s frame).
  - pose proof (sat_bridge_shaped (set_top s frame) frame below Hst Hsearch)
      as H.
    unfold sat_bridge in *. simpl in *. rewrite Hs in *. exact H.
  - pose proof (after_rules_shaped (set_top s frame) frame below Hst Hsearch)
      as H.
    unfold after_rules in *. simpl in *. rewrite Hs in *. exact H.
Qed.

Lemma round_shaped (s : Solver) :
  search_stack (_stack s) -> shaped (round solve draw s).
Proof.
  intros Hsearch. unfold round.
  destruct (_stack s) as [| frame below] eqn:Hs;
    [simpl; rewrite Hs; exact Hsearch |].
  cbv zeta. pose proof Hsearch as ((Hpl & Hw) & Ht & Hp).
  destruct (none (formulas frame)) eqn:En.
  - apply N.eqb_eq in En. destruct Hpl as (P1 & P2 & P3).
    destruct (anchor below) as [k |] eqn:Ea.
    + rewrite P1.
      destruct (anchor_frame below [frame] k Ea) as (a & Ha & _).
      simpl in Ha. rewrite Ha. simpl. rewrite Hs. exact Hsearch.
    + exfalso. apply P3; auto.
  - destruct (_check_contradiction_rule (closure s) frame).
    + apply (rollback_shaped s frame below Hs); [split; assumption | exact Hp].
    + destruct (_apply_conjunction_rule_extends (closure s) frame)
        as [X1 T1].
      destruct (_apply_conjunction_rule (closure s) frame) as [f1 a1].
      destruct (_apply_always_rule_extends (closure s) f1) as [X2 T2].
      destruct (_apply_always_rule (closure s) f1) as [f2 a2].
      simpl in *.
      apply (beta_rules_shaped s f2 frame below); [exact Hs |].
      split; [split; [| exact Hw] | split; [congruence | exact Hp]].
      apply (placed_extends frame); [exact Hpl |].
      apply (extends_trans _ f1); assumption.
Qed.

End ShapeKept.

(** ** The chain of a frame and the model read off the stack *)

Lemma time_of_count (l : list Frame) :
  time_of l = vlength (filter is_step l).
Proof.
  unfold vlength. induction l as [| f l IH]; simpl; [reflexivity |].
  destruct (is_step f); simpl; [| exact IH]. rewrite IH. lia.
Qed.

Lemma frame_at_middle (pre rest : list Frame) (f : Frame) :
  frame_at (pre ++ f :: rest) (vlength rest) = Some f.
Proof.
  unfold frame_at, vlength. rewrite Nat2N.id.
  rewrite rev_app_distr. simpl. rewrite <- app_assoc.
  rewrite nth_error_app2 by (rewrite length_rev; lia).
  rewrite length_rev, Nat.sub_diag. reflexivity.
Qed.

Lemma chain_frames_anchor :
  forall (below pre : list Frame) (fuel : nat),
    well_stacked below -> (List.length below <= fuel)%nat ->
    chain_frames fuel (pre ++ below) (anchor below) = filter is_step below.
Proof.
  induction below as [| f rest IH]; intros pre fuel Hw Hf; simpl.
  - destruct fuel; reflexivity.
  - simpl in Hw, Hf. destruct Hw as [(P1 & _) Hw].
    destruct (is_step f) eqn:E.
    + destruct fuel as [| fuel]; [lia |]. simpl.
      rewrite frame_at_middle. f_equal. rewrite P1.
      replace (pre ++ f :: rest) with ((pre ++ [f]) ++ rest)
        by (rewrite <- app_assoc; reflexivity).
      apply IH; [exact Hw | lia].
    + replace (pre ++ f :: rest) with ((pre ++ [f]) ++ rest)
        by (rewrite <- app_assoc; reflexivity).
      apply IH; [exact Hw | lia].
Qed.

Lemma step_ids_below :
  forall (below : list Frame) (a : Frame),
    well_stacked below -> In a below -> is_step a = true ->
    id a < time_of below.
Proof.
  induction below as [| f rest IH]; intros a Hw Ha Hs; [destruct Ha |].
  simpl in Hw. destruct Hw as [(_ & P2 & _) Hw]. simpl.
  destruct Ha as [<- | Ha].
  - rewrite Hs, P2. lia.
  - specialize (IH a Hw Ha Hs). destruct (is_step f); lia.
Qed.

Lemma lookback_loop_In (c : Closure) (frame : Frame) :
  forall (ancestors : list Frame) (r1 r2 : option Frame) (k : FrameID),
    lookback c frame ancestors r1 r2 = Loop k ->
    exists a, In a ancestors /\ k = id a.
Proof.
  induction ancestors as [| b rest IH]; intros r1 r2 k H; simpl in H.
  - destruct r1, r2; discriminate.
  - destruct (is_subset_of (formulas frame) (formulas b)).
    + destruct (all_satisfied c frame b).
      * injection H as <-. exists b. split; [left |]; reflexivity.
      * destruct (N.eqb (formulas frame) (formulas b));
          [destruct r1; [destruct r2 |] |];
          destruct (IH _ _ _ H) as (a & H1 & H2); exists a;
          (split; [right; exact H1 | exact H2]).
    + destruct (IH _ _ _ H) as (a & H1 & H2). exists a.
      split; [right; exact H1 | exact H2].
Qed.

Lemma removelast_snoc {A : Type} (l : list A) (x : A) :
  removelast (l ++ [x]) = l.
Proof. apply removelast_last. Qed.

Lemma filter_parked (below : list Frame) :
  Forall parked below ->
  filter (fun frame => negb (FrameType_eqb (type frame) CHOICE
                             || FrameType_eqb (type frame) SAT)) below
  = filter is_step below.
Proof.
  induction 1 as [| f l Hf _ IH]; simpl; [reflexivity |].
  rewrite IH. unfold parked in Hf. unfold is_step.
  destruct (type f); simpl; try reflexivity. congruence.
Qed.

(** The states [model] reads off a stack whose top is the frame under
    construction. *)
Lemma model_of_search_stack (s : Solver) (top : Frame) (below : list Frame) :
  _stack s = top :: below ->
  type top = UNKNOWN -> Forall parked below ->
  _state s = PAUSED -> _result s = SATISFIABLE ->
  exists m, model s = Some m
            /\ (_subformulas (closure s) = [True_]
                /\ m = mkModel [[mkLiteral top_name true]] 0
                \/ m = mkModel (map (state_of (closure s))
                                    (rev (filter is_step below)))
                               (_loop_state s)).
Proof.
  intros Hs Ht Hp Hst Hr. unfold model. rewrite Hst, Hr. simpl.
  assert (E : removelast
                (map (state_of (closure s))
                   (filter (fun frame =>
                              negb (FrameType_eqb (type frame) CHOICE
                                    || FrameType_eqb (type frame) SAT))
                           (rev (_stack s))))
              = map (state_of (closure s)) (rev (filter is_step below))).
  { rewrite Hs. simpl. rewrite filter_app. simpl. rewrite Ht. simpl.
    rewrite map_app. simpl. rewrite removelast_snoc.
    rewrite filter_rev, (filter_parked below Hp). reflexivity. }
  rewrite E.
  destruct (_subformulas (closure s)) as [| [] []]; eauto.
Qed.

Section Lasso.

Variable solve : list Clause -> option (N -> bool).
Variable draw : N -> N.

Lemma step_rule_continues (s : Solver) (frame : Frame) :
  exists s', step_rule solve s frame = Continue s'.
Proof.
  unfold step_rule. destruct (N.leb _ _); eauto.
Qed.

Lemma sat_bridge_continues (s : Solver) (frame : Frame) :
  exists s', sat_bridge solve s frame = Continue s'.
Proof.
  unfold sat_bridge. cbv zeta.
  destruct (solve _); [| eauto].
  destruct (sat_extract _ _ _ _). eauto.
Qed.

Lemma after_rules_returned (s : Solver) (frame : Frame) (r : Result)
    (s' : Solver) :
  after_rules solve draw s frame = Returned r s' ->
  exists k,
    lookback (closure s) (detector_frame s frame) (detector_chain s frame)
             None None = Loop k
    /\ s' = with_loop_state
              (with_state (with_result (detector_solver s frame) SATISFIABLE)
                          PAUSED) k.
Proof.
  unfold after_rules, detector_chain, detector_solver, detector_frame.
  cbv zeta. intros H.
  match type of H with (if ?b then _ else _) = _ => destruct b end.
  - destruct (step_rule_continues
                (with_mt
                   (set_top s
                      (_update_eventualities_satisfaction (closure s) frame))
                   (N.succ
                      (_mt
                         (set_top s
                            (_update_eventualities_satisfaction (closure s)
                               frame)))))
                (_update_eventualities_satisfaction (closure s) frame))
      as [s2 E].
    rewrite E in H. discriminate.
  - simpl in H.
    match type of H with
      match ?l with _ => _ end = _ => destruct l as [k | |] eqn:El
    end.
    + exists k. split; [exact El |]. injection H as _ <-. reflexivity.
    + discriminate.
    + match type of H with step_rule _ ?a ?b = _ =>
        destruct (step_rule_continues a b) as [s2 E] end.
      rewrite E in H. discriminate.
Qed.

Lemma beta_rules_returned (s : Solver) (frame : Frame) (applied : bool)
    (r : Result) (s' : Solver) :
  beta_rules solve draw s frame applied = Returned r s' ->
  after_rules solve draw s frame = Returned r s'.
Proof.
  unfold beta_rules. cbv zeta. intros H.
  repeat match type of H with
         | match ?o with Some _ => _ | None => _ end = _ =>
             destruct o; [discriminate |]
         end.
  destruct applied; [discriminate |].
  destruct (_should_use_sat_solver s frame); [| exact H].
  destruct (sat_bridge_continues s frame) as [s2 E].
  rewrite E in H. discriminate.
Qed.

Lemma round_lasso (s : Solver) (r : Result) (s' : Solver) :
  search_stack (_stack s) ->
  round solve draw s = Returned r s' ->
  exists m, model s' = Some m /\ lasso m.
Proof.
  intros Hsearch Hr. unfold round in Hr.
  destruct (_stack s) as [| frame below] eqn:Hs; [discriminate |].
  cbv zeta in Hr. pose proof Hsearch as ((Hpl & Hw) & Ht & Hp).
  destruct Hpl as (P1 & P2 & P3).
  destruct (none (formulas frame)) eqn:En.
  - destruct (anchor below) as [k |] eqn:Ea.
    + rewrite P1 in Hr.
      destruct (anchor_frame below [frame] k Ea) as (a & Ha & Hin & Hst).
      simpl in Ha. rewrite Ha in Hr. injection Hr as _ <-.
      destruct (model_of_search_stack
                  (with_loop_state
                     (with_result (with_state s PAUSED) SATISFIABLE) (id a))
                  frame below Hs Ht Hp eq_refl eq_refl)
        as (m & Hm & [[_ ->] | ->]); eexists; (split; [exact Hm |]);
        unfold lasso; simpl; [reflexivity |].
      unfold vlength. rewrite length_map, length_rev.
      pose proof (step_ids_below below a Hw Hin Hst) as Hlt.
      rewrite time_of_count in Hlt. exact Hlt.
    + rewrite P1 in Hr. discriminate.
  - destruct (_check_contradiction_rule (closure s) frame); [discriminate |].
    destruct (_apply_conjunction_rule_extends (closure s) frame)
      as [X1 T1].
    destruct (_apply_conjunction_rule (closure s) frame) as [f1 a1].
    destruct (_apply_always_rule_extends (closure s) f1) as [X2 T2].
    destruct (_apply_always_rule (closure s) f1) as [f2 a2].
    simpl in X1, T1, X2, T2.
    apply beta_rules_returned in Hr.
    apply after_rules_returned in Hr. destruct Hr as (k & Hl & ->).
    apply lookback_loop_In in Hl. destruct Hl as (a & Hin & ->).
    assert (Hc : chain (detector_frame s f2) = anchor below).
    { unfold detector_frame. simpl.
      destruct X1 as (C1 & _), X2 as (C2 & _). congruence. }
    assert (Hi : id (detector_frame s f2) = time_of below).
    { unfold detector_frame. simpl.
      destruct X1 as (_ & I1 & _), X2 as (_ & I2 & _). congruence. }
    unfold detector_chain in Hin. cbv zeta in Hin. rewrite Hs in Hin.
    simpl tl in Hin. rewrite Hc in Hin.
    rewrite (chain_frames_anchor below [detector_frame s f2]) in Hin
      by (auto; simpl; lia).
    apply filter_In in Hin. destruct Hin as [Hin Hst].
    destruct (model_of_search_stack
                (with_loop_state
                   (with_state
                      (with_result (detector_solver s f2) SATISFIABLE)
                      PAUSED) (id a))
                (detector_frame s f2) below)
      as (m & Hm & [[_ ->] | ->]);
      try reflexivity; try exact Hp.
    + simpl. rewrite Hs. reflexivity.
    + unfold detector_frame. simpl. congruence.
    + eexists. split; [exact Hm |]. unfold lasso. simpl. reflexivity.
    + eexists. split; [exact Hm |]. unfold lasso. simpl.
      unfold vlength. rewrite length_map, length_rev.
      pose proof (step_ids_below below a Hw Hin Hst) as Hlt.
      rewrite time_of_count in Hlt. exact Hlt.
Qed.

Lemma run_lasso :
  forall (fuel : nat) (s : Solver) (r : Result) (s' : Solver),
    search_stack (_stack s) ->
    run solve draw fuel s = Some (r, s') ->
    search_stack (_stack s')
    /\ (_state s' = PAUSED -> exists m, model s' = Some m /\ lasso m).
Proof.
  induction fuel as [| fuel IH]; intros s r s' Hsearch Hrun; simpl in Hrun;
    destruct (_stack s) as [| frame below] eqn:Hs; try discriminate.
  - injection Hrun as _ <-. split.
    + destruct (Result_eqb _ _); simpl; rewrite Hs; exact I || split; exact I.
    + destruct (Result_eqb _ _); simpl; discriminate.
  - injection Hrun as _ <-. split.
    + destruct (Result_eqb _ _); simpl; rewrite Hs; split; exact I.
    + destruct (Result_eqb _ _); simpl; discriminate.
  - rewrite <- Hs in Hsearch.
    pose proof (round_shaped solve draw s Hsearch) as Hsh.
    destruct (round solve draw s) as [r1 s1 | s1 |] eqn:Er;
      [| apply (IH s1 r s' Hsh Hrun) | discriminate].
    injection Hrun as <- <-. split; [exact Hsh |]. intros _.
    apply (round_lasso s r1 s1 Hsearch Er).
Qed.

Lemma solution_lasso (fuel : nat) (s : Solver) (r : Result) (s' : Solver) :
  search_stack (_stack s) ->
  solution solve draw fuel s = Some (r, s') ->
  search_stack (_stack s')
  /\ (_state s' = PAUSED -> exists m, model s' = Some m /\ lasso m).
Proof.
  intros Hsearch Hsol. unfold solution in Hsol.
  destruct (State_eqb (_state s) RUNNING || State_eqb (_state s) DONE) eqn:E.
  - injection Hsol as _ <-. split; [exact Hsearch |]. intros Hp.
    rewrite Hp in E. discriminate.
  - apply (run_lasso fuel _ r s') in Hsol; [exact Hsol |].
    destruct (State_eqb (_state s) PAUSED); [| exact Hsearch].
    simpl. destruct Hsearch as [Hw Hrest].
    apply rollback_search; [exact Hw |].
    destruct (_stack s) as [| top below]; [constructor | apply Hrest].
Qed.

End Lasso.

(** ** The STEP rule *)

Lemma conditional_fold_formulas (P : N -> bool) (g : N -> N) :
  forall (l : list N) (nf : Frame) (k : N),
    N.testbit
      (formulas (fold_left
         (fun (nf : Frame) (i : N) =>
            if P i then set_formula nf (g i) else nf) l nf)) k
    = N.testbit (formulas nf) k
      || existsb (fun i => P i && N.eqb (g i) k) l.
Proof.
  induction l as [| i l IH]; intros nf k; simpl.
  - rewrite orb_false_r. reflexivity.
  - rewrite IH. destruct (P i); simpl; [| reflexivity].
    rewrite N.setbit_eqb.
    destruct (N.eqb (g i) k), (N.testbit (formulas nf) k); reflexivity.
Qed.

Lemma conditional_fold_rest (P : N -> bool) (g : N -> N) :
  forall (l : list N) (nf : Frame),
    let fr := fold_left
                (fun (nf : Frame) (i : N) =>
                   if P i then set_formula nf (g i) else nf) l nf in
    to_process fr = to_process nf /\ eventualities fr = eventualities nf
    /\ id fr = id nf /\ choosenFormula fr = choosenFormula nf
    /\ type fr = type nf /\ chain fr = chain nf.
Proof.
  induction l as [| i l IH]; intros nf; simpl; [repeat split |].
  destruct (IH (if P i then set_formula nf (g i) else nf))
    as (H1 & H2 & H3 & H4 & H5 & H6).
  rewrite H1, H2, H3, H4, H5, H6. destruct (P i); repeat split.
Qed.

(** Property X6, the STEP rule.  The frame pushed by the STEP rule
    asserts exactly the operands of the next-time formulas its parent
    asserts; everything is to process again, the promises are inherited,
    the id is one more, and its chain is the position of the parent. *)
Theorem step_frame_effect (c : Closure) (frame : Frame) (position : N) :
  let fr := step_frame c frame position in
  (forall k,
      N.testbit (formulas fr) k = true
      <-> exists i, i < _number_of_formulas c
                    /\ N.testbit (formulas frame) i = true
                    /\ N.testbit (tomorrow (_bitset c)) i = true
                    /\ lhs_at c i = k)
  /\ to_process fr = set_all (_number_of_formulas c)
  /\ eventualities fr = eventualities frame
  /\ id fr = id frame + 1
  /\ choosenFormula fr = FormulaID_max
  /\ type fr = UNKNOWN
  /\ chain fr = Some position.
Proof.
  cbv zeta. unfold step_frame. cbv zeta. split.
  - intros k. rewrite conditional_fold_formulas.
    cbn [formulas Frame_step]. rewrite N.bits_0. cbn [orb].
    rewrite existsb_exists. split.
    + intros (i & Hin & H). apply positions_In in Hin.
      apply andb_prop in H. destruct H as [H1 H2].
      rewrite N.land_spec in H1. apply andb_prop in H1.
      apply N.eqb_eq in H2. exists i. tauto.
    + intros (i & H1 & H2 & H3 & H4). exists i.
      split; [apply positions_In; exact H1 |].
      rewrite N.land_spec, H2, H3. simpl. apply N.eqb_eq. exact H4.
  - match goal with |- context [fold_left ?f ?l ?nf] =>
      pose proof (conditional_fold_rest
        (N.testbit (N.land (formulas frame) (tomorrow (_bitset c))))
        (lhs_at c) l nf) as H
    end.
    cbv zeta in H. destruct H as (H1 & H2 & H3 & H4 & H5 & H6).
    rewrite H1, H2, H3, H4, H5, H6. repeat split.
Qed.

(** ** The promises *)

Lemma nth_positions (n i : nat) (d : N) :
  (i < n)%nat -> nth i (positions (N.of_nat n)) d = N.of_nat i.
Proof.
  intros H. unfold positions. rewrite Nat2N.id.
  rewrite (nth_indep _ d (N.of_nat 0))
    by (rewrite length_map, length_seq; exact H).
  rewrite map_nth, seq_nth by exact H. reflexivity.
Qed.

Lemma positions_length (n : N) : List.length (positions n) = N.to_nat n.
Proof. unfold positions. rewrite length_map, length_seq. reflexivity. Qed.

(** Property X7, the promises.  [_update_eventualities_satisfaction]
    keeps the number of promises; the promise [i] becomes satisfied at the
    id of the frame when the frame asserts the entry [_bw_eventualities_lut]
    gives for [i], whatever its state was, and is unchanged otherwise;
    nothing else of the frame changes. *)
Theorem update_eventualities_effect (c : Closure) (frame : Frame) :
  let fr := _update_eventualities_satisfaction c frame in
  vlength (eventualities fr) = vlength (eventualities frame)
  /\ (forall i,
         i < vlength (eventualities frame) ->
         vget Unrequested (eventualities fr) i
         = if N.testbit (formulas frame) (bw_at c i)
           then Satisfied (id frame)
           else vget Unrequested (eventualities frame) i)
  /\ formulas fr = formulas frame
  /\ to_process fr = to_process frame
  /\ id fr = id frame
  /\ type fr = type frame
  /\ chain fr = chain frame.
Proof.
  cbv zeta. unfold _update_eventualities_satisfaction, with_eventualities.
  cbn [eventualities formulas to_process id type chain].
  assert (Hlen : List.length
                   (combine (positions (vlength (eventualities frame)))
                            (eventualities frame))
                 = List.length (eventualities frame)).
  { rewrite length_combine, positions_length. unfold vlength.
    rewrite Nat2N.id. apply Nat.min_id. }
  split; [| split; [| repeat split]].
  - unfold vlength at 1. rewrite length_map, Hlen. reflexivity.
  - intros i Hi. unfold vget. unfold vlength in Hi.
    set (g := fun ie : N * Eventuality =>
                if N.testbit (formulas frame) (bw_at c (fst ie))
                then set_satisfied (id frame) (snd ie) else snd ie).
    rewrite (nth_indep _ Unrequested (g (0, Unrequested)))
      by (rewrite length_map, Hlen; lia).
    rewrite map_nth, combine_nth
      by (rewrite positions_length; unfold vlength;
          rewrite Nat2N.id; reflexivity).
    unfold vlength. rewrite nth_positions by lia.
    unfold g. simpl. rewrite N2Nat.id. reflexivity.
Qed.

(** ** The states of the model *)

Lemma Literal_eqb_eq (x y : Literal) : Literal_eqb x y = true <-> x = y.
Proof.
  unfold Literal_eqb. destruct x as [a p], y as [b q]. simpl.
  rewrite andb_true_iff, String.eqb_eq, Bool.eqb_true_iff.
  split; [intros [-> ->]; reflexivity | intros H; injection H; auto].
Qed.

Lemma insert_In (lit x : Literal) (state : list Literal) :
  In x (insert lit state) <-> x = lit \/ In x state.
Proof.
  unfold insert. destruct (existsb (Literal_eqb lit) state) eqn:E.
  - split; [auto |]. intros [-> | H]; [| exact H].
    apply existsb_exists in E. destruct E as (y & Hy & Hl).
    apply Literal_eqb_eq in Hl. subst y. exact Hy.
  - rewrite in_app_iff. simpl. intuition.
Qed.

Lemma insert_NoDup (lit : Literal) (state : list Literal) :
  NoDup state -> NoDup (insert lit state).
Proof.
  intros H. unfold insert.
  destruct (existsb (Literal_eqb lit) state) eqn:E; [exact H |].
  apply NoDup_app; [exact H | repeat constructor; intros [] |].
  intros x Hx [-> | []].
  assert (existsb (Literal_eqb x) state = true); [| congruence].
  apply existsb_exists. exists x. split; [exact Hx |].
  apply Literal_eqb_eq. reflexivity.
Qed.

Lemma state_fold (c : Closure) (frame : Frame) :
  forall (l : list N) (state : list Literal) (x : Literal),
    let out :=
      fold_left
        (fun (state : list Literal) (j : N) =>
           if N.testbit (formulas frame) j then
             match atom_name c j with
             | Some name => insert (mkLiteral name true) state
             | None =>
                 if N.testbit (negation (_bitset c)) j then
                   match atom_name c (lhs_at c j) with
                   | Some name => insert (mkLiteral name false) state
                   | None => state
                   end
                 else state
             end
           else state) l state in
    (In x out
     <-> In x state
         \/ exists j, In j l /\ N.testbit (formulas frame) j = true
                      /\ literal_of c j = Some x)
    /\ (NoDup state -> NoDup out).
Proof.
  induction l as [| j l IH]; intros state x; cbv zeta; simpl.
  - split; [| auto]. split; [auto |]. intros [H | (j & [] & _)]. exact H.
  - match goal with |- context [fold_left ?f l ?st] =>
      destruct (IH st x) as [H1 H2]
    end.
    cbv zeta in H1, H2. split.
    + rewrite H1. clear H1 H2. unfold literal_of.
      destruct (N.testbit (formulas frame) j) eqn:Ej.
      * destruct (atom_name c j) as [name |] eqn:Ea.
        -- rewrite insert_In. split.
           ++ intros [[-> | H] | (i & Hi & H)]; auto.
              ** right. exists j. rewrite Ea. auto.
              ** right. exists i. auto.
           ++ intros [H | (i & [<- | Hi] & Hb & H)]; auto.
              ** rewrite Ea in H. injection H as <-. auto.
              ** right. exists i. auto.
        -- destruct (N.testbit (negation (_bitset c)) j) eqn:En.
           ++ destruct (atom_name c (lhs_at c j)) as [name |] eqn:El.
              ** rewrite insert_In. split.
                 --- intros [[-> | H] | (i & Hi & H)]; auto.
                     +++ right. exists j. rewrite Ea, En, El. auto.
                     +++ right. exists i. auto.
                 --- intros [H | (i & [<- | Hi] & Hb & H)]; auto.
                     +++ rewrite Ea, En, El in H. injection H as <-. auto.
                     +++ right. exists i. auto.
              ** split.
                 --- intros [H | (i & Hi & H)]; auto. right. exists i. auto.
                 --- intros [H | (i & [<- | Hi] & Hb & H)]; auto.
                     +++ rewrite Ea, En, El in H. discriminate.
                     +++ right. exists i. auto.
           ++ split.
              ** intros [H | (i & Hi & H)]; auto. right. exists i. auto.
              ** intros [H | (i & [<- | Hi] & Hb & H)]; auto.
                 --- rewrite Ea, En in H. discriminate.
                 --- right. exists i. auto.
      * split.
        -- intros [H | (i & Hi & H)]; auto. right. exists i. auto.
        -- intros [H | (i & [<- | Hi] & Hb & H)]; auto.
           ++ congruence.
           ++ right. exists i. auto.
    + intros Hn. apply H2.
      destruct (N.testbit (formulas frame) j); [| exact Hn].
      destruct (atom_name c j); [apply insert_NoDup; exact Hn |].
      destruct (N.testbit (negation (_bitset c)) j); [| exact Hn].
      destruct (atom_name c (lhs_at c j)); [| exact Hn].
      apply insert_NoDup; exact Hn.
Qed.

(** Property X8, the state of a frame.  The state [model] builds for a
    frame holds the positive literal of every atom the frame asserts and
    the negative literal of the atom under every negation the frame
    asserts whose entry is not itself an atom, and nothing else; no literal
    occurs twice. *)
Theorem state_of_literals (c : Closure) (frame : Frame) (x : Literal) :
  (In x (state_of c frame)
   <-> exists j, j < _number_of_formulas c
                 /\ N.testbit (formulas frame) j = true
                 /\ literal_of c j = Some x)
  /\ NoDup (state_of c frame).
Proof.
  unfold state_of.
  destruct (state_fold c frame (positions (_number_of_formulas c)) [] x)
    as [H1 H2].
  cbv zeta in H1, H2. split; [| apply H2; constructor].
  rewrite H1. split.
  - intros [[] | (j & Hj & H)]. exists j. rewrite <- positions_In. auto.
  - intros (j & Hj & H). right. exists j. rewrite positions_In. auto.
Qed.

(** ** Rollback *)

Section Rollback.

Variable solve : list Clause -> option (N -> bool).

Lemma rollback_skips (c : Closure) (f : Frame) (rest : list Frame) :
  resumable solve f = false ->
  rollback solve c (f :: rest) = rollback solve c rest.
Proof.
  unfold resumable. intros H. simpl.
  apply orb_false_elim in H. destruct H as [H1 H2]. rewrite H1.
  destruct (FrameType_eqb (type f) SAT); [| reflexivity].
  simpl in H2. destruct (solve (clauses_of f)); [discriminate | reflexivity].
Qed.

Lemma rollback_stops (c : Closure) (f : Frame) (rest : list Frame) :
  resumable solve f = true ->
  exists (child : Frame) (l : list Frame),
    rollback solve c (f :: rest) = child :: l.
Proof.
  unfold resumable. intros H. simpl.
  destruct (FrameType_eqb (type f) CHOICE
            && negb (N.eqb (choosenFormula f) FormulaID_max)); [eauto |].
  simpl in H. apply andb_prop in H. destruct H as [Hs Hv]. rewrite Hs.
  destruct (solve (clauses_of f)); [| discriminate].
  destruct (sat_extract c _ (literals f) (Frame_copy f)). eauto.
Qed.

(** Property X9, rollback.  [_rollback_to_latest_choice] pops the frames
    that cannot be resumed and stops at the first that can: everything
    below that frame is untouched, the frame keeps its formulas and its
    kind, and a child is pushed on it with the same id and chain, asserting
    at least what the frame asserts.  A CHOICE frame resumed this way
    cannot be resumed again. *)
Theorem rollback_resumes_nearest (c : Closure)
    (popped : list Frame) (parent : Frame) (rest : list Frame) :
  Forall (fun f => resumable solve f = false) popped ->
  resumable solve parent = true ->
  exists child parent' : Frame,
    rollback solve c (popped ++ parent :: rest) = child :: parent' :: rest
    /\ id child = id parent /\ chain child = chain parent
    /\ type child = UNKNOWN
    /\ (forall k, N.testbit (formulas parent) k = true ->
                  N.testbit (formulas child) k = true)
    /\ formulas parent' = formulas parent
    /\ type parent' = type parent
    /\ (type parent = CHOICE -> resumable solve parent' = false).
Proof.
  intros Hpop Hres. induction Hpop as [| f popped Hf _ IH].
  - simpl app. unfold resumable in Hres. simpl.
    destruct (FrameType_eqb (type parent) CHOICE
              && negb (N.eqb (choosenFormula parent) FormulaID_max)) eqn:E.
    + exists (second_alternative c parent),
             (with_choosenFormula parent FormulaID_max).
      destruct (second_alternative_extends c parent) as [(C & I & _) T].
      repeat split; auto.
      * intros k Hk. unfold second_alternative. cbv zeta.
        repeat match goal with
               | |- context [if ?b then _ else _] => destruct b
               end; simpl; rewrite ?N.setbit_eqb, Hk;
          rewrite ?orb_true_r; reflexivity.
      * intros Ht. unfold resumable. simpl. rewrite Ht. reflexivity.
    + simpl in Hres. apply andb_prop in Hres. destruct Hres as [Hs Hv].
      rewrite Hs. destruct (solve (clauses_of parent)) as [value |];
        [| discriminate].
      destruct (sat_extract_extends c value (literals parent)
                  (Frame_copy parent)) as [(C & I & _) T].
      pose proof (sat_extract_grows c value (literals parent)
                    (Frame_copy parent)) as G.
      destruct (sat_extract c value (literals parent) (Frame_copy parent))
        as [nf blocking].
      simpl in *.
      exists nf, (with_solver parent (Some (clauses_of parent ++ [blocking]))).
      repeat split; auto.
      intros Ht. rewrite Ht in Hs. discriminate.
  - simpl app. rewrite rollback_skips by exact Hf. exact IH.
Qed.

(** Property X10, exhaustion.  [_rollback_to_latest_choice] empties the
    stack exactly when no frame can be resumed. *)
Theorem rollback_exhausts (c : Closure) (stack : list Frame) :
  rollback solve c stack = []
  <-> Forall (fun f => resumable solve f = false) stack.
Proof.
  induction stack as [| f rest IH].
  - split; [constructor | reflexivity].
  - destruct (resumable solve f) eqn:E.
    + split.
      * intros H. destruct (rollback_stops c f rest E) as (x & l & H1).
        rewrite H1 in H. discriminate.
      * intros H. inversion H; congruence.
    + rewrite rollback_skips by exact E. rewrite IH. split.
      * intros H. constructor; assumption.
      * intros H. inversion H; assumption.
Qed.

End Rollback.

(** ** The verdict, once SATISFIABLE *)

Section Verdict.

Variable solve : list Clause -> option (N -> bool).
Variable draw : N -> N.

Lemma run_keeps_satisfiable :
  forall (fuel : nat) (s : Solver) (r : Result) (s' : Solver),
    _result s = SATISFIABLE ->
    run solve draw fuel s = Some (r, s') ->
    r = SATISFIABLE /\ _result s' = SATISFIABLE
    /\ (_stack s' = [] -> _state s' = DONE).
Proof.
  induction fuel as [| fuel IH]; intros s r s' Hr Hrun; simpl in Hrun;
    destruct (_stack s) as [| frame below] eqn:Hs; try discriminate.
  - rewrite Hr in Hrun. simpl in Hrun. injection Hrun as <- <-. auto.
  - rewrite Hr in Hrun. simpl in Hrun. injection Hrun as <- <-. auto.
  - pose proof (round_settled solve draw s) as Hset.
    destruct (round solve draw s) as [r1 s1 | s1 |]; [| | discriminate].
    + injection Hrun as <- <-. destruct Hset as (H1 & H2 & H3 & H4).
      repeat split; auto. intros H. contradiction.
    + destruct Hset as (H1 & _). apply (IH s1); [congruence | exact Hrun].
Qed.

(** Property X11, the verdict.  Once the stored verdict is SATISFIABLE,
    every call of [solution] that returns, returns SATISFIABLE and keeps
    that verdict, also when the alternatives are exhausted: then the stack
    is empty, the solver is DONE and [model] returns nothing. *)
Theorem satisfiable_is_final (fuel : nat) (s : Solver) (r : Result)
    (s' : Solver) :
  _result s = SATISFIABLE ->
  solution solve draw fuel s = Some (r, s') ->
  r = SATISFIABLE /\ _result s' = SATISFIABLE
  /\ (_state s = PAUSED -> _stack s' = [] ->
      _state s' = DONE /\ model s' = None).
Proof.
  intros Hr Hsol. unfold solution in Hsol.
  destruct (State_eqb (_state s) RUNNING || State_eqb (_state s) DONE) eqn:E.
  - injection Hsol as <- <-. split; [exact Hr |]. split; [exact Hr |].
    intros Hp. rewrite Hp in E. discriminate.
  - apply run_keeps_satisfiable in Hsol.
    + destruct Hsol as (H1 & H2 & H3). split; [exact H1 |].
      split; [exact H2 |]. intros _ He. split; [exact (H3 He) |].
      apply model_none_iff. left. rewrite (H3 He). discriminate.
    + destruct (State_eqb (_state s) PAUSED); exact Hr.
Qed.

End Verdict.

(** ** Without the SAT bridge *)

Section WithoutSAT.

Variables solve1 solve2 : list Clause -> option (N -> bool).
Variable draw : N -> N.

Lemma not_SAT (f : Frame) :
  type f <> SAT -> FrameType_eqb (type f) SAT = false.
Proof. destruct (type f); intros H; try reflexivity. congruence. Qed.

Lemma rollback_indep (c : Closure) :
  forall stack : list Frame,
    sat_free stack ->
    rollback solve1 c stack = rollback solve2 c stack
    /\ sat_free (rollback solve1 c stack).
Proof.
  induction stack as [| top below IH]; intros H; simpl.
  - split; [reflexivity | constructor].
  - inversion H as [| ? ? Ht Hb]; subst. rewrite (not_SAT top Ht).
    destruct (FrameType_eqb (type top) CHOICE
              && negb (N.eqb (choosenFormula top) FormulaID_max)).
    + split; [reflexivity |].
      constructor;
        [rewrite (proj2 (second_alternative_extends c top)); discriminate |].
      constructor; [exact Ht | exact Hb].
    + apply IH. exact Hb.
Qed.

Lemma _rollback_indep (s : Solver) :
  sat_free (_stack s) ->
  _rollback_to_latest_choice solve1 s = _rollback_to_latest_choice solve2 s
  /\ sat_free (_stack (_rollback_to_latest_choice solve1 s)).
Proof.
  intros H. unfold _rollback_to_latest_choice.
  destruct (rollback_indep (closure s) (_stack s) H) as [E F].
  rewrite <- E. split; [reflexivity |].
  destruct s; exact F.
Qed.

Lemma step_rule_indep (s : Solver) (frame : Frame) :
  sat_free (_stack s) ->
  step_rule solve1 s frame = step_rule solve2 s frame
  /\ keeps_sat_free (step_rule solve1 s frame).
Proof.
  intros H. unfold step_rule.
  destruct (_rollback_indep s H) as [E F].
  destruct (N.leb _ _).
  - rewrite E. split; [reflexivity |]. rewrite <- E. exact F.
  - split; [reflexivity |]. simpl.
    constructor.
    + unfold step_frame. cbv zeta. rewrite type_fold; [discriminate |].
      intros f x. destruct (N.testbit _ x); reflexivity.
    + constructor; [discriminate |].
      destruct (_stack s); [constructor | inversion H; assumption].
Qed.

Lemma sat_free_set_top (s : Solver) (f : Frame) :
  type f <> SAT -> sat_free (tl (_stack s)) ->
  sat_free (_stack (set_top s f)).
Proof. intros H1 H2. simpl. constructor; assumption. Qed.

Lemma after_rules_indep (s : Solver) (frame : Frame) :
  type frame <> SAT -> sat_free (tl (_stack s)) ->
  after_rules solve1 draw s frame = after_rules solve2 draw s frame
  /\ keeps_sat_free (after_rules solve1 draw s frame).
Proof.
  intros Ht Hb. unfold after_rules. cbv zeta.
  set (f1 := _update_eventualities_satisfaction (closure s) frame).
  set (s1 := with_mt (set_top s f1) (N.succ (_mt (set_top s f1)))).
  assert (H1 : sat_free (_stack s1)).
  { apply (sat_free_set_top s f1); assumption. }
  destruct (step_rule_indep s1 f1 H1) as [E1 F1].
  destruct (_rollback_indep s1 H1) as [E2 F2].
  match goal with |- context [if ?b then _ else _] => destruct b end;
    [split; assumption |].
  match goal with |- context [lookback ?a ?b ?c ?d ?e] =>
    destruct (lookback a b c d e) end.
  - split; [reflexivity | exact H1].
  - rewrite E2. split; [reflexivity |]. rewrite <- E2. exact F2.
  - split; assumption.
Qed.

Lemma beta_rules_indep (s : Solver) (frame : Frame) (applied : bool) :
  _use_sat_solver (config s) = false ->
  type frame <> SAT -> sat_free (tl (_stack s)) ->
  beta_rules solve1 draw s frame applied
  = beta_rules solve2 draw s frame applied
  /\ keeps_sat_free (beta_rules solve1 draw s frame applied).
Proof.
  intros Hu Ht Hb.
  assert (Hno : _should_use_sat_solver s frame = false).
  { unfold _should_use_sat_solver. rewrite Hu. reflexivity. }
  assert (push_ok : forall fr child,
             type fr = CHOICE -> type child = UNKNOWN ->
             sat_free (_stack (push (set_top s fr) child))).
  { intros fr child T1 T2. simpl.
    constructor; [congruence |]. constructor; [congruence | exact Hb]. }
  unfold beta_rules. cbv zeta. rewrite Hno. cbn [negb].
  destruct (_apply_disjunction_rule (closure s) frame) as [fr |] eqn:E1.
  { split; [reflexivity |]. apply push_ok; [| reflexivity].
    apply (_apply_rule_extends _ _ _ _ E1). }
  destruct (if _has_eventually (closure s)
            then _apply_eventually_rule (closure s) frame else None)
    as [fr |] eqn:E2.
  { split; [reflexivity |]. apply push_ok; [| reflexivity].
    destruct (_has_eventually _); [| discriminate].
    apply (_apply_rule_extends _ _ _ _ E2). }
  destruct (if _has_until (closure s)
            then _apply_until_rule (closure s) frame else None)
    as [fr |] eqn:E3.
  { split; [reflexivity |]. apply push_ok; [| reflexivity].
    destruct (_has_until _); [| discriminate].
    apply (_apply_rule_extends _ _ _ _ E3). }
  destruct (if _has_not_until (closure s)
            then _apply_not_until_rule (closure s) frame else None)
    as [fr |] eqn:E4.
  { split; [reflexivity |]. apply push_ok; [| reflexivity].
    destruct (_has_not_until _); [| discriminate].
    apply (_apply_rule_extends _ _ _ _ E4). }
  destruct applied.
  - split; [reflexivity |]. apply sat_free_set_top; assumption.
  - apply after_rules_indep; assumption.
Qed.

Lemma round_indep (s : Solver) :
  _use_sat_solver (config s) = false -> sat_free (_stack s) ->
  round solve1 draw s = round solve2 draw s
  /\ keeps_sat_free (round solve1 draw s).
Proof.
  intros Hu Hf. unfold round.
  destruct (_stack s) as [| frame below] eqn:Hs.
  - split; [reflexivity |]. simpl. rewrite Hs. constructor.
  - cbv zeta. inversion Hf as [| ? ? Ht Hb]; subst.
    destruct (none (formulas frame)).
    + split; [reflexivity |].
      destruct (chain frame) as [k |]; [| exact I].
      destruct (frame_at (frame :: below) k); [| exact I].
      simpl. rewrite Hs. exact Hf.
    + destruct (_check_contradiction_rule (closure s) frame).
      * assert (H : sat_free (_stack s)) by (rewrite Hs; exact Hf).
        destruct (_rollback_indep s H) as [E F].
        rewrite E. split; [reflexivity |]. rewrite <- E. exact F.
      * destruct (_apply_conjunction_rule_extends (closure s) frame)
          as [_ T1].
        destruct (_apply_conjunction_rule (closure s) frame) as [f1 a1].
        destruct (_apply_always_rule_extends (closure s) f1) as [_ T2].
        destruct (_apply_always_rule (closure s) f1) as [f2 a2].
        simpl in T1, T2.
        apply beta_rules_indep; [exact Hu | congruence |].
        rewrite Hs. exact Hb.
Qed.

Lemma run_indep :
  forall (fuel : nat) (s : Solver),
    _use_sat_solver (config s) = false -> sat_free (_stack s) ->
    run solve1 draw fuel s = run solve2 draw fuel s.
Proof.
  induction fuel as [| fuel IH]; intros s Hu Hf; simpl; [reflexivity |].
  destruct (_stack s) as [| frame below] eqn:Hs; [reflexivity |].
  rewrite <- Hs in Hf.
  destruct (round_indep s Hu Hf) as [E F]. rewrite <- E.
  pose proof (round_settled solve1 draw s) as Hset.
  destruct (round solve1 draw s) as [r1 s1 | s1 |]; try reflexivity.
  apply IH; [| exact F].
  destruct Hset as (_ & Hc & _). rewrite Hc. exact Hu.
Qed.

(** Property X12, the SAT switch.  With [_use_sat_solver] off and no SAT
    frame on the stack, [solution] never consults the propositional
    solver: its result is the same for any two of them. *)
Theorem solver_unused_without_sat (fuel : nat) (s : Solver) :
  _use_sat_solver (config s) = false -> sat_free (_stack s) ->
  solution solve1 draw fuel s = solution solve2 draw fuel s.
Proof.
  intros Hu Hf. unfold solution.
  destruct (State_eqb (_state s) RUNNING || State_eqb (_state s) DONE);
    [reflexivity |].
  destruct (State_eqb (_state s) PAUSED).
  - destruct (_rollback_indep s Hf) as [E F]. rewrite <- E.
    apply run_indep; [exact Hu |].
    destruct (_rollback_to_latest_choice solve1 s); exact F.
  - apply run_indep; [exact Hu |]. destruct s; exact Hf.
Qed.

End WithoutSAT.

(** ** The tables of the closure, entry by entry *)

Section TablesExact.

Variable type_rank : FormulaType -> N.
Variable simplify : Formula -> Formula.
Variable subformulas : list Formula.
Variable formula : Formula.

Local Abbreviation entry :=
  (build_entry type_rank simplify subformulas formula).
Local Abbreviation add := _add_formula_for_position.
Local Abbreviation left_of f :=
  (position_of type_rank subformulas (fst (left_right simplify f))).
Local Abbreviation right_of f :=
  (position_of type_rank subformulas (snd (left_right simplify f))).

Lemma entry_eq (t : Building) (k : FormulaID) (f : Formula) :
  entry (t, k) f
  = @pair Building FormulaID
      (add (if Formula_eqb f formula then set_start_index t k else t)
           f k (left_of f) (right_of f))
      (N.succ k).
Proof.
  unfold build_entry. destruct (left_right simplify f). reflexivity.
Qed.

Lemma fold_bits_keep (k : KindTag) :
  forall (l : list Formula) (t : Building) (n i : FormulaID),
    N.testbit (select k (b_bitset t)) i = true ->
    N.testbit (select k (b_bitset (fst (fold_left entry l (t, n))))) i
    = true.
Proof.
  induction l as [| f l IH]; intros t n i H; cbn [fold_left]; [exact H |].
  destruct (entry_unfold type_rank simplify subformulas formula t n f)
    as (t1 & Hb & _ & E).
  rewrite E. apply IH.
  destruct (tag_of f) as [k' |] eqn:Ek.
  - destruct (KindTag_eq_dec k' k) as [-> | Hne].
    + rewrite (add_select_same _ _ _ _ _ _ Ek), Hb, N.setbit_eqb, H.
      apply orb_true_r.
    + rewrite add_select_other, Hb by congruence. exact H.
  - rewrite add_select_other, Hb by congruence. exact H.
Qed.

Lemma fold_bits_set (k : KindTag) :
  forall (l : list Formula) (t : Building) (n : FormulaID) (j : nat)
         (f : Formula),
    nth_error l j = Some f -> tag_of f = Some k ->
    N.testbit (select k (b_bitset (fst (fold_left entry l (t, n)))))
              (n + N.of_nat j) = true.
Proof.
  induction l as [| g l IH]; intros t n j f Hj Hk;
    [destruct j; discriminate |].
  cbn [fold_left].
  destruct (entry_unfold type_rank simplify subformulas formula t n g)
    as (t1 & Hb & _ & E).
  rewrite E. destruct j as [| j]; simpl in Hj.
  - injection Hj as ->. apply fold_bits_keep.
    rewrite (add_select_same _ _ _ _ _ _ Hk), N.setbit_eqb.
    replace (n + N.of_nat 0) with n by lia. rewrite N.eqb_refl. reflexivity.
  - replace (n + N.of_nat (S j)) with (N.succ n + N.of_nat j) by lia.
    apply (IH _ _ _ f); assumption.
Qed.

Lemma build_tables_bits_iff (k : KindTag) (i : FormulaID) :
  N.testbit (select k (b_bitset
     (build_tables type_rank simplify subformulas formula))) i = true
  <-> exists f : Formula,
        nth_error subformulas (N.to_nat i) = Some f /\ tag_of f = Some k.
Proof.
  split; [apply build_tables_bits |].
  intros (f & Hf & Hk). unfold build_tables.
  pose proof (fold_bits_set k subformulas
                (mkBuilding Bitsets_empty
                   (repeat FormulaID_max (List.length subformulas))
                   (repeat FormulaID_max (List.length subformulas)) [] 0)
                0 (N.to_nat i) f Hf Hk) as H.
  rewrite N.add_0_l, N2Nat.id in H. exact H.
Qed.

(** *** The right operands *)

Lemma add_rhs_length (t : Building) (f : Formula) (p l r : FormulaID) :
  List.length (b_rhs (add t f p l r)) = List.length (b_rhs t).
Proof.
  destruct f; simpl; try reflexivity; try apply vset_length.
  destruct (isa TUntil f); simpl; [apply vset_length | reflexivity].
Qed.

Lemma add_rhs_other (t : Building) (f : Formula) (p l r i : FormulaID) :
  p <> i ->
  vget FormulaID_max (b_rhs (add t f p l r)) i
  = vget FormulaID_max (b_rhs t) i.
Proof.
  intros H. destruct f; simpl; try reflexivity;
    try (apply vget_vset_other; exact H).
  destruct (isa TUntil f); simpl;
    [apply vget_vset_other; exact H | reflexivity].
Qed.

Lemma add_rhs_same (t : Building) (f : Formula) (p l r : FormulaID)
    (k : KindTag) :
  tag_of f = Some k -> binary k = true ->
  (N.to_nat p < List.length (b_rhs t))%nat ->
  vget FormulaID_max (b_rhs (add t f p l r)) p = r.
Proof.
  intros Hk Hb Hp. destruct f; simpl in *; try discriminate;
    try (injection Hk as <-; discriminate);
    try (apply vget_vset_same; exact Hp).
  destruct (isa TUntil f); simpl;
    [apply vget_vset_same; exact Hp | injection Hk as <-; discriminate].
Qed.

Lemma start_rhs (t : Building) (b : bool) (k : FormulaID) :
  b_rhs (if b then set_start_index t k else t) = b_rhs t.
Proof. destruct b; reflexivity. Qed.

Lemma fold_rhs_before :
  forall (l : list Formula) (t : Building) (n i : FormulaID),
    i < n ->
    vget FormulaID_max (b_rhs (fst (fold_left entry l (t, n)))) i
    = vget FormulaID_max (b_rhs t) i.
Proof.
  induction l as [| f l IH]; intros t n i H; cbn [fold_left]; [reflexivity |].
  rewrite entry_eq, IH by lia. rewrite add_rhs_other by lia.
  apply f_equal2; [apply start_rhs | reflexivity].
Qed.

Lemma fold_rhs_at :
  forall (l : list Formula) (t : Building) (n : FormulaID) (j : nat)
         (f : Formula) (k : KindTag),
    nth_error l j = Some f -> tag_of f = Some k -> binary k = true ->
    (N.to_nat (n + N.of_nat j) < List.length (b_rhs t))%nat ->
    vget FormulaID_max (b_rhs (fst (fold_left entry l (t, n))))
         (n + N.of_nat j)
    = right_of f.
Proof.
  induction l as [| g l IH]; intros t n j f k Hj Hk Hb Hlen;
    [destruct j; discriminate |].
  cbn [fold_left]. rewrite entry_eq.
  destruct j as [| j]; simpl in Hj.
  - injection Hj as ->. replace (n + N.of_nat 0) with n in * by lia.
    rewrite fold_rhs_before by lia.
    apply (add_rhs_same _ _ _ _ _ k); auto. rewrite start_rhs. exact Hlen.
  - replace (n + N.of_nat (S j)) with (N.succ n + N.of_nat j) in * by lia.
    apply (IH _ _ _ _ k); auto. rewrite add_rhs_length, start_rhs.
    exact Hlen.
Qed.

Lemma build_tables_rhs (j : nat) (f : Formula) (k : KindTag) :
  nth_error subformulas j = Some f -> tag_of f = Some k ->
  binary k = true ->
  vget FormulaID_max
       (b_rhs (build_tables type_rank simplify subformulas formula))
       (N.of_nat j)
  = right_of f.
Proof.
  intros Hj Hk Hb. unfold build_tables.
  rewrite <- (N.add_0_l (N.of_nat j)).
  apply (fold_rhs_at _ _ _ _ _ k); auto.
  cbn [b_rhs]. rewrite repeat_length, N.add_0_l, Nat2N.id.
  apply nth_error_Some. congruence.
Qed.

(** *** The start index *)

Lemma add_start_index (t : Building) (f : Formula) (p l r : FormulaID) :
  b_start_index (add t f p l r) = b_start_index t.
Proof.
  destruct f; simpl; try reflexivity. destruct (isa TUntil f); reflexivity.
Qed.

Lemma fold_start_index :
  forall (l : list Formula) (t : Building) (n : FormulaID),
    let out := b_start_index (fst (fold_left entry l (t, n))) in
    (~ In formula l /\ out = b_start_index t)
    \/ (n <= out /\ nth_error l (N.to_nat (out - n)) = Some formula).
Proof.
  induction l as [| f l IH]; intros t n; cbv zeta; cbn [fold_left].
  - left. split; [intros [] | reflexivity].
  - rewrite entry_eq.
    match goal with |- context [fold_left _ l (?t1, _)] =>
      destruct (IH t1 (N.succ n)) as [[Hn E] | [Hle E]]
    end; cbv zeta in E.
    + rewrite E, add_start_index.
      destruct (Formula_eqb f formula) eqn:Ef.
      * right. simpl. apply Formula_eqb_eq in Ef. subst f.
        split; [lia |]. rewrite N.sub_diag. reflexivity.
      * left. split; [| reflexivity]. intros [-> | H]; [| auto].
        rewrite Formula_eqb_refl in Ef. discriminate.
    + right. split; [lia |].
      match goal with |- nth_error _ (N.to_nat (?o - n)) = _ =>
        replace (N.to_nat (o - n)) with (S (N.to_nat (o - N.succ n)))
          by lia
      end.
      exact E.
Qed.

Lemma build_tables_start_index :
  In formula subformulas ->
  nth_error subformulas
    (N.to_nat (b_start_index
                 (build_tables type_rank simplify subformulas formula)))
  = Some formula.
Proof.
  intros Hin. unfold build_tables.
  match goal with |- context [fold_left _ _ (?t, 0)] =>
    destruct (fold_start_index subformulas t 0) as [[Hn _] | [_ E]]
  end; [contradiction |].
  cbv zeta in E. rewrite N.sub_0_r in E. exact E.
Qed.

(** *** The names of the atoms *)

Lemma add_atom_set (t : Building) (f : Formula) (p l r j : FormulaID) :
  name_at (b_atom_set (add t f p l r)) j
  = match f with
    | Atom name => if N.eqb p j then Some name else name_at (b_atom_set t) j
    | _ => name_at (b_atom_set t) j
    end.
Proof.
  unfold name_at. destruct f; simpl; try reflexivity.
  - destruct (N.eqb p j); reflexivity.
  - destruct (isa TUntil f); reflexivity.
Qed.

Lemma start_atom_set (t : Building) (b : bool) (k : FormulaID) :
  b_atom_set (if b then set_start_index t k else t) = b_atom_set t.
Proof. destruct b; reflexivity. Qed.

Lemma fold_atom_set :
  forall (l : list Formula) (t : Building) (n j : FormulaID),
    name_at (b_atom_set (fst (fold_left entry l (t, n)))) j
    = match (if N.leb n j then nth_error l (N.to_nat (j - n)) else None) with
      | Some (Atom name) => Some name
      | _ => name_at (b_atom_set t) j
      end.
Proof.
  induction l as [| f l IH]; intros t n j; cbn [fold_left].
  - destruct (N.leb n j); [destruct (N.to_nat (j - n)) |]; reflexivity.
  - rewrite entry_eq, IH, add_atom_set, start_atom_set.
    destruct (N.leb_spec n j) as [Hle | Hlt].
    + destruct (N.eq_dec n j) as [-> | Hne].
      * rewrite N.sub_diag. simpl.
        destruct (N.leb_spec (N.succ j) j) as [H | _]; [lia |].
        rewrite N.eqb_refl. destruct f; reflexivity.
      * destruct (N.leb_spec (N.succ n) j) as [_ | H]; [| lia].
        replace (N.to_nat (j - n)) with (S (N.to_nat (j - N.succ n)))
          by lia.
        simpl.
        destruct (nth_error l (N.to_nat (j - N.succ n))) as [[] |];
          try reflexivity;
          destruct f; try reflexivity;
          destruct (N.eqb_spec n j); try reflexivity; contradiction.
    + destruct (N.leb_spec (N.succ n) j) as [H | _]; [lia |].
      destruct f; try reflexivity.
      destruct (N.eqb_spec n j); [lia | reflexivity].
Qed.

Lemma build_tables_atom_set (j : FormulaID) (name : string) :
  name_at (b_atom_set (build_tables type_rank simplify subformulas formula)) j
  = Some name
  <-> nth_error subformulas (N.to_nat j) = Some (Atom name).
Proof.
  unfold build_tables. rewrite fold_atom_set. cbn [b_atom_set].
  replace (N.leb 0 j) with true by (symmetry; apply N.leb_le; lia).
  rewrite N.sub_0_r. unfold name_at at 1. simpl.
  destruct (nth_error subformulas (N.to_nat j)) as [[] |]; simpl;
    split; intros H; try discriminate; congruence.
Qed.

End TablesExact.

(** ** The closure of a new solver *)

Section NewSolver.

Variable type_rank : FormulaType -> N.
Variable simplify : Formula -> Formula.
Variable generate : Formula -> list Formula.
Variable count : Formula -> N.

Local Abbreviation init := (_initialize type_rank simplify generate count).

(** Everything [_initialize] leaves, in its two cases. *)
Lemma _initialize_tables (s : Solver) :
  let generated := generate (simplify (_formula s)) in
  let subformulas := unique (sort type_rank generated) in
  let t :=
    build_tables type_rank simplify subformulas (simplify (_formula s)) in
  ((generated = [True_] \/ generated = [False_])
   /\ closure (init s) = Closure_empty generated
   /\ _stack (init s) = [] /\ _state (init s) = DONE)
  \/ (_subformulas (closure (init s)) = subformulas
      /\ _number_of_formulas (closure (init s)) = vlength subformulas
      /\ _bitset (closure (init s)) = b_bitset t
      /\ _lhs (closure (init s)) = b_lhs t
      /\ _rhs (closure (init s)) = b_rhs t
      /\ _atom_set (closure (init s)) = b_atom_set t
      /\ _start_index (closure (init s)) = b_start_index t
      /\ _state (init s) = INITIALIZED
      /\ _result (init s) = _result s
      /\ exists nev,
           _stack (init s)
           = [Frame_first 0 (b_start_index t) (vlength subformulas) nev]).
Proof.
  cbv zeta. unfold _initialize. cbv zeta.
  set (generated := generate (simplify (_formula s))).
  set (subformulas := unique (sort type_rank generated)).
  set (t := build_tables type_rank simplify subformulas
              (simplify (_formula s))).
  destruct (build_luts type_rank subformulas _) as [fw bw].
  destruct (fold_left (build_clause type_rank count subformulas) subformulas _)
    as [[sizes clauses] k].
  destruct generated as [| f [| g rest]]; try destruct f;
    try (right; repeat split; eexists; reflexivity);
    left; (split; [auto |]); repeat split.
Qed.

(** Property X13, the kinds of the closure.  After construction, the
    bitset of a kind flags the entry [i] exactly when the formula at [i] is
    of that kind (a negated until counting as not-until, not as
    negation). *)
Theorem closure_kinds_exact (formula : Formula) (maximum_depth : FrameID)
    (backtrack_probability minimum_backtrack maximum_backtrack : N)
    (use_sat : bool) (k : KindTag) (i : FormulaID) :
  let c := closure (Solver_new type_rank simplify generate count formula
                      maximum_depth backtrack_probability minimum_backtrack
                      maximum_backtrack use_sat) in
  N.testbit (select k (_bitset c)) i = true
  <-> exists f : Formula,
        nth_error (_subformulas c) (N.to_nat i) = Some f
        /\ tag_of f = Some k.
Proof.
  cbv zeta. unfold Solver_new. cbv zeta.
  match goal with |- context [init ?s0] =>
    destruct (_initialize_tables s0)
      as [(Hc & E & _) | (ES & _ & EB & _)]
  end; cbn [_formula] in *.
  - rewrite E. cbn [_bitset _subformulas Closure_empty].
    split.
    + intros H. destruct k; simpl in H; discriminate.
    + intros (f & Hf & Hk). exfalso.
      destruct Hc as [Hc | Hc]; rewrite Hc in Hf;
        destruct (N.to_nat i) as [| [| n]]; simpl in Hf;
        try discriminate; injection Hf as <-; discriminate.
  - rewrite ES, EB. apply build_tables_bits_iff.
Qed.

(** Property X14, the names of the atoms.  After construction,
    [_atom_set] gives the entry [j] the name [name] exactly when the
    formula at [j] is the atom [name]. *)
Theorem atom_names_exact (formula : Formula) (maximum_depth : FrameID)
    (backtrack_probability minimum_backtrack maximum_backtrack : N)
    (use_sat : bool) (j : FormulaID) (name : string) :
  let c := closure (Solver_new type_rank simplify generate count formula
                      maximum_depth backtrack_probability minimum_backtrack
                      maximum_backtrack use_sat) in
  atom_name c j = Some name
  <-> nth_error (_subformulas c) (N.to_nat j) = Some (Atom name).
Proof.
  cbv zeta. unfold Solver_new. cbv zeta.
  match goal with |- context [init ?s0] =>
    destruct (_initialize_tables s0)
      as [(Hc & E & _) | (ES & _ & _ & _ & _ & EA & _)]
  end; cbn [_formula] in *.
  - rewrite E. unfold atom_name. cbn [_atom_set _subformulas Closure_empty].
    simpl. split; [discriminate |]. intros Hf. exfalso.
    destruct Hc as [Hc | Hc]; rewrite Hc in Hf;
      destruct (N.to_nat j) as [| [| n]]; simpl in Hf; discriminate.
  - unfold atom_name. rewrite ES, EA. apply build_tables_atom_set.
Qed.

(** Property X15, the first frame.  If the generator returns the
    simplified input among its formulas, [_start_index] is the position of
    the simplified input in the closure, and the solver is either DONE with
    an empty stack (a constant) or INITIALIZED with one frame that asserts
    exactly that entry, has everything to process, no promise requested,
    id 0, no chain and no kind. *)
Theorem first_frame_asserts_formula (formula : Formula)
    (maximum_depth : FrameID)
    (backtrack_probability minimum_backtrack maximum_backtrack : N)
    (use_sat : bool) :
  let s := Solver_new type_rank simplify generate count formula
             maximum_depth backtrack_probability minimum_backtrack
             maximum_backtrack use_sat in
  In (simplify formula) (generate (simplify formula)) ->
  nth_error (_subformulas (closure s)) (N.to_nat (_start_index (closure s)))
  = Some (simplify formula)
  /\ (_state s = DONE /\ _stack s = []
      \/ _state s = INITIALIZED
         /\ exists frame,
              _stack s = [frame]
              /\ (forall k, N.testbit (formulas frame) k = true
                            <-> k = _start_index (closure s))
              /\ to_process frame
                 = set_all (_number_of_formulas (closure s))
              /\ Forall (fun ev => ev = Unrequested) (eventualities frame)
              /\ id frame = 0 /\ chain frame = None
              /\ type frame = UNKNOWN).
Proof.
  cbv zeta. unfold Solver_new. cbv zeta. intros Hin.
  match goal with |- context [init ?s0] =>
    destruct (_initialize_tables s0)
      as [(Hc & E & Hst & Hd)
         | (ES & EN & _ & _ & _ & _ & EI & Hst & _ & nev & Hstack)]
  end; cbn [_formula] in *.
  - rewrite E. cbn [_subformulas _start_index Closure_empty]. split; [| auto].
    destruct Hc as [Hc | Hc]; rewrite Hc in *;
      destruct Hin as [<- | []]; reflexivity.
  - split.
    + rewrite ES, EI. apply build_tables_start_index.
      apply unique_In, sort_In. exact Hin.
    + right. split; [exact Hst |]. eexists. split; [exact Hstack |].
      rewrite EN, EI. cbn [formulas to_process eventualities id chain type
                           Frame_first].
      repeat split; try reflexivity.
      * rewrite N.setbit_eqb, N.bits_0, orb_false_r. intros H.
        apply N.eqb_eq in H. auto.
      * intros ->. rewrite N.setbit_eqb, N.eqb_refl. reflexivity.
      * apply Forall_forall. intros ev Hev.
        apply repeat_spec in Hev. exact Hev.
Qed.

Hypothesis type_rank_injective :
  forall s t : FormulaType, type_rank s = type_rank t -> s = t.

(** Property X16, the operand tables.  Let the tags be ordered
    injectively and the generator return formulas without implications and
    biconditionals.  For every entry of the closure, [_lhs] is the position
    of its left operand and [_rhs] the position of its right operand, for
    the operands the generator returned (for a negated until the operands
    are the simplified negations of the operands of the until). *)
Theorem closure_operands (formula : Formula) (maximum_depth : FrameID)
    (backtrack_probability minimum_backtrack maximum_backtrack : N)
    (use_sat : bool) (j : nat) (f : Formula) :
  let generated := generate (simplify formula) in
  let c := closure (Solver_new type_rank simplify generate count formula
                      maximum_depth backtrack_probability minimum_backtrack
                      maximum_backtrack use_sat) in
  all_core generated ->
  nth_error (_subformulas c) j = Some f ->
  (forall g, fst (left_right simplify f) = Some g -> In g generated ->
             nth_error (_subformulas c) (N.to_nat (lhs_at c (N.of_nat j)))
             = Some g)
  /\ (forall g, snd (left_right simplify f) = Some g -> In g generated ->
                nth_error (_subformulas c)
                          (N.to_nat (rhs_at c (N.of_nat j)))
                = Some g).
Proof.
  cbv zeta. unfold Solver_new. cbv zeta. intros Hcore Hf.
  match goal with |- context [init ?s0] =>
    destruct (_initialize_tables s0)
      as [(Hc & E & _) | (ES & _ & _ & EL & ER & _)]
  end; cbn [_formula] in *.
  - rewrite E in Hf. cbn [_subformulas Closure_empty] in Hf.
    destruct Hc as [Hc | Hc]; rewrite Hc in Hf;
      destruct j as [| [| j]]; simpl in Hf; try discriminate;
      injection Hf as <-; split; intros g Hg; discriminate.
  - unfold lhs_at, rhs_at. rewrite ES, EL, ER in *.
    set (S := unique (sort type_rank (generate (simplify formula)))) in *.
    pose proof (closure_sorted type_rank type_rank_injective _ Hcore)
      as Hsorted.
    fold S in Hsorted.
    split; intros g Hg Hin.
    + assert (Hk : exists k, tag_of f = Some k /\ k <> K_atom).
      { destruct f; simpl in Hg; try discriminate; simpl;
          try (eexists; split; [reflexivity | discriminate]).
        destruct (isa TUntil f); eexists; split;
          try reflexivity; discriminate. }
      destruct Hk as (k & Hk & Ha).
      rewrite (build_tables_lhs type_rank simplify S (simplify formula)
                 j f k Hf Hk Ha), Hg.
      apply lower_bound_finds; [exact Hsorted |].
      apply (closure_In type_rank). exact Hin.
    + assert (Hk : exists k, tag_of f = Some k /\ binary k = true).
      { destruct f; simpl in Hg; try discriminate; simpl;
          try (eexists; split; reflexivity).
        destruct f; simpl in Hg; try discriminate.
        eexists; split; reflexivity. }
      destruct Hk as (k & Hk & Hb).
      rewrite (build_tables_rhs type_rank simplify S (simplify formula)
                 j f k Hf Hk Hb), Hg.
      apply lower_bound_finds; [exact Hsorted |].
      apply (closure_In type_rank). exact Hin.
Qed.

End NewSolver.

(** ** The two tables of the promises *)

Section Promises.

Variable type_rank : FormulaType -> N.
Variable subformulas : list Formula.

Local Abbreviation lb := (lower_bound type_rank subformulas).
Local Abbreviation fill :=
  (fun (acc : list FormulaID * list FormulaID) (ie : N * Formula) =>
     (vset (fst acc) (lower_bound type_rank subformulas (snd ie)) (fst ie),
      vset (snd acc) (fst ie)
           (lower_bound type_rank subformulas (snd ie)))).

Lemma fill_lengths :
  forall (l : list (N * Formula)) (acc : list FormulaID * list FormulaID),
    List.length (fst (fold_left fill l acc)) = List.length (fst acc)
    /\ List.length (snd (fold_left fill l acc)) = List.length (snd acc).
Proof.
  induction l as [| ie l IH]; intros acc; simpl; [auto |].
  destruct (IH (fill acc ie)) as [H1 H2]. simpl in H1, H2.
  rewrite H1, H2, !vset_length. auto.
Qed.

Lemma fill_bw_untouched :
  forall (l : list (N * Formula)) (acc : list FormulaID * list FormulaID)
         (i : N),
    ~ In i (map fst l) ->
    vget FormulaID_max (snd (fold_left fill l acc)) i
    = vget FormulaID_max (snd acc) i.
Proof.
  induction l as [| ie l IH]; intros acc i H; simpl; [reflexivity |].
  simpl in H. rewrite IH by tauto. simpl.
  apply vget_vset_other. intros E. apply H. left. exact E.
Qed.

Lemma fill_fw_untouched :
  forall (l : list (N * Formula)) (acc : list FormulaID * list FormulaID)
         (k : N),
    ~ In k (map (fun ie => lb (snd ie)) l) ->
    vget FormulaID_max (fst (fold_left fill l acc)) k
    = vget FormulaID_max (fst acc) k.
Proof.
  induction l as [| ie l IH]; intros acc k H; simpl; [reflexivity |].
  simpl in H. rewrite IH by tauto. simpl.
  apply vget_vset_other. intros E. apply H. left. exact E.
Qed.

Lemma fill_bw :
  forall (l : list (N * Formula)) (acc : list FormulaID * list FormulaID)
         (i : N) (e : Formula),
    NoDup (map fst l) -> In (i, e) l ->
    (N.to_nat i < List.length (snd acc))%nat ->
    vget FormulaID_max (snd (fold_left fill l acc)) i = lb e.
Proof.
  induction l as [| ie l IH]; intros acc i e Hn Hin Hlen; [destruct Hin |].
  simpl in Hn. inversion Hn as [| ? ? Hnot Hrest]; subst. simpl.
  destruct Hin as [-> | Hin].
  - rewrite fill_bw_untouched by exact Hnot. simpl.
    apply vget_vset_same. exact Hlen.
  - apply IH; [exact Hrest | exact Hin |]. simpl.
    rewrite vset_length. exact Hlen.
Qed.

Lemma fill_fw :
  forall (l : list (N * Formula)) (acc : list FormulaID * list FormulaID)
         (i : N) (e : Formula),
    NoDup (map (fun ie => lb (snd ie)) l) -> In (i, e) l ->
    (N.to_nat (lb e) < List.length (fst acc))%nat ->
    vget FormulaID_max (fst (fold_left fill l acc)) (lb e) = i.
Proof.
  induction l as [| ie l IH]; intros acc i e Hn Hin Hlen; [destruct Hin |].
  simpl in Hn. inversion Hn as [| ? ? Hnot Hrest]; subst. simpl.
  destruct Hin as [-> | Hin].
  - rewrite fill_fw_untouched by exact Hnot. simpl.
    apply vget_vset_same. exact Hlen.
  - apply IH; [exact Hrest | exact Hin |]. simpl.
    rewrite vset_length. exact Hlen.
Qed.

Hypothesis sorted : StronglySorted (precedes type_rank) subformulas.

Lemma lb_in_range (e : Formula) :
  In e subformulas -> (N.to_nat (lb e) < List.length subformulas)%nat.
Proof.
  intros H. apply nth_error_Some.
  rewrite (lower_bound_finds type_rank subformulas e sorted H). discriminate.
Qed.

Lemma lb_injective (e1 e2 : Formula) :
  In e1 subformulas -> In e2 subformulas -> lb e1 = lb e2 -> e1 = e2.
Proof.
  intros H1 H2 E.
  pose proof (lower_bound_finds type_rank subformulas e1 sorted H1) as F1.
  pose proof (lower_bound_finds type_rank subformulas e2 sorted H2) as F2.
  rewrite E in F1. congruence.
Qed.

Lemma combine_positions_In (evs : list Formula) (i : N) (e : Formula) :
  In (i, e) (combine (positions (vlength evs)) evs)
  <-> nth_error evs (N.to_nat i) = Some e.
Proof.
  unfold vlength, positions. rewrite Nat2N.id.
  assert (G : forall (l : list Formula) (s : nat),
             In (i, e) (combine (map N.of_nat (seq s (List.length l))) l)
             <-> (s <= N.to_nat i)%nat
                 /\ nth_error l (N.to_nat i - s) = Some e).
  { induction l as [| h t IH]; intros s; simpl.
    - split; [intros [] |]. intros [_ H].
      destruct (N.to_nat i - s)%nat; discriminate.
    - rewrite IH. split.
      + intros [H | [H1 H2]].
        * injection H as <- <-. rewrite Nat2N.id, Nat.sub_diag. auto.
        * split; [lia |].
          replace (N.to_nat i - s)%nat with (S (N.to_nat i - S s)) by lia.
          exact H2.
      + intros [H1 H2].
        destruct (Nat.eq_dec s (N.to_nat i)) as [-> | Hne].
        * left. rewrite N2Nat.id, Nat.sub_diag in *. simpl in H2.
          congruence.
        * right. split; [lia |].
          replace (N.to_nat i - s)%nat with (S (N.to_nat i - S s)) in H2
            by lia.
          exact H2. }
  rewrite (G evs 0%nat), Nat.sub_0_r.
  split; [tauto | intros H; split; [lia | exact H]].
Qed.

Lemma combine_positions_fst (evs : list Formula) :
  map fst (combine (positions (vlength evs)) evs) = positions (vlength evs).
Proof.
  assert (G : forall (a : list N) (b : list Formula),
             List.length a = List.length b -> map fst (combine a b) = a).
  { induction a as [| x a IH]; intros [| y b] H; simpl in *;
      try discriminate; [reflexivity |]. f_equal. apply IH. lia. }
  apply G. rewrite positions_length. unfold vlength.
  apply Nat2N.id.
Qed.

Lemma combine_positions_snd (evs : list Formula) :
  map snd (combine (positions (vlength evs)) evs) = evs.
Proof.
  assert (G : forall (a : list N) (b : list Formula),
             List.length a = List.length b -> map snd (combine a b) = b).
  { induction a as [| x a IH]; intros [| y b] H; simpl in *;
      try discriminate; [reflexivity |]. f_equal. apply IH. lia. }
  apply G. rewrite positions_length. unfold vlength.
  apply Nat2N.id.
Qed.

Lemma positions_NoDup (n : N) : NoDup (positions n).
Proof.
  unfold positions. generalize (seq_NoDup (N.to_nat n) 0).
  induction 1 as [| x l Hnot _ IH]; simpl; constructor; [| exact IH].
  intros H. apply in_map_iff in H. destruct H as (y & E & Hy).
  apply Nat2N.inj in E. subst y. contradiction.
Qed.

Lemma lb_NoDup (evs : list Formula) :
  NoDup evs -> (forall e, In e evs -> In e subformulas) ->
  NoDup (map lb evs).
Proof.
  induction 1 as [| e evs Hnot Hnd IH]; intros Hsub; simpl; constructor.
  - intros H. apply in_map_iff in H. destruct H as (e' & E & He').
    apply lb_injective in E; [| apply Hsub; right; exact He'
                              | apply Hsub; left; reflexivity].
    subst e'. contradiction.
  - apply IH. intros e' He'. apply Hsub. right. exact He'.
Qed.

(** The two tables [build_luts] fills are inverse to each other on the
    promises. *)
Lemma build_luts_round_trip (evs : list Formula) (i : nat) (e : Formula) :
  NoDup evs -> (forall e, In e evs -> In e subformulas) ->
  nth_error evs i = Some e ->
  let fw := fst (build_luts type_rank subformulas evs) in
  let bw := snd (build_luts type_rank subformulas evs) in
  vlength bw = vlength evs
  /\ vget FormulaID_max bw (N.of_nat i) = lb e
  /\ vget FormulaID_max fw (lb e) = N.of_nat i.
Proof.
  intros Hnd Hsub Hi. cbv zeta. unfold build_luts.
  set (l := combine (positions (vlength evs)) evs).
  set (acc := (repeat FormulaID_max (List.length subformulas),
               repeat 0 (List.length evs))).
  assert (Hin : In (N.of_nat i, e) l).
  { apply combine_positions_In. rewrite Nat2N.id. exact Hi. }
  destruct (fill_lengths l acc) as [L1 L2]. simpl in L1, L2.
  rewrite repeat_length in L1, L2.
  split; [unfold vlength; rewrite L2; reflexivity |]. split.
  - apply fill_bw; [| exact Hin |].
    + unfold l. rewrite combine_positions_fst. apply positions_NoDup.
    + simpl. rewrite repeat_length, Nat2N.id.
      apply nth_error_Some. congruence.
  - apply fill_fw; [| exact Hin |].
    + replace (map (fun ie : N * Formula => lb (snd ie)) l)
        with (map lb (map snd l)) by (rewrite map_map; reflexivity).
      unfold l. rewrite combine_positions_snd.
      apply lb_NoDup; assumption.
    + simpl. rewrite repeat_length. apply lb_in_range.
      apply Hsub. apply (nth_error_In _ _ Hi).
Qed.

End Promises.

Section PromiseSlots.

Variable type_rank : FormulaType -> N.
Variable simplify : Formula -> Formula.
Variable generate : Formula -> list Formula.
Variable count : Formula -> N.

Hypothesis type_rank_injective :
  forall s t : FormulaType, type_rank s = type_rank t -> s = t.

Local Abbreviation init := (_initialize type_rank simplify generate count).

Lemma _initialize_luts (s : Solver) :
  let generated := generate (simplify (_formula s)) in
  let subformulas := unique (sort type_rank generated) in
  let t :=
    build_tables type_rank simplify subformulas (simplify (_formula s)) in
  let evs :=
    unique
      (sort type_rank
         (flat_map (eventualities_of subformulas t)
                   (positions (vlength subformulas)))) in
  closure (init s) = Closure_empty generated
  \/ (_fw_eventualities_lut (closure (init s))
      = fst (build_luts type_rank subformulas evs)
      /\ _bw_eventualities_lut (closure (init s))
         = snd (build_luts type_rank subformulas evs)).
Proof.
  cbv zeta. unfold _initialize. cbv zeta.
  set (generated := generate (simplify (_formula s))).
  set (subformulas := unique (sort type_rank generated)).
  set (t := build_tables type_rank simplify subformulas
              (simplify (_formula s))).
  destruct (build_luts type_rank subformulas _) as [fw bw].
  destruct (fold_left (build_clause type_rank count subformulas) subformulas _)
    as [[sizes clauses] k].
  destruct generated as [| f [| g rest]]; try destruct f;
    try (right; split; reflexivity); left; reflexivity.
Qed.

Lemma sorted_NoDup (l : list Formula) :
  StronglySorted (precedes type_rank) l -> NoDup l.
Proof.
  induction 1 as [| h t _ IH Hh]; constructor; [| exact IH].
  intros Hin. rewrite Forall_forall in Hh. specialize (Hh h Hin).
  unfold precedes in Hh. rewrite compare_irrefl in Hh. discriminate.
Qed.

Lemma vget_of_nth_error {A : Type} (d : A) (v : list A) (i : N) (x : A) :
  nth_error v (N.to_nat i) = Some x -> vget d v i = x.
Proof. intros H. unfold vget. apply nth_error_nth. exact H. Qed.

Section Entries.

Variable formula : Formula.

Local Abbreviation generated := (generate (simplify formula)).
Local Abbreviation S := (unique (sort type_rank (generate (simplify formula)))).
Local Abbreviation t :=
  (build_tables type_rank simplify
     (unique (sort type_rank (generate (simplify formula))))
     (simplify formula)).

Hypothesis core : all_core generated.
Hypothesis closed : operand_closed simplify generated.

Lemma S_sorted : StronglySorted (precedes type_rank) S.
Proof. apply closure_sorted; assumption. Qed.

(** The operands of the entry [j], as formulas. *)
Lemma entry_operands (j : FormulaID) (f : Formula) :
  nth_error S (N.to_nat j) = Some f ->
  (forall g, fst (left_right simplify f) = Some g ->
             In g S /\ vget FormulaID_max (b_lhs t) j
                       = lower_bound type_rank S g)
  /\ (forall g, snd (left_right simplify f) = Some g ->
                In g S /\ vget FormulaID_max (b_rhs t) j
                          = lower_bound type_rank S g).
Proof.
  intros Hf.
  assert (Hgen : In f generated).
  { apply (closure_In type_rank). apply (nth_error_In _ _ Hf). }
  split; intros g Hg.
  - split; [apply closure_In; apply (closed f g Hgen); auto |].
    assert (Hk : exists k, tag_of f = Some k /\ k <> K_atom).
    { destruct f; simpl in Hg; try discriminate; simpl;
        try (eexists; split; [reflexivity | discriminate]).
      destruct (isa TUntil f); eexists; split;
        try reflexivity; discriminate. }
    destruct Hk as (k & Hk & Ha).
    pose proof (build_tables_lhs type_rank simplify S (simplify formula)
                  (N.to_nat j) f k Hf Hk Ha) as H.
    rewrite N2Nat.id, Hg in H. exact H.
  - split; [apply closure_In; apply (closed f g Hgen); auto |].
    assert (Hk : exists k, tag_of f = Some k /\ binary k = true).
    { destruct f; simpl in Hg; try discriminate; simpl;
        try (eexists; split; reflexivity).
      destruct f; simpl in Hg; try discriminate.
      eexists; split; reflexivity. }
    destruct Hk as (k & Hk & Hb).
    pose proof (build_tables_rhs type_rank simplify S (simplify formula)
                  (N.to_nat j) f k Hf Hk Hb) as H.
    rewrite N2Nat.id, Hg in H. exact H.
Qed.

Lemma kind_entry (k : KindTag) (j : FormulaID) :
  N.testbit (select k (b_bitset t)) j = true ->
  exists f, nth_error S (N.to_nat j) = Some f /\ tag_of f = Some k
            /\ j < vlength S.
Proof.
  intros H. apply build_tables_bits in H. destruct H as (f & Hf & Hk).
  exists f. repeat split; auto.
  assert (N.to_nat j < List.length S)%nat
    by (apply nth_error_Some; congruence).
  unfold vlength. lia.
Qed.

Lemma other_kind_bit (k k' : KindTag) (j : FormulaID) :
  N.testbit (select k (b_bitset t)) j = true -> k' <> k ->
  N.testbit (select k' (b_bitset t)) j = false.
Proof.
  intros H Hne.
  destruct (N.testbit (select k' (b_bitset t)) j) eqn:E; [| reflexivity].
  apply build_tables_bits in H, E.
  destruct H as (f & Hf & Hk), E as (f' & Hf' & Hk'). congruence.
Qed.

(** What [eventualities_of] collects for an entry, as formulas that are in
    the closure, with their positions. *)
Lemma eventualities_of_entry (j : FormulaID) (e : Formula) :
  j < vlength S ->
  (In e (eventualities_of S t j)
   <-> In e S
       /\ (N.testbit (eventually (b_bitset t)) j = true
           /\ lower_bound type_rank S e = vget FormulaID_max (b_lhs t) j
           \/ N.testbit (until (b_bitset t)) j = true
              /\ lower_bound type_rank S e = vget FormulaID_max (b_rhs t) j
           \/ N.testbit (not_until (b_bitset t)) j = true
              /\ (lower_bound type_rank S e
                  = vget FormulaID_max (b_lhs t) j
                  \/ lower_bound type_rank S e
                     = vget FormulaID_max (b_rhs t) j))).
Proof.
  intros Hj. unfold eventualities_of.
  assert (back : forall p, In e S -> lower_bound type_rank S e = p ->
                           vget True_ S p = e).
  { intros p Hin <-. apply vget_of_nth_error.
    apply lower_bound_finds; [apply S_sorted | exact Hin]. }
  assert (forth : forall g p, In g S -> p = lower_bound type_rank S g ->
                              vget True_ S p = g).
  { intros g p Hin ->. apply vget_of_nth_error.
    apply lower_bound_finds; [apply S_sorted | exact Hin]. }
  destruct (N.testbit (eventually (b_bitset t)) j) eqn:Ee.
  - destruct (kind_entry K_eventually j Ee) as (f & Hf & Hk & _).
    destruct f; try discriminate;
      try (simpl in Hk; destruct (isa TUntil f); discriminate).
    destruct (entry_operands j _ Hf) as [Hl _].
    destruct (Hl f eq_refl) as [Hin El].
    assert (Xu : N.testbit (until (b_bitset t)) j = false)
      by (apply (other_kind_bit K_eventually K_until j Ee); discriminate).
    assert (Xn : N.testbit (not_until (b_bitset t)) j = false)
      by (apply (other_kind_bit K_eventually K_not_until j Ee);
          discriminate).
    rewrite Xu, Xn.
    rewrite (forth f _ Hin El). simpl. split.
    + intros [<- | []]. split; [exact Hin |]. left. auto.
    + intros [He [[_ H] | [[H _] | [H _]]]]; try discriminate.
      left. rewrite El in H. symmetry.
      apply (lb_injective type_rank S S_sorted); auto.
  - destruct (N.testbit (until (b_bitset t)) j) eqn:Eu.
    + destruct (kind_entry K_until j Eu) as (f & Hf & Hk & _).
      destruct f; try discriminate;
        try (simpl in Hk; destruct (isa TUntil f); discriminate).
      destruct (entry_operands j _ Hf) as [_ Hr].
      destruct (Hr f2 eq_refl) as [Hin Er].
      assert (Xn : N.testbit (not_until (b_bitset t)) j = false)
        by (apply (other_kind_bit K_until K_not_until j Eu); discriminate).
      rewrite Xn.
      rewrite (forth f2 _ Hin Er). simpl. split.
      * intros [<- | []]. split; [exact Hin |]. right. left. auto.
      * intros [He [[H _] | [[_ H] | [H _]]]]; try discriminate.
        left. rewrite Er in H. symmetry.
        apply (lb_injective type_rank S S_sorted); auto.
    + destruct (N.testbit (not_until (b_bitset t)) j) eqn:En.
      * destruct (kind_entry K_not_until j En) as (f & Hf & Hk & _).
        destruct f; try discriminate. simpl in Hk.
        destruct f; try discriminate.
        destruct (entry_operands j _ Hf) as [Hl Hr].
        destruct (Hl _ eq_refl) as [Hin1 El].
        destruct (Hr _ eq_refl) as [Hin2 Er].
        rewrite (forth _ _ Hin1 El), (forth _ _ Hin2 Er). simpl. split.
        -- intros [<- | [<- | []]]; (split; [assumption |]);
             right; right; auto.
        -- intros [He [[H _] | [[H _] | [_ [H | H]]]]]; try discriminate.
           ++ left. rewrite El in H. symmetry.
              apply (lb_injective type_rank S S_sorted); auto.
           ++ right. left. rewrite Er in H. symmetry.
              apply (lb_injective type_rank S S_sorted); auto.
      * simpl. split; [intros [] |].
        intros [_ [[H _] | [[H _] | [H _]]]]; discriminate.
Qed.

Local Abbreviation evs :=
  (unique (sort type_rank
     (flat_map (eventualities_of S t) (positions (vlength S))))).

Lemma evs_In (e : Formula) :
  In e evs
  <-> exists j, j < vlength S /\ In e (eventualities_of S t j).
Proof.
  rewrite unique_In, sort_In, in_flat_map.
  split; intros (j & Hj & He); exists j; split; auto;
    apply positions_In; exact Hj.
Qed.

Lemma evs_in_closure (e : Formula) : In e evs -> In e S.
Proof.
  intros H. apply evs_In in H. destruct H as (j & Hj & He).
  apply (eventualities_of_entry j e Hj) in He. tauto.
Qed.

Lemma evs_NoDup : NoDup evs.
Proof.
  apply sorted_NoDup, closure_sorted; [exact type_rank_injective |].
  apply Forall_forall. intros e He.
  assert (Hin : In e S).
  { apply evs_in_closure, unique_In, sort_In. exact He. }
  apply (proj1 (closure_In type_rank _ e)) in Hin.
  pose proof core as Hc. unfold all_core in Hc.
  rewrite Forall_forall in Hc. apply Hc. exact Hin.
Qed.

Lemma slot_round_trip (j operand : FormulaID) :
  N.testbit (eventually (b_bitset t)) j = true
  /\ operand = vget FormulaID_max (b_lhs t) j
  \/ N.testbit (until (b_bitset t)) j = true
     /\ operand = vget FormulaID_max (b_rhs t) j
  \/ N.testbit (not_until (b_bitset t)) j = true
     /\ (operand = vget FormulaID_max (b_lhs t) j
         \/ operand = vget FormulaID_max (b_rhs t) j) ->
  let fw := fst (build_luts type_rank S evs) in
  let bw := snd (build_luts type_rank S evs) in
  vget FormulaID_max fw operand < vlength bw
  /\ vget FormulaID_max bw (vget FormulaID_max fw operand) = operand.
Proof.
  intros H. cbv zeta.
  assert (He : exists e, In e evs /\ lower_bound type_rank S e = operand).
  { assert (Hk : exists k f, nth_error S (N.to_nat j) = Some f
                             /\ tag_of f = Some k /\ j < vlength S
                             /\ (k = K_eventually \/ k = K_until
                                 \/ k = K_not_until)).
    { destruct H as [[H _] | [[H _] | [H _]]].
      - destruct (kind_entry K_eventually j H) as (f & H1 & H2 & H3).
        exists K_eventually, f. repeat split; auto.
      - destruct (kind_entry K_until j H) as (f & H1 & H2 & H3).
        exists K_until, f. repeat split; auto.
      - destruct (kind_entry K_not_until j H) as (f & H1 & H2 & H3).
        exists K_not_until, f. repeat split; auto. }
    destruct Hk as (k & f & Hf & Hk & Hj & _).
    destruct (entry_operands j f Hf) as [Hl Hr].
    assert (pick : forall g, In g S -> lower_bound type_rank S g = operand ->
                             exists e, In e evs
                                       /\ lower_bound type_rank S e = operand).
    { intros g Hin Eg. exists g. split; [| exact Eg].
      apply evs_In. exists j. split; [exact Hj |].
      apply (eventualities_of_entry j g Hj). split; [exact Hin |].
      rewrite Eg. exact H. }
    destruct H as [[Hb ->] | [[Hb ->] | [Hb [-> | ->]]]].
    - destruct (kind_entry K_eventually j Hb) as (f' & Hf' & Hk' & _).
      assert (f' = f) by congruence. subst f'.
      destruct f; try discriminate;
        try (simpl in Hk'; destruct (isa TUntil f); discriminate).
      destruct (Hl f eq_refl) as [Hin El]. apply (pick f); auto.
    - destruct (kind_entry K_until j Hb) as (f' & Hf' & Hk' & _).
      assert (f' = f) by congruence. subst f'.
      destruct f; try discriminate;
        try (simpl in Hk'; destruct (isa TUntil f); discriminate).
      destruct (Hr f2 eq_refl) as [Hin Er]. apply (pick f2); auto.
    - destruct (kind_entry K_not_until j Hb) as (f' & Hf' & Hk' & _).
      assert (f' = f) by congruence. subst f'.
      destruct f; try discriminate. simpl in Hk'.
      destruct f; try discriminate.
      destruct (Hl _ eq_refl) as [Hin El].
      apply (pick (simplify (Negation f1))); auto.
    - destruct (kind_entry K_not_until j Hb) as (f' & Hf' & Hk' & _).
      assert (f' = f) by congruence. subst f'.
      destruct f; try discriminate. simpl in Hk'.
      destruct f; try discriminate.
      destruct (Hr _ eq_refl) as [Hin Er].
      apply (pick (simplify (Negation f2))); auto. }
  destruct He as (e & Hin & <-).
  destruct (In_nth_error _ _ Hin) as [i Hi].
  destruct (build_luts_round_trip type_rank S S_sorted evs i e
              evs_NoDup evs_in_closure Hi) as (L & B & F).
  rewrite F, B. split; [| reflexivity].
  rewrite L.
  assert (Hlt : (i < List.length evs)%nat)
    by (apply nth_error_Some; congruence).
  unfold vlength at 1. lia.
Qed.

End Entries.

(** Property X17, the tables of the promises.  Let the tags be ordered
    injectively and the generator return formulas without implications and
    biconditionals, together with the operands of each.  For the operand an
    eventually, an until or a negated until promises,
    [_fw_eventualities_lut] gives a slot of the promise vector, and
    [_bw_eventualities_lut] gives that operand back for the slot: the slot
    a branching rule requests is the one
    [_update_eventualities_satisfaction] satisfies when the operand
    holds. *)
Theorem promise_slots_round_trip (formula : Formula)
    (maximum_depth : FrameID)
    (backtrack_probability minimum_backtrack maximum_backtrack : N)
    (use_sat : bool) (j operand : FormulaID) :
  let generated := generate (simplify formula) in
  let c := closure (Solver_new type_rank simplify generate count formula
                      maximum_depth backtrack_probability minimum_backtrack
                      maximum_backtrack use_sat) in
  all_core generated ->
  operand_closed simplify generated ->
  promised c j operand ->
  fw_at c operand < vlength (_bw_eventualities_lut c)
  /\ bw_at c (fw_at c operand) = operand.
Proof.
  cbv zeta. unfold Solver_new. cbv zeta. intros Hcore Hclosed Hp.
  unfold promised, fw_at, bw_at, lhs_at, rhs_at in *.
  match type of Hp with context [init ?s0] =>
    destruct (_initialize_luts s0) as [E | [EF EB]];
    [| destruct (_initialize_tables type_rank simplify generate count s0)
         as [(_ & E & _) | (_ & _ & EBits & EL & ER & _)]]
  end; cbn [_formula] in *.
  - rewrite E in Hp. cbn [_bitset Closure_empty] in Hp.
    destruct Hp as [[H _] | [[H _] | [H _]]]; simpl in H; discriminate.
  - rewrite E in Hp. cbn [_bitset Closure_empty] in Hp.
    destruct Hp as [[H _] | [[H _] | [H _]]]; simpl in H; discriminate.
  - rewrite EF, EB. rewrite EBits, EL, ER in Hp.
    apply (slot_round_trip formula Hcore Hclosed j operand Hp).
Qed.

End PromiseSlots.

(** ** The loop of the SAT bridge *)

Lemma sat_extract_fold_effect (c : Closure) (value : N -> bool) :
  forall (lits : list N) (acc : Frame * Clause),
    let out :=
      fold_left
        (fun (acc : Frame * Clause) (l : N) =>
           if value l
           then (set_formula (fst acc) l, snd acc ++ [mkLit l true])
           else if negative_slot c l then
             (set_formula (fst acc) (l + 1), snd acc ++ [mkLit l false])
           else acc) lits acc in
    (forall k,
        N.testbit (formulas (fst out)) k = true
        <-> N.testbit (formulas (fst acc)) k = true
            \/ exists l, In l lits
                         /\ (value l = true /\ k = l
                             \/ value l = false
                                /\ negative_slot c l = true /\ k = l + 1))
    /\ snd out = snd acc ++ flat_map (blocking_literals c value) lits
    /\ to_process (fst out) = to_process (fst acc)
    /\ eventualities (fst out) = eventualities (fst acc).
Proof.
  induction lits as [| l lits IH]; intros acc; cbv zeta; simpl.
  - split; [| split; [symmetry; apply app_nil_r | auto]].
    intros k. split; [auto |]. intros [H | (l & [] & _)]. exact H.
  - match goal with |- context [fold_left _ lits ?a] =>
      destruct (IH a) as (H1 & H2 & H3 & H4)
    end.
    cbv zeta in H1, H2, H3, H4. rewrite H2, H3, H4.
    unfold blocking_literals at 2.
    split; [| destruct (value l); [| destruct (negative_slot c l)];
              simpl; rewrite <- ?app_assoc; auto].
    intros k. rewrite H1. clear H1 H2 H3 H4.
    destruct (value l) eqn:Ev; [| destruct (negative_slot c l) eqn:En];
      simpl; rewrite ?N.setbit_eqb.
    + split.
      * intros [H | (x & Hx & H)]; [| right; exists x; auto].
        apply orb_prop in H. destruct H as [H | H]; [| auto].
        apply N.eqb_eq in H. right. exists l. auto.
      * intros [H | (x & [<- | Hx] & H)].
        -- left. rewrite H. apply orb_true_r.
        -- destruct H as [[_ ->] | [H _]]; [| congruence].
           left. rewrite N.eqb_refl. reflexivity.
        -- right. exists x. auto.
    + split.
      * intros [H | (x & Hx & H)]; [| right; exists x; auto].
        apply orb_prop in H. destruct H as [H | H]; [| auto].
        apply N.eqb_eq in H. right. exists l. auto 6.
      * intros [H | (x & [<- | Hx] & H)].
        -- left. rewrite H. apply orb_true_r.
        -- destruct H as [[H _] | (_ & _ & ->)]; [congruence |].
           left. rewrite N.eqb_refl. reflexivity.
        -- right. exists x. auto.
    + split.
      * intros [H | (x & Hx & H)]; [auto | right; exists x; auto].
      * intros [H | (x & [<- | Hx] & H)]; [auto | | right; exists x; auto].
        destruct H as [[H _] | (_ & H & _)]; congruence.
Qed.

(** Property X18, the loop [for (int l : literals)] of the SAT bridge.  The
    child frame asserts what the copied frame asserts and, for every
    variable of the frame, the entry itself when the model makes it true and
    the next entry when the model makes it false and that entry is its
    negation (or a next-time formula over a negation); the blocking clause
    lists, in the order of the variables, [Lit(l, true)] for a variable made
    true and [Lit(l)] for a variable made false with such a next entry;
    nothing else of the frame changes. *)
Theorem sat_extract_effect (c : Closure) (value : N -> bool)
    (lits : list N) (new_frame : Frame) :
  let child := fst (sat_extract c value lits new_frame) in
  let blocking := snd (sat_extract c value lits new_frame) in
  (forall k,
      N.testbit (formulas child) k = true
      <-> N.testbit (formulas new_frame) k = true
          \/ exists l, In l lits
                       /\ (value l = true /\ k = l
                           \/ value l = false
                              /\ negative_slot c l = true /\ k = l + 1))
  /\ blocking = flat_map (blocking_literals c value) lits
  /\ to_process child = to_process new_frame
  /\ eventualities child = eventualities new_frame
  /\ id child = id new_frame
  /\ chain child = chain new_frame
  /\ type child = type new_frame.
Proof.
  cbv zeta.
  destruct (sat_extract_fold_effect c value lits (new_frame, []))
    as (H1 & H2 & H3 & H4).
  cbv zeta in H1, H2, H3, H4.
  destruct (sat_extract_extends c value lits new_frame)
    as [(C & I & _) T].
  unfold sat_extract in *. repeat split; auto; apply H1.
Qed.

(** ** The stack of a new solver and of the solvers reached from it *)

Section Reached.

Variable type_rank : FormulaType -> N.
Variable simplify : Formula -> Formula.
Variable generate : Formula -> list Formula.
Variable count : Formula -> N.
Variable solve : list Clause -> option (N -> bool).
Variable draw : N -> N.

Lemma _initialize_search_stack (s : Solver) :
  search_stack (_stack (_initialize type_rank simplify generate count s))
  /\ _state (_initialize type_rank simplify generate count s) <> PAUSED.
Proof.
  destruct (_initialize_tables type_rank simplify generate count s)
    as [(_ & _ & -> & ->)
       | (_ & _ & _ & _ & _ & _ & _ & -> & _ & nev & ->)].
  - split; [split; exact I | discriminate].
  - split; [| discriminate].
    split; [split; [| exact I] | split; [reflexivity | constructor]].
    repeat split. intros _. apply setbit_nonzero.
Qed.

Lemma calls_lasso :
  forall (fuels : list nat) (s s' : Solver),
    search_stack (_stack s) ->
    (_state s = PAUSED -> exists m, model s = Some m /\ lasso m) ->
    calls solve draw fuels s = Some s' ->
    search_stack (_stack s')
    /\ (_state s' = PAUSED -> exists m, model s' = Some m /\ lasso m).
Proof.
  induction fuels as [| fuel rest IH]; intros s s' Hs Hm Hc; simpl in Hc.
  - injection Hc as <-. auto.
  - destruct (solution solve draw fuel s) as [[r s1] |] eqn:E;
      [| discriminate].
    destruct (solution_lasso solve draw fuel s r s1 Hs E) as [H1 H2].
    apply (IH s1 s' H1 H2 Hc).
Qed.

(** Property X19, the models of a solver.  Take a new solver and call
    [solution] any number of times, each call with any bound on its rounds.
    Whenever the calls return, the stack has the shape of a search stack
    and, if the solver is paused, [model] returns a model whose loop state
    is the index of one of its states. *)
Theorem every_model_is_lasso (formula : Formula) (maximum_depth : FrameID)
    (backtrack_probability minimum_backtrack maximum_backtrack : N)
    (use_sat : bool) (fuels : list nat) :
  match calls solve draw fuels
          (Solver_new type_rank simplify generate count formula
             maximum_depth backtrack_probability minimum_backtrack
             maximum_backtrack use_sat) with
  | Some s' =>
      search_stack (_stack s')
      /\ (_state s' = PAUSED
          -> exists m, model s' = Some m /\ lasso m)
  | None => True
  end.
Proof.
  destruct (calls solve draw fuels _) as [s' |] eqn:E; [| exact I].
  unfold Solver_new in E. cbv zeta in E.
  match type of E with calls _ _ _ (_initialize _ _ _ _ ?s0) = _ =>
    destruct (_initialize_search_stack s0) as [H1 H2];
    apply (calls_lasso fuels _ s' H1); [| exact E]
  end.
  intros H. contradiction.
Qed.

(** Property X20, the coin when the lookback is always on.  A solver
    built with a backtrack probability of 100 or more returns the same
    verdict and is left in the same state whatever numbers the generator
    draws. *)
Theorem full_lookback_ignores_draws (draw1 draw2 : N -> N)
    (formula : Formula) (maximum_depth : FrameID)
    (backtrack_probability minimum_backtrack maximum_backtrack : N)
    (use_sat : bool) (fuel : nat) :
  100 <= backtrack_probability ->
  solution solve draw1 fuel
    (Solver_new type_rank simplify generate count formula maximum_depth
       backtrack_probability minimum_backtrack maximum_backtrack use_sat)
  = solution solve draw2 fuel
      (Solver_new type_rank simplify generate count formula maximum_depth
         backtrack_probability minimum_backtrack maximum_backtrack use_sat).
Proof.
  intros H. apply solution_at_100.
  unfold Solver_new. cbv zeta. rewrite _initialize_config. simpl.
  destruct (N.ltb_spec 100 backtrack_probability); lia.
Qed.

End Reached.

Section Shape.

Variable solve : list Clause -> option (N -> bool).
Variable draw : N -> N.

(** Property X21, the shape of the stack.  Call a stack a search stack
    when every frame's chain points at the nearest STEP frame below it, its
    id is the number of STEP frames below it, a frame without a chain
    asserts something, the top frame is UNKNOWN and no other frame is.  On
    a search stack, one round of [solution] never follows a null chain
    pointer ([frame.chain->id] is reached only with a chain), and whether
    it returns or jumps back to [loop] it leaves a search stack. *)
Theorem round_keeps_stack_shape (s : Solver) :
  search_stack (_stack s) -> shaped (round solve draw s).
Proof. apply round_shaped. Qed.

End Shape.

(** Property X22, the frames the detector walks.  On a stack in which
    every frame's chain points at the nearest STEP frame below it, the walk
    [currFrame = currFrame->chain] from the top frame visits exactly the
    STEP frames below the top, the nearest first. *)
Theorem chain_walk_visits_step_frames (top : Frame) (below : list Frame) :
  well_stacked (top :: below) ->
  chain_frames (List.length (top :: below)) (top :: below) (chain top)
  = filter is_step below.
Proof.
  intros [(P1 & _) Hw]. rewrite P1.
  apply (chain_frames_anchor below [top]); [exact Hw | simpl; lia].
Qed.

(** Property X23, the states of a model.  On a paused solver with a
    SATISFIABLE verdict whose stack is a search stack, and whose closure is
    not the single formula True, [model] returns one state per STEP frame
    of the stack, the oldest first, and the stored loop state; the top
    frame, which is still under construction, gives no state. *)
Theorem model_states_are_step_frames (s : Solver) :
  search_stack (_stack s) ->
  _state s = PAUSED -> _result s = SATISFIABLE ->
  _subformulas (closure s) <> [True_] ->
  model s
  = Some (mkModel (map (state_of (closure s))
                       (rev (filter is_step (tl (_stack s)))))
                  (_loop_state s)).
Proof.
  intros Hsearch Hp Hr Hne.
  destruct (_stack s) as [| top below] eqn:Hs.
  - unfold model. rewrite Hp, Hr, Hs. simpl.
    destruct (_subformulas (closure s)) as [| [] []]; try reflexivity.
    congruence.
  - destruct Hsearch as (_ & Ht & Hpk).
    destruct (model_of_search_stack s top below Hs Ht Hpk Hp Hr)
      as (m & Hm & [[E _] | ->]); [congruence | exact Hm].
Qed.

(** ** The properties on the worked inputs *)

Ltac shape_computed :=
  vm_compute;
  repeat match goal with
         | |- _ /\ _ => split
         | |- True => exact I
         | |- _ = _ => reflexivity
         | |- Forall _ [] => constructor
         | |- Forall _ (_ :: _) => constructor
         | |- _ -> _ => intro
         | H : _ = _ |- _ => discriminate H
         end.

Lemma always_p_closure_closed :
  operand_closed normal_form (always_p_closure (normal_form always_p)).
Proof.
  intros f g Hin H. simpl in Hin.
  repeat (destruct Hin as [<- | Hin]; [simpl in H; destruct H as [H | H];
    try discriminate H; injection H as <-; simpl; auto 10 |]).
  contradiction.
Qed.

(** The theorem on the closure of [G p], at the entry of [G p]. *)
Lemma closure_operands_witness :
  (forall g,
      fst (left_right normal_form (Always p)) = Some g ->
      In g (always_p_closure (normal_form always_p)) ->
      nth_error (_subformulas (closure always_p_solver))
                (N.to_nat (lhs_at (closure always_p_solver) (N.of_nat 2)))
      = Some g)
  /\ (forall g,
         snd (left_right normal_form (Always p)) = Some g ->
         In g (always_p_closure (normal_form always_p)) ->
         nth_error (_subformulas (closure always_p_solver))
                   (N.to_nat (rhs_at (closure always_p_solver) (N.of_nat 2)))
         = Some g).
Proof.
  apply (closure_operands declared_rank normal_form always_p_closure
           disjuncts declared_rank_injective always_p 3 0 0 100 false
           2%nat (Always p)).
  - apply all_core_of_forallb. reflexivity.
  - reflexivity.
Defined.

(** The theorem on [G p]. *)
Lemma first_frame_asserts_formula_witness :
  nth_error (_subformulas (closure always_p_solver))
            (N.to_nat (_start_index (closure always_p_solver)))
  = Some (normal_form always_p)
  /\ (_state always_p_solver = DONE /\ _stack always_p_solver = []
      \/ _state always_p_solver = INITIALIZED
         /\ exists frame,
              _stack always_p_solver = [frame]
              /\ (forall k, N.testbit (formulas frame) k = true
                            <-> k = _start_index (closure always_p_solver))
              /\ to_process frame
                 = set_all (_number_of_formulas (closure always_p_solver))
              /\ Forall (fun ev => ev = Unrequested) (eventualities frame)
              /\ id frame = 0 /\ chain frame = None
              /\ type frame = UNKNOWN).
Proof.
  apply (first_frame_asserts_formula declared_rank normal_form
           always_p_closure disjuncts always_p 3 0 0 100 false).
  simpl. auto.
Defined.

(** The theorem on the closure of [G p]: the promise of [F ~p], entry 4,
    is [~p], entry 1. *)
Lemma promise_slots_round_trip_witness :
  fw_at (closure always_p_solver) 1
  < vlength (_bw_eventualities_lut (closure always_p_solver))
  /\ bw_at (closure always_p_solver) (fw_at (closure always_p_solver) 1) = 1.
Proof.
  apply (promise_slots_round_trip declared_rank normal_form always_p_closure
           disjuncts declared_rank_injective always_p 3 0 0 100 false 4 1).
  - apply all_core_of_forallb. reflexivity.
  - exact always_p_closure_closed.
  - left. split; vm_compute; reflexivity.
Defined.

(** The theorem on [G ~p /\ F p] after the eventually rule has branched:
    the child is popped and the CHOICE frame is resumed. *)
Lemma rollback_resumes_nearest_witness :
  exists child parent' : Frame,
    rollback no_solver (closure after_choice)
             ([top after_choice] ++ bottom after_choice :: [])
    = child :: parent' :: []
    /\ id child = id (bottom after_choice)
    /\ chain child = chain (bottom after_choice)
    /\ type child = UNKNOWN
    /\ (forall k, N.testbit (formulas (bottom after_choice)) k = true ->
                  N.testbit (formulas child) k = true)
    /\ formulas parent' = formulas (bottom after_choice)
    /\ type parent' = type (bottom after_choice)
    /\ (type (bottom after_choice) = CHOICE ->
        resumable no_solver parent' = false).
Proof.
  apply (rollback_resumes_nearest no_solver (closure after_choice)
           [top after_choice] (bottom after_choice) []).
  - constructor; [vm_compute; reflexivity | constructor].
  - vm_compute. reflexivity.
Defined.

(** The theorem on [X p /\ G q] after five rounds. *)
Lemma round_keeps_stack_shape_witness :
  search_stack (_stack before_loop)
  /\ shaped (round no_solver (constant_draw 0) before_loop).
Proof.
  assert (H : search_stack (_stack before_loop)) by shape_computed.
  split; [exact H |].
  apply (round_keeps_stack_shape no_solver (constant_draw 0) before_loop H).
Defined.

(** The theorem on [G ~p /\ F p] after eleven rounds: the walk visits the
    frames of times 2, 1 and 0. *)
Lemma chain_walk_visits_step_frames_witness :
  chain_frames
    (List.length (top before_rep :: tl (_stack before_rep)))
    (top before_rep :: tl (_stack before_rep)) (chain (top before_rep))
  = filter is_step (tl (_stack before_rep)).
Proof.
  apply (chain_walk_visits_step_frames (top before_rep)
           (tl (_stack before_rep))).
  shape_computed.
Defined.

(** The theorem on [G p] after the first call of [solution]. *)
Lemma model_states_are_step_frames_witness :
  model always_p_paused
  = Some (mkModel (map (state_of (closure always_p_paused))
                       (rev (filter is_step (tl (_stack always_p_paused)))))
                  (_loop_state always_p_paused)).
Proof.
  apply (model_states_are_step_frames always_p_paused).
  - shape_computed.
  - vm_compute. reflexivity.
  - vm_compute. reflexivity.
  - vm_compute. discriminate.
Defined.

(** The theorem on [G p]: the second call of [solution] exhausts the
    alternatives and still returns SATISFIABLE. *)
Lemma satisfiable_is_final_witness :
  exists (r : Result) (s' : Solver),
    solution no_solver (constant_draw 0) 300 always_p_paused = Some (r, s')
    /\ r = SATISFIABLE /\ _result s' = SATISFIABLE
    /\ (_state always_p_paused = PAUSED -> _stack s' = [] ->
        _state s' = DONE /\ model s' = None).
Proof.
  assert (Hr : _result always_p_paused = SATISFIABLE)
    by (vm_compute; reflexivity).
  assert (Hsome : match solution no_solver (constant_draw 0) 300
                          always_p_paused with
                  | Some _ => true
                  | None => false
                  end = true) by (vm_compute; reflexivity).
  destruct (solution no_solver (constant_draw 0) 300 always_p_paused)
    as [[r s'] |] eqn:E; [| discriminate Hsome].
  exists r, s'. split; [reflexivity |].
  apply (satisfiable_is_final no_solver (constant_draw 0) 300
           always_p_paused r s' Hr E).
Defined.

(** The theorem on [G p], built without the SAT bridge. *)
Lemma solver_unused_without_sat_witness :
  solution no_solver (constant_draw 0) 30 always_p_lookback
  = solution all_true (constant_draw 0) 30 always_p_lookback.
Proof.
  apply (solver_unused_without_sat no_solver all_true (constant_draw 0) 30
           always_p_lookback).
  - vm_compute. reflexivity.
  - shape_computed.
Defined.

(** The theorem on [G p] with the probability at 100. *)
Lemma full_lookback_ignores_draws_witness :
  solution no_solver (constant_draw 0) 30
    (Solver_new declared_rank normal_form always_p_closure disjuncts
       always_p 10 100 0 100 false)
  = solution no_solver (constant_draw 1) 30
      (Solver_new declared_rank normal_form always_p_closure disjuncts
         always_p 10 100 0 100 false).
Proof.
  apply (full_lookback_ignores_draws declared_rank normal_form
           always_p_closure disjuncts no_solver (constant_draw 0)
           (constant_draw 1) always_p 10 100 0 100 false 30).
  lia.
Defined.

(** ** A formula and its next-time formula *)

Section NextTime.

Variable type_rank : FormulaType -> N.

Local Abbreviation cmp := (compareFunc type_rank).

Lemma tomorrow_above (f : Formula) :
  is_negation f = false -> is_tomorrow f = false ->
  cmp f (Tomorrow f) = true.
Proof.
  intros H1 H2. rewrite compare_tomorrow_right by assumption.
  rewrite Formula_eqb_refl. reflexivity.
Qed.

(** Between a formula and its next-time formula the comparator leaves room
    for negations only: the negation of the formula, or a negation of a
    negation. *)
Lemma between_tomorrow (f g : Formula) :
  is_negation f = false -> is_tomorrow f = false ->
  cmp f g = true -> cmp g (Tomorrow f) = true ->
  exists h, g = Negation h /\ (h = f \/ is_negation h = true).
Proof.
  intros Hn Ht Hfg Hgx.
  assert (plain : forall x, is_negation x = false -> is_tomorrow x = false ->
                            cmp f x = true -> cmp x (Tomorrow f) = true ->
                            False).
  { intros x X1 X2 A B. rewrite compare_tomorrow_right in B by assumption.
    destruct (Formula_eqb f x) eqn:E.
    - apply Formula_eqb_eq in E. subst x. rewrite compare_irrefl in A.
      discriminate.
    - rewrite (compare_asym type_rank _ _ A) in B. discriminate. }
  assert (next : forall x, cmp f (Tomorrow x) = true ->
                           cmp (Tomorrow x) (Tomorrow f) = true -> False).
  { intros x A B. rewrite compare_tomorrows in B.
    rewrite compare_tomorrow_right in A by assumption.
    destruct (Formula_eqb x f) eqn:E.
    - apply Formula_eqb_eq in E. subst x. rewrite compare_irrefl in B.
      discriminate.
    - rewrite (compare_asym type_rank _ _ A) in B. discriminate. }
  destruct (is_negation g) eqn:Eg.
  - destruct g; try discriminate. exists g. split; [reflexivity |].
    rewrite compare_negation_right in Hfg by exact Hn.
    rewrite compare_negation_left in Hgx by reflexivity.
    destruct (Formula_eqb g f) eqn:E; [left; apply Formula_eqb_eq; exact E |].
    right. destruct (Formula_eqb g (Tomorrow f)); [discriminate |].
    destruct (is_negation g) eqn:Egn; [reflexivity |]. exfalso.
    destruct (is_tomorrow g) eqn:Egt.
    + destruct g; try discriminate. apply (next g); assumption.
    + apply (plain g); assumption.
  - exfalso. destruct (is_tomorrow g) eqn:Egt.
    + destruct g; try discriminate. apply (next g); assumption.
    + apply (plain g); assumption.
Qed.

Lemma tomorrow_follows (l : list Formula) (f : Formula) (i : nat) :
  StronglySorted (precedes type_rank) l ->
  nth_error l i = Some f ->
  is_negation f = false -> is_tomorrow f = false ->
  In (Tomorrow f) l ->
  (forall g, In (Negation g) l -> g <> f /\ is_negation g = false) ->
  nth_error l (S i) = Some (Tomorrow f).
Proof.
  intros Hs Hi Hn Ht Hin Hneg.
  destruct (In_nth_error _ _ Hin) as [k Hk].
  destruct (nth_error_split l k Hk) as (l1 & l2 & -> & Hlen).
  destruct (sorted_app _ _ _ Hs) as (S1 & S2 & Hcross).
  inversion S2 as [| ? ? _ Hafter]; subst. rewrite Forall_forall in Hafter.
  assert (Hf : In f (l1 ++ Tomorrow f :: l2))
    by apply (nth_error_In _ _ Hi).
  assert (Hin1 : In f l1).
  { apply in_app_or in Hf. destruct Hf as [H | [H | H]].
    - exact H.
    - rewrite <- H in Ht. discriminate.
    - specialize (Hafter f H). unfold precedes in Hafter.
      rewrite (compare_asym type_rank _ _ (tomorrow_above f Hn Ht))
        in Hafter.
      discriminate. }
  destruct (in_split f l1 Hin1) as (l1a & l1b & ->).
  assert (Ei : i = List.length l1a).
  { apply (nth_error_sorted_inj type_rank _ _ _ f Hs Hi).
    rewrite <- app_assoc. rewrite nth_error_app2 by lia.
    rewrite Nat.sub_diag. reflexivity. }
  destruct l1b as [| g l1b].
  - subst i. rewrite <- app_assoc.
    rewrite nth_error_app2 by lia.
    replace (S (List.length l1a) - List.length l1a)%nat with 1%nat by lia.
    reflexivity.
  - exfalso.
    destruct (between_tomorrow f g Hn Ht) as (h & -> & Hh).
    + destruct (sorted_app _ _ _ S1) as (_ & S1b & _).
      inversion S1b as [| ? ? _ Hfwd]; subst. rewrite Forall_forall in Hfwd.
      apply Hfwd. left. reflexivity.
    + apply Hcross; [| left; reflexivity].
      apply in_or_app. right. right. left. reflexivity.
    + destruct (Hneg h) as [H1 H2].
      * apply in_or_app. left. apply in_or_app. right. right. left.
        reflexivity.
      * destruct Hh as [Hh | Hh]; congruence.
Qed.

Variable simplify : Formula -> Formula.
Variable generate : Formula -> list Formula.
Variable count : Formula -> N.

Hypothesis type_rank_injective :
  forall s t : FormulaType, type_rank s = type_rank t -> s = t.

(** Property X24, a formula and its next-time formula.  Let the tags be
    ordered injectively and the generator return formulas without
    implications and biconditionals and without double negations.  If an
    entry of the closure is neither a negation nor a next-time formula, its
    negation is not in the closure and its next-time formula is, then the
    next-time formula is the entry right after it, flagged [tomorrow], with
    [_lhs] pointing back: what the always rule and the rollback of an
    eventually assert about the entry [i + 1]. *)
Theorem next_time_follows (formula : Formula) (maximum_depth : FrameID)
    (backtrack_probability minimum_backtrack maximum_backtrack : N)
    (use_sat : bool) (i : nat) (f : Formula) :
  let generated := generate (simplify formula) in
  let c := closure (Solver_new type_rank simplify generate count formula
                      maximum_depth backtrack_probability minimum_backtrack
                      maximum_backtrack use_sat) in
  all_core generated ->
  (forall g, In (Negation g) generated -> g <> f /\ is_negation g = false) ->
  nth_error (_subformulas c) i = Some f ->
  is_negation f = false -> is_tomorrow f = false ->
  In (Tomorrow f) generated ->
  nth_error (_subformulas c) (S i) = Some (Tomorrow f)
  /\ N.testbit (tomorrow (_bitset c)) (N.of_nat i + 1) = true
  /\ lhs_at c (N.of_nat i + 1) = N.of_nat i.
Proof.
  cbv zeta. unfold Solver_new. cbv zeta. intros Hcore Hneg Hf Hn Ht Hin.
  match goal with |- context [_initialize _ _ _ _ ?s0] =>
    destruct (_initialize_tables type_rank simplify generate count s0)
      as [(Hc & E & _) | (ES & _ & EB & EL & _)]
  end; cbn [_formula] in *.
  - exfalso. destruct Hc as [Hc | Hc]; rewrite Hc in Hin;
      destruct Hin as [H | []]; discriminate.
  - unfold lhs_at. rewrite ES, EB, EL in *.
    set (S := unique (sort type_rank (generate (simplify formula)))) in *.
    pose proof (closure_sorted type_rank type_rank_injective _ Hcore)
      as Hsorted.
    fold S in Hsorted.
    assert (Hnext : nth_error S (Datatypes.S i) = Some (Tomorrow f)).
    { apply tomorrow_follows; auto.
      - apply closure_In. exact Hin.
      - intros g Hg. apply Hneg. apply (closure_In type_rank). exact Hg. }
    replace (N.of_nat i + 1) with (N.of_nat (Datatypes.S i)) by lia.
    split; [exact Hnext |]. split.
    + apply (build_tables_bits_iff type_rank simplify S (simplify formula)
               K_tomorrow).
      exists (Tomorrow f). rewrite Nat2N.id. auto.
    + rewrite (build_tables_lhs type_rank simplify S (simplify formula)
                 (Datatypes.S i) (Tomorrow f) K_tomorrow Hnext eq_refl)
        by discriminate.
      simpl.
      pose proof (lower_bound_finds type_rank S f Hsorted
                    (nth_error_In _ _ Hf)) as Hlb.
      pose proof (nth_error_sorted_inj type_rank S _ _ f Hsorted Hlb Hf).
      lia.
Qed.

End NextTime.

(** The theorem on the closure of [G p], at the entry of [G p]. *)
Lemma next_time_follows_witness :
  nth_error (_subformulas (closure always_p_solver)) 3
  = Some (Tomorrow (Always p))
  /\ N.testbit (tomorrow (_bitset (closure always_p_solver)))
               (N.of_nat 2 + 1) = true
  /\ lhs_at (closure always_p_solver) (N.of_nat 2 + 1) = N.of_nat 2.
Proof.
  apply (next_time_follows declared_rank normal_form always_p_closure
           disjuncts declared_rank_injective always_p 3 0 0 100 false
           2%nat (Always p)).
  - apply all_core_of_forallb. reflexivity.
  - intros g H. simpl in H.
    repeat (destruct H as [H | H]; [try discriminate H |]);
      try contradiction.
    injection H as <-. split; [discriminate | reflexivity].
  - reflexivity.
  - reflexivity.
  - reflexivity.
  - simpl. auto.
Defined.

(** ** The clauses of the closure *)

Section Clauses.

Variable type_rank : FormulaType -> N.
Variable simplify : Formula -> Formula.
Variable generate : Formula -> list Formula.
Variable count : Formula -> N.

Local Abbreviation init := (_initialize type_rank simplify generate count).

Section Loop.

Variable subformulas : list Formula.

Local Abbreviation clause_step :=
  (build_clause type_rank count subformulas).

Lemma build_clause_index (acc : list N * list Clause * FormulaID)
    (f : Formula) :
  snd (clause_step acc f) = N.succ (snd acc)
  /\ List.length (snd (fst (clause_step acc f)))
     = List.length (snd (fst acc))
  /\ forall i, i <> snd acc ->
       vget [] (snd (fst (clause_step acc f))) i
       = vget [] (snd (fst acc)) i.
Proof.
  destruct acc as [[sizes clauses] k].
  unfold build_clause. cbn [fst snd]. split; [reflexivity |].
  split.
  - destruct f; try reflexivity; try apply vset_length.
    destruct f; apply vset_length.
  - intros i Hi.
    destruct f; try reflexivity;
      try (apply vget_vset_other; congruence).
    destruct f; apply vget_vset_other; congruence.
Qed.

Lemma fold_clause_before :
  forall (l : list Formula) (acc : list N * list Clause * FormulaID)
         (i : FormulaID),
    i < snd acc ->
    vget [] (snd (fst (fold_left clause_step l acc))) i
    = vget [] (snd (fst acc)) i.
Proof.
  induction l as [| f l IH]; intros acc i H; cbn [fold_left];
    [reflexivity |].
  destruct (build_clause_index acc f) as (E1 & _ & E3).
  rewrite IH by (rewrite E1; lia). apply E3. lia.
Qed.

(** The clause of an entry is the one its own round of the loop writes. *)
Lemma fold_clause_at :
  forall (l : list Formula) (acc : list N * list Clause * FormulaID)
         (j : nat) (f : Formula),
    nth_error l j = Some f ->
    exists acc' : list N * list Clause * FormulaID,
      List.length (snd (fst acc')) = List.length (snd (fst acc))
      /\ snd acc' = snd acc + N.of_nat j
      /\ vget [] (snd (fst (fold_left clause_step l acc)))
              (snd acc + N.of_nat j)
         = vget [] (snd (fst (clause_step acc' f))) (snd acc + N.of_nat j).
Proof.
  induction l as [| g l IH]; intros acc j f Hj;
    [destruct j; discriminate |].
  cbn [fold_left].
  destruct (build_clause_index acc g) as (E1 & E2 & _).
  destruct j as [| j]; simpl in Hj.
  - injection Hj as ->. exists acc.
    replace (snd acc + N.of_nat 0) with (snd acc) by lia.
    split; [reflexivity |]. split; [reflexivity |].
    apply fold_clause_before. rewrite E1. lia.
  - destruct (IH (clause_step acc g) j f Hj) as (acc' & L & K & E).
    exists acc'. rewrite E1 in K, E.
    replace (snd acc + N.of_nat (S j))
      with (N.succ (snd acc) + N.of_nat j) by lia.
    split; [congruence |]. split; [exact K | exact E].
Qed.

End Loop.

Lemma _initialize_clauses (s : Solver) :
  let generated := generate (simplify (_formula s)) in
  let subformulas := unique (sort type_rank generated) in
  closure (init s) = Closure_empty generated
  \/ _clauses (closure (init s))
     = snd (fst (fold_left (build_clause type_rank count subformulas)
                   subformulas
                   (repeat 1 (N.to_nat (vlength subformulas)),
                    repeat [] (N.to_nat (vlength subformulas)), 0))).
Proof.
  cbv zeta. unfold _initialize. cbv zeta.
  set (generated := generate (simplify (_formula s))).
  set (subformulas := unique (sort type_rank generated)).
  destruct (build_luts type_rank subformulas _) as [fw bw].
  destruct (fold_left (build_clause type_rank count subformulas) subformulas _)
    as [[sizes clauses] k].
  destruct generated as [| f [| g rest]]; try destruct f;
    try (right; reflexivity); left; reflexivity.
Qed.

Hypothesis type_rank_injective :
  forall s t : FormulaType, type_rank s = type_rank t -> s = t.

(** Property X25, the variable of a negation.  Let the generator return
    formulas without implications and biconditionals, with the negand of
    every negation and without double negations.  After construction the
    clause of an entry flagged [negation] is the single literal
    [Lit(i - 1, true)], on the variable of the entry before it, which is
    its negand; and when the negand is an atom, an always, an eventually or
    an until, its own clause is the single literal [Lit(i - 1)]: a formula
    and its negation share one propositional variable, with opposite
    signs. *)
Theorem negation_shares_variable (formula : Formula)
    (maximum_depth : FrameID)
    (backtrack_probability minimum_backtrack maximum_backtrack : N)
    (use_sat : bool) (i : FormulaID) :
  let generated := generate (simplify formula) in
  let c := closure (Solver_new type_rank simplify generate count formula
                      maximum_depth backtrack_probability minimum_backtrack
                      maximum_backtrack use_sat) in
  all_core generated ->
  (forall g, In (Negation g) generated -> In g generated) ->
  (forall g, ~ In (Negation (Negation g)) generated) ->
  N.testbit (negation (_bitset c)) i = true ->
  vget [] (_clauses c) i = [mkLit (i - 1) true]
  /\ forall g,
       nth_error (_subformulas c) (N.to_nat (i - 1)) = Some g ->
       isa TAtom g || isa TAlways g || isa TEventually g || isa TUntil g
       = true ->
       vget [] (_clauses c) (i - 1) = [mkLit (i - 1) false].
Proof.
  cbv zeta. unfold Solver_new. cbv zeta. intros Hcore Hsub Hnn Hbit.
  match goal with |- context [init ?s0] =>
    destruct (_initialize_pairs_negations type_rank simplify generate count
                type_rank_injective s0 i Hcore Hsub Hnn Hbit)
      as (g & Hi & Hpos & _ & _ & Hg);
    destruct (_initialize_clauses s0) as [E | EC];
    [| destruct (_initialize_tables type_rank simplify generate count s0)
         as [(_ & E & _) | (ES & _)]]
  end; cbn [_formula] in *.
  - rewrite E in Hbit. simpl in Hbit. discriminate.
  - rewrite E in Hbit. simpl in Hbit. discriminate.
  - rewrite EC. rewrite ES in Hi, Hg.
    set (S := unique (sort type_rank (generate (simplify formula)))) in *.
    assert (range : forall (cs : list Clause) k x,
               List.length cs
               = List.length (repeat (@nil Lit) (N.to_nat (vlength S))) ->
               nth_error S (N.to_nat k) = Some x ->
               (N.to_nat k < List.length cs)%nat).
    { intros cs k x L H. rewrite L, repeat_length. unfold vlength.
      rewrite Nat2N.id. apply nth_error_Some. congruence. }
    split.
    + destruct (fold_clause_at S S
                  (repeat 1 (N.to_nat (vlength S)),
                   repeat [] (N.to_nat (vlength S)), 0) (N.to_nat i) _ Hi)
        as ([[s' c'] k'] & L & K & E).
      cbn [fst snd] in L, K, E. rewrite N.add_0_l, N2Nat.id in K, E.
      subst k'. rewrite E. unfold build_clause. cbn [fst snd].
      rewrite vget_vset_same by apply (range c' i _ L Hi).
      unfold pred64. destruct (N.eqb_spec i 0); [lia |].
      rewrite N.sub_1_r. reflexivity.
    + intros g' Hg' Hkind. rewrite ES in Hg'.
      destruct (fold_clause_at S S
                  (repeat 1 (N.to_nat (vlength S)),
                   repeat [] (N.to_nat (vlength S)), 0) (N.to_nat (i - 1))
                  _ Hg')
        as ([[s' c'] k'] & L & K & E).
      cbn [fst snd] in L, K, E. rewrite N.add_0_l, N2Nat.id in K, E.
      subst k'. rewrite E. unfold build_clause. cbn [fst snd].
      destruct g'; try discriminate Hkind;
        apply vget_vset_same; apply (range c' (i - 1) _ L Hg').
Qed.

End Clauses.

(** The theorem on the closure of [G p]: [~p], entry 1, and [p], entry 0,
    share the variable 0. *)
Lemma negation_shares_variable_witness :
  vget [] (_clauses (closure always_p_solver)) 1 = [mkLit (1 - 1) true]
  /\ forall g,
       nth_error (_subformulas (closure always_p_solver)) (N.to_nat (1 - 1))
       = Some g ->
       isa TAtom g || isa TAlways g || isa TEventually g || isa TUntil g
       = true ->
       vget [] (_clauses (closure always_p_solver)) (1 - 1)
       = [mkLit (1 - 1) false].
Proof.
  apply (negation_shares_variable declared_rank normal_form always_p_closure
           disjuncts declared_rank_injective always_p 3 0 0 100 false 1).
  - apply all_core_of_forallb. reflexivity.
  - intros g H. simpl in H.
    repeat (destruct H as [H | H]; [try discriminate H |]);
      try contradiction.
    injection H as <-. simpl. auto.
  - intros g H. simpl in H.
    repeat (destruct H as [H | H]; [discriminate H |]). contradiction.
  - reflexivity.
Defined.
